(** * AutoLinker: the phrase scanner and the link index of [src/main.ts]

    A shallow embedding of the index, the matcher, the sentence scanner, the
    phrase enumerator, the link-text construction and the debounce timer of
    the plugin, with the properties of its specification.

    Text.  A JavaScript string is modelled by [string]: a sequence of code
    units, each an [ascii] read as the code point of the same number
    (U+0000 to U+00FF).  [normalize('NFD')] leaves that range (it produces
    combining marks of the block U+0300 to U+036F), so its result is a list
    of code points [N].  The normalizer is also given on strings of 16-bit
    code units, with the Unicode Character Database as a parameter (module
    [Utf16]); on text of the range U+0000 to U+00FF the two give the same
    key ([normalizeText_on_latin1]).

    Metadata.  [indexFile] takes the tags of the frontmatter as text; it is
    also given on the frontmatter as the cache holds it, where a tag can be
    any value, together with [buildFullIndex] (module [Untyped]). *)

From Stdlib Require Import List Bool Arith ZArith NArith QArith Lia.
From Stdlib Require Import Ascii String Sorted.
Import ListNotations.

Local Open Scope string_scope.
Local Open Scope list_scope.
Local Open Scope nat_scope.

(* ------------------------------------------------------------------------- *)
(** ** Strings *)

Module Text.

Definition code (c : ascii) : N := N_of_ascii c.

Definition between (lo hi n : N) : bool := ((lo <=? n) && (n <=? hi))%N.

Fixpoint smap (f : ascii -> ascii) (s : string) : string :=
  match s with
  | EmptyString => EmptyString
  | String c s' => String (f c) (smap f s')
  end.

Fixpoint sfilter (p : ascii -> bool) (s : string) : string :=
  match s with
  | EmptyString => EmptyString
  | String c s' => if p c then String c (sfilter p s') else sfilter p s'
  end.

Definition isEmpty (s : string) : bool :=
  match s with EmptyString => true | _ => false end.

(** [s.substring(a, b)]: the arguments are swapped when [a > b], and the
    end is clamped to the length of the string. *)
Definition jsSubstring (a b : nat) (s : string) : string :=
  substring (Nat.min a b) (Nat.max a b - Nat.min a b) s.

(** [key.startsWith(q)]. *)
Definition startsWith (key q : string) : bool := prefix q key.

(** *** The Unicode character database, U+0000 to U+00FF *)

(** Canonical decompositions (UnicodeData.txt, field 5 without a tag):
    code point, base letter, combining mark. *)
Definition canonicalDecomposition : list (N * (N * N)) :=
  [ (0xC0, (0x41, 0x300)); (0xC1, (0x41, 0x301)); (0xC2, (0x41, 0x302));
    (0xC3, (0x41, 0x303)); (0xC4, (0x41, 0x308)); (0xC5, (0x41, 0x30A));
    (0xC7, (0x43, 0x327));
    (0xC8, (0x45, 0x300)); (0xC9, (0x45, 0x301)); (0xCA, (0x45, 0x302));
    (0xCB, (0x45, 0x308));
    (0xCC, (0x49, 0x300)); (0xCD, (0x49, 0x301)); (0xCE, (0x49, 0x302));
    (0xCF, (0x49, 0x308));
    (0xD1, (0x4E, 0x303));
    (0xD2, (0x4F, 0x300)); (0xD3, (0x4F, 0x301)); (0xD4, (0x4F, 0x302));
    (0xD5, (0x4F, 0x303)); (0xD6, (0x4F, 0x308));
    (0xD9, (0x55, 0x300)); (0xDA, (0x55, 0x301)); (0xDB, (0x55, 0x302));
    (0xDC, (0x55, 0x308));
    (0xDD, (0x59, 0x301));
    (0xE0, (0x61, 0x300)); (0xE1, (0x61, 0x301)); (0xE2, (0x61, 0x302));
    (0xE3, (0x61, 0x303)); (0xE4, (0x61, 0x308)); (0xE5, (0x61, 0x30A));
    (0xE7, (0x63, 0x327));
    (0xE8, (0x65, 0x300)); (0xE9, (0x65, 0x301)); (0xEA, (0x65, 0x302));
    (0xEB, (0x65, 0x308));
    (0xEC, (0x69, 0x300)); (0xED, (0x69, 0x301)); (0xEE, (0x69, 0x302));
    (0xEF, (0x69, 0x308));
    (0xF1, (0x6E, 0x303));
    (0xF2, (0x6F, 0x300)); (0xF3, (0x6F, 0x301)); (0xF4, (0x6F, 0x302));
    (0xF5, (0x6F, 0x303)); (0xF6, (0x6F, 0x308));
    (0xF9, (0x75, 0x300)); (0xFA, (0x75, 0x301)); (0xFB, (0x75, 0x302));
    (0xFC, (0x75, 0x308));
    (0xFD, (0x79, 0x301)); (0xFF, (0x79, 0x308)) ]%N.

Fixpoint lookupDecomposition (n : N) (tbl : list (N * (N * N))) : option (N * N) :=
  match tbl with
  | [] => None
  | (m, d) :: tbl' => if (m =? n)%N then Some d else lookupDecomposition n tbl'
  end.

(** NFD of one code unit: base letter then mark, or the character itself.
    One mark per character, so no reordering of marks takes place. *)
Definition nfdChar (c : ascii) : list N :=
  match lookupDecomposition (code c) canonicalDecomposition with
  | Some (base, mark) => [base; mark]
  | None => [code c]
  end.

(** [text.normalize('NFD')]. *)
Definition nfd (text : string) : list N :=
  flat_map nfdChar (list_ascii_of_string text).

(** The class [[\u0300-\u036f]]. *)
Definition isCombiningDiacritical (n : N) : bool := between 0x300 0x36F n.

(** [.replace(/[\u0300-\u036f]/g, '')] on the decomposed text. *)
Definition stripCombining (cps : list N) : list N :=
  filter (fun n => negb (isCombiningDiacritical n)) cps.

(** Back to code units; exact on code points below U+0100. *)
Definition fromCodePoints (cps : list N) : string :=
  string_of_list_ascii (map ascii_of_N cps).

(** Simple lowercase mapping: A-Z, U+00C0-U+00D6 and U+00D8-U+00DE move up
    by 0x20; nothing else in the range has one. *)
Definition lowerChar (c : ascii) : ascii :=
  let n := code c in
  if between 0x41 0x5A n || between 0xC0 0xD6 n || between 0xD8 0xDE n
  then ascii_of_N (n + 0x20)
  else c.

(** [s.toLowerCase()] on text of the range U+0000 to U+00FF, where
    each character has one lowercase character and no context matters. *)
Definition toLowerCase (s : string) : string := smap lowerChar s.

(** General categories L* and N*: the class [[\p{L}\p{N}]]. *)
Definition isLetterOrNumber (c : ascii) : bool :=
  let n := code c in
  between 0x30 0x39 n || between 0x41 0x5A n || between 0x61 0x7A n
  || (n =? 0xAA)%N || (n =? 0xB2)%N || (n =? 0xB3)%N || (n =? 0xB5)%N
  || (n =? 0xB9)%N || (n =? 0xBA)%N || between 0xBC 0xBE n
  || between 0xC0 0xD6 n || between 0xD8 0xF6 n || between 0xF8 0xFF n.

(** The class [\s]: TAB, LF, VT, FF, CR, SPACE, NO-BREAK SPACE. *)
Definition isWhitespace (c : ascii) : bool :=
  let n := code c in
  between 0x09 0x0D n || (n =? 0x20)%N || (n =? 0xA0)%N.

(** The class [[.!?]]. *)
Definition isTerminator (c : ascii) : bool :=
  let n := code c in
  (n =? 0x2E)%N || (n =? 0x21)%N || (n =? 0x3F)%N.

(** [/re/.test(line[i])]: [line[i]] is [undefined] out of range, and the
    text "undefined" matches neither class. *)
Definition testAt (p : ascii -> bool) (line : string) (i : nat) : bool :=
  match get i line with
  | Some c => p c
  | None => false
  end.

(** [s.trim()]. *)
Fixpoint trimStart (s : string) : string :=
  match s with
  | EmptyString => EmptyString
  | String c s' => if isWhitespace c then trimStart s' else s
  end.

Fixpoint trimEnd (s : string) : string :=
  match s with
  | EmptyString => EmptyString
  | String c s' =>
      match trimEnd s' with
      | EmptyString => if isWhitespace c then EmptyString else String c EmptyString
      | t => String c t
      end
  end.

Definition trim (s : string) : string := trimEnd (trimStart s).

(** [s.split(',')]: never empty; the empty string gives one empty piece. *)
Fixpoint splitOn (sep : ascii) (s : string) : list string :=
  match s with
  | EmptyString => [EmptyString]
  | String c s' =>
      if Ascii.eqb c sep then EmptyString :: splitOn sep s'
      else match splitOn sep s' with
           | [] => [String c EmptyString]
           | p :: ps => String c p :: ps
           end
  end.

End Text.

Import Text.

(* ------------------------------------------------------------------------- *)
(** ** Normalizer *)

(** [normalizeText]:
    [text.normalize('NFD').replace(/[\u0300-\u036f]/g, '').toLowerCase()
         .replace(/[^\p{L}\p{N}]/gu, '')],
    on text of the range U+0000 to U+00FF.  [Utf16.normalizeText] below is
    the normalizer on every string. *)
Definition normalizeText (text : string) : string :=
  sfilter isLetterOrNumber
    (toLowerCase (fromCodePoints (stripCombining (nfd text)))).

(* ------------------------------------------------------------------------- *)
(** ** Data model *)

Inductive IndexEntryType := title | heading | block | tag.

Record IndexEntry := mkIndexEntry {
  type : IndexEntryType;
  notePath : string;
  noteTitle : string;
  target : string;
  displayText : string;
  score : option Q
}.

(** The fields of a [TFile] that the plugin reads. *)
Record TFile := mkTFile {
  path : string;
  basename : string;
  extension : string
}.

Definition typeEqb (a b : IndexEntryType) : bool :=
  match a, b with
  | title, title | heading, heading | block, block | tag, tag => true
  | _, _ => false
  end.

(** [m.type === e.type && m.notePath === e.notePath && m.target === e.target] *)
Definition sameTriple (e m : IndexEntry) : bool :=
  typeEqb (type m) (type e)
  && String.eqb (notePath m) (notePath e)
  && String.eqb (target m) (target e).

Definition triple (e : IndexEntry) : IndexEntryType * string * string :=
  (type e, notePath e, target e).

(** [Array.prototype.findIndex]; [None] stands for [-1]. *)
Fixpoint findIndexFrom {A : Type} (p : A -> bool) (l : list A) (i : nat) : option nat :=
  match l with
  | [] => None
  | x :: l' => if p x then Some i else findIndexFrom p l' (S i)
  end.

Definition findIndex {A : Type} (p : A -> bool) (l : list A) : option nat :=
  findIndexFrom p l 0.

(** [Array.prototype.filter] with the element and its index. *)
Fixpoint filterIndexedFrom {A : Type} (p : A -> nat -> bool) (l : list A) (i : nat) : list A :=
  match l with
  | [] => []
  | x :: l' =>
      if p x i then x :: filterIndexedFrom p l' (S i) else filterIndexedFrom p l' (S i)
  end.

Definition filterIndexed {A : Type} (p : A -> nat -> bool) (l : list A) : list A :=
  filterIndexedFrom p l 0.

Definition optNatEqb (o : option nat) (i : nat) : bool :=
  match o with
  | Some j => Nat.eqb j i
  | None => false
  end.

(* ------------------------------------------------------------------------- *)
(** ** The index: a JavaScript [Map] from normalized keys to buckets

    A [Map] iterates in insertion order, and the matcher's result order
    depends on it, so the map is an association list in insertion order. *)

Module JsMap.
Section Ops.
Context {V : Type}.

Definition t := list (string * V).

Fixpoint get (k : string) (m : t) : option V :=
  match m with
  | [] => None
  | (k', v) :: m' => if String.eqb k' k then Some v else get k m'
  end.

(** [set] keeps the position of a key already present and appends a new
    key at the end. *)
Fixpoint set (k : string) (v : V) (m : t) : t :=
  match m with
  | [] => [(k, v)]
  | (k', v') :: m' =>
      if String.eqb k' k then (k, v) :: m' else (k', v') :: set k v m'
  end.

Fixpoint delete (k : string) (m : t) : t :=
  match m with
  | [] => []
  | (k', v') :: m' =>
      if String.eqb k' k then m' else (k', v') :: delete k m'
  end.

Definition keys (m : t) : list string := map fst m.

(** Keys of a [Map] are unique. *)
Definition wf (m : t) : Prop := NoDup (keys m).
End Ops.
Arguments t : clear implicits.
End JsMap.

Definition Index := JsMap.t (list IndexEntry).

Definition emptyIndex : Index := [].

(** [addToIndex(key, entry)]: [entries.push] changes the bucket in place, and
    the bucket is stored again under the normalized key. *)
Definition addToIndex (key : string) (entry : IndexEntry) (index : Index) : Index :=
  let normalizedKey := normalizeText key in
  let entries :=
    match JsMap.get normalizedKey index with
    | Some es => es
    | None => []
    end in
  let entries' :=
    if negb (existsb (sameTriple entry) entries) then entries ++ [entry] else entries in
  JsMap.set normalizedKey entries' index.

(** The body of the loop of [deleteFromIndex(file)], at the binding
    [(key, entries)]. *)
Definition deleteFromIndexStep (file : TFile) (idx : Index) (kv : string * list IndexEntry)
  : Index :=
  let '(key, entries) := kv in
  let filtered :=
    filter (fun entry => negb (String.eqb (notePath entry) (path file))) entries in
  if 0 <? List.length filtered then JsMap.set key filtered idx
  else JsMap.delete key idx.

(** [deleteFromIndex(file)].  The loop runs over the live map; it only
    re-sets or deletes the key it is visiting, which neither moves nor adds
    a key, so it visits the bindings the map had when the loop started. *)
Definition deleteFromIndex (file : TFile) (index : Index) : Index :=
  fold_left (deleteFromIndexStep file) index index.

(** [{ ...entry, notePath: file.path, noteTitle: file.basename }] *)
Definition renameEntry (file : TFile) (oldPath : string) (entry : IndexEntry) : IndexEntry :=
  if String.eqb (notePath entry) oldPath then
    {| type := type entry; notePath := path file; noteTitle := basename file;
       target := target entry; displayText := displayText entry;
       score := score entry |}
  else entry.

(** The body of the loop of [renameInIndex(file, oldPath)]. *)
Definition renameInIndexStep (file : TFile) (oldPath : string) (idx : Index)
  (kv : string * list IndexEntry) : Index :=
  let '(key, entries) := kv in
  let updatedEntries := map (renameEntry file oldPath) entries in
  JsMap.set key updatedEntries idx.

(** [renameInIndex(file, oldPath)] *)
Definition renameInIndex (file : TFile) (oldPath : string) (index : Index) : Index :=
  fold_left (renameInIndexStep file oldPath) index index.

(** The part of the host's [CachedMetadata] that [indexFile] reads.
    [frontmatter.tags] is an array of text or a comma-separated string;
    [Untyped] below has the tags with any value. *)
Inductive FrontmatterTags :=
| TagsArray (tags : list string)
| TagsString (tags : string).

Record CachedMetadata := mkCachedMetadata {
  frontmatterTags : option FrontmatterTags;
  headings : option (list string);
  sections : option (list (option string))   (* [section.id] of each section *)
}.

(** [if (metadata?.frontmatter?.tags)]: the empty string is falsy, an array
    never is. *)
Definition tagList (m : CachedMetadata) : list string :=
  match frontmatterTags m with
  | Some (TagsArray l) => l
  | Some (TagsString s) => if isEmpty s then [] else splitOn "," s
  | None => []
  end.

Definition titleEntry (file : TFile) : IndexEntry :=
  {| type := title; notePath := path file; noteTitle := basename file;
     target := basename file; displayText := basename file; score := None |}.

Definition tagEntry (file : TFile) (cleanTag : string) : IndexEntry :=
  {| type := tag; notePath := path file; noteTitle := basename file;
     target := cleanTag; displayText := "#" ++ cleanTag; score := None |}.

Definition headingEntry (file : TFile) (h : string) : IndexEntry :=
  {| type := heading; notePath := path file; noteTitle := basename file;
     target := h; displayText := basename file ++ " > " ++ h; score := None |}.

Definition blockEntry (file : TFile) (id : string) : IndexEntry :=
  {| type := block; notePath := path file; noteTitle := basename file;
     target := id; displayText := basename file ++ " > #" ++ id; score := None |}.

(** [indexFile(file)], given the metadata the cache holds for the file. *)
Definition indexFile (metadata : option CachedMetadata) (file : TFile) (index : Index) : Index :=
  if negb (String.eqb (extension file) "md") then index else
  let index1 := addToIndex (basename file) (titleEntry file) index in
  match metadata with
  | None => index1
  | Some m =>
      let index2 :=
        fold_left
          (fun idx t => let cleanTag := trim t in addToIndex cleanTag (tagEntry file cleanTag) idx)
          (tagList m) index1 in
      let index3 :=
        fold_left (fun idx h => addToIndex h (headingEntry file h) idx)
          (match headings m with Some hs => hs | None => [] end) index2 in
      fold_left
        (fun idx sid =>
           match sid with
           | Some id => if isEmpty id then idx else addToIndex id (blockEntry file id) idx
           | None => idx
           end)
        (match sections m with Some ss => ss | None => [] end) index3
  end.

(* ------------------------------------------------------------------------- *)
(** ** Matcher *)

(** [textLower.indexOf(char, searchIndex)]; [None] stands for [-1]. *)
Fixpoint indexOf (char : ascii) (text : string) (searchIndex : nat) : option nat :=
  match text with
  | EmptyString => None
  | String c text' =>
      match searchIndex with
      | 0 => if Ascii.eqb c char then Some 0 else option_map S (indexOf char text' 0)
      | S i => option_map S (indexOf char text' i)
      end
  end.

Fixpoint fuzzyLoop (queryChars : list ascii) (textLower : string) (searchIndex : nat) : bool :=
  match queryChars with
  | [] => true
  | char :: rest =>
      match indexOf char textLower searchIndex with
      | None => false
      | Some foundIndex => fuzzyLoop rest textLower (foundIndex + 1)
      end
  end.

(** [fuzzyMatch(query, text)] *)
Definition fuzzyMatch (query text : string) : bool :=
  fuzzyLoop (list_ascii_of_string (toLowerCase query)) (toLowerCase text) 0.

(** [{ ...e, score: s }] *)
Definition withScore (s : Q) (e : IndexEntry) : IndexEntry :=
  {| type := type e; notePath := notePath e; noteTitle := noteTitle e;
     target := target e; displayText := displayText e; score := Some s |}.

Definition exactMatches (normalizedQuery : string) (index : Index) : list IndexEntry :=
  flat_map
    (fun '(key, entries) =>
       if startsWith key normalizedQuery then map (withScore 0) entries else [])
    index.

Definition fuzzyMatches (normalizedQuery : string) (index : Index) : list IndexEntry :=
  flat_map
    (fun '(key, entries) =>
       if fuzzyMatch normalizedQuery key then map (withScore (1 # 2)) entries else [])
    index.

(** [allMatches.filter((match, index, self) => index === self.findIndex(...))] *)
Definition uniqueMatches (allMatches : list IndexEntry) : list IndexEntry :=
  filterIndexed
    (fun m i => optNatEqb (findIndex (fun m' => sameTriple m m') allMatches) i)
    allMatches.

(** [getSuggestions(query)] *)
Definition getSuggestions (index : Index) (query : string) : list IndexEntry :=
  let normalizedQuery := normalizeText query in
  if isEmpty normalizedQuery then [] else
  let allMatches := exactMatches normalizedQuery index ++ fuzzyMatches normalizedQuery index in
  firstn 100 (uniqueMatches allMatches).

(* ------------------------------------------------------------------------- *)
(** ** Sentence scanner *)

(** [for (let i = cursorCh - 1; i >= 0; i--)
       if (/[.!?]/.test(line[i])) { sentenceStart = i + 1; break; }]
    started with [i + 1 = n]; [sentenceStart] is 0 when the loop ends
    without a [break]. *)
Fixpoint scanBack (line : string) (n : nat) : nat :=
  match n with
  | 0 => 0
  | S i => if testAt isTerminator line i then S i else scanBack line i
  end.

(** [for (let i = cursorCh; i < line.length; i++)
       if (/[.!?]/.test(line[i])) { sentenceEnd = i; break; }];
    [fuel] is the number of iterations left, [line.length - i]. *)
Fixpoint scanForward (line : string) (fuel i : nat) : nat :=
  match fuel with
  | 0 => String.length line
  | S fuel' => if testAt isTerminator line i then i else scanForward line fuel' (S i)
  end.

(** [while (sentenceStart < sentenceEnd && /\s/.test(line[sentenceStart]))
       sentenceStart++;]  At most [sentenceEnd - sentenceStart] iterations. *)
Fixpoint trimLeading (line : string) (fuel sentenceStart sentenceEnd : nat) : nat :=
  match fuel with
  | 0 => sentenceStart
  | S fuel' =>
      if (sentenceStart <? sentenceEnd) && testAt isWhitespace line sentenceStart
      then trimLeading line fuel' (S sentenceStart) sentenceEnd
      else sentenceStart
  end.

(** [while (sentenceEnd > sentenceStart && /\s/.test(line[sentenceEnd - 1]))
       sentenceEnd--;] *)
Fixpoint trimTrailing (line : string) (sentenceStart sentenceEnd : nat) : nat :=
  match sentenceEnd with
  | 0 => 0
  | S e =>
      if (sentenceStart <? sentenceEnd) && testAt isWhitespace line e
      then trimTrailing line sentenceStart e
      else sentenceEnd
  end.

Record SentenceSpan := mkSentenceSpan {
  sentenceStart : nat;     (* also [sentenceOffset] *)
  sentenceEnd : nat;
  sentence : string
}.

Definition untrimmedStart (line : string) (cursorCh : nat) : nat :=
  scanBack line cursorCh.

Definition untrimmedEnd (line : string) (cursorCh : nat) : nat :=
  scanForward line (String.length line - cursorCh) cursorCh.

(** The sentence parsing of [AutoLinkerSuggest.onTrigger] (and of
    [scanForPhrase]). *)
Definition scanSentenceSuggest (line : string) (cursorCh : nat) : SentenceSpan :=
  let start0 := untrimmedStart line cursorCh in
  let end0 := untrimmedEnd line cursorCh in
  let start1 := trimLeading line (end0 - start0) start0 end0 in
  let end1 := trimTrailing line start1 end0 in
  {| sentenceStart := start1; sentenceEnd := end1;
     sentence := jsSubstring start1 end1 line |}.

(** The sentence parsing of [runQuickLink]: there is no second [while]. *)
Definition scanSentenceQuickLink (line : string) (cursorCh : nat) : SentenceSpan :=
  let start0 := untrimmedStart line cursorCh in
  let end0 := untrimmedEnd line cursorCh in
  let start1 := trimLeading line (end0 - start0) start0 end0 in
  {| sentenceStart := start1; sentenceEnd := end0;
     sentence := jsSubstring start1 end0 line |}.

(* ------------------------------------------------------------------------- *)
(** ** Tokens and the word under the cursor *)

(** One result of [wordRegex.exec(sentence)]: [match[0]] and [match.index]. *)
Record RegExpMatch := mkRegExpMatch {
  matchText : string;
  matchIndex : nat
}.

Record Token := mkToken {
  word : string;
  start : nat;
  end_ : nat
}.

(** [{ word: match[0], start: match.index, end: match.index + match[0].length }] *)
Definition tokenOfMatch (m : RegExpMatch) : Token :=
  {| word := matchText m; start := matchIndex m;
     end_ := matchIndex m + String.length (matchText m) |}.

(** The [while ((match = wordRegex.exec(sentence)) !== null)] loop, given
    the successive matches of the regular expression. *)
Definition tokensOfMatches (ms : list RegExpMatch) : list Token :=
  map tokenOfMatch ms.

(** [cursorCh - sentenceOffset], which is negative when the cursor stands in
    the white space that was trimmed off the front. *)
Definition cursorInSentenceOf (cursorCh sentenceOffset : nat) : Z :=
  (Z.of_nat cursorCh - Z.of_nat sentenceOffset)%Z.

(** [w => cursorInSentence >= w.start && cursorInSentence <= w.end] *)
Definition touches (cursorInSentence : Z) (w : Token) : bool :=
  ((cursorInSentence >=? Z.of_nat (start w)) && (cursorInSentence <=? Z.of_nat (end_ w)))%Z.

(** [w => cursorInSentence === w.end] *)
Definition atWordEnd (cursorInSentence : Z) (w : Token) : bool :=
  (cursorInSentence =? Z.of_nat (end_ w))%Z.

(** The two [findIndex] calls; [None] stands for [-1]. *)
Definition locateCursorWord (wordsWithIndices : list Token) (cursorInSentence : Z)
  : option nat :=
  match findIndex (touches cursorInSentence) wordsWithIndices with
  | Some i => Some i
  | None => findIndex (atWordEnd cursorInSentence) wordsWithIndices
  end.

(** Resolution with the second [findIndex] removed. *)
Definition locateCursorWordPrimary (wordsWithIndices : list Token) (cursorInSentence : Z)
  : option nat :=
  findIndex (touches cursorInSentence) wordsWithIndices.

(* ------------------------------------------------------------------------- *)
(** ** Phrase enumerator *)

(** A candidate span [(startIdx, endIdx)]. *)
Definition Span := (nat * nat)%type.

Definition spanLength (sp : Span) : nat := snd sp - fst sp + 1.

(** [cursorWordIdx < startIdx || cursorWordIdx > endIdx] *)
Definition cursorOutside (cursorWordIdx : nat) (sp : Span) : bool :=
  (cursorWordIdx <? fst sp) || (snd sp <? cursorWordIdx).

(** The inner loop, [for (offset = 0; offset <= length - span; offset++)],
    entered with [1 <= span <= length]: the spans that are not skipped by
    [continue]. *)
Definition spansOfLength (length span cursorWordIdx : nat) : list Span :=
  filter (fun sp => negb (cursorOutside cursorWordIdx sp))
    (map (fun offset => (offset, offset + span - 1)) (seq 0 (length - span + 1))).

(** The outer loop, [for (span = length; span >= 1; span--)]: the candidate
    spans in the order in which the loops reach them. *)
Definition enumeratePhrases (length cursorWordIdx : nat) : list Span :=
  flat_map (fun span => spansOfLength length span cursorWordIdx) (rev (seq 1 length)).

(** The order of the specification: longer first, then leftmost first. *)
Definition spanBefore (a b : Span) : Prop :=
  spanLength b < spanLength a \/ (spanLength a = spanLength b /\ fst a < fst b).

(* ------------------------------------------------------------------------- *)
(** ** Link text *)

(** The [switch] of [AutoLinkerSuggest.selectSuggestion]. *)
Definition selectSuggestionLinkText (item : IndexEntry) (query : string) : string :=
  match type item with
  | title => "[[" ++ target item ++ "|" ++ query ++ "]]"
  | heading => "[[" ++ noteTitle item ++ "#" ++ target item ++ "|" ++ query ++ "]]"
  | block => "[[" ++ noteTitle item ++ "#^" ++ target item ++ "|" ++ query ++ "]]"
  | tag => "[[" ++ target item ++ "|" ++ query ++ "]]"
  end.

(** The three assignments to [linkText] in [runQuickLink]. *)
Definition quickLinkText (bestMatch : IndexEntry) (phrase : string) : string :=
  let linkText := ("[[" ++ target bestMatch ++ "|" ++ phrase ++ "]]")%string in
  let linkText :=
    match type bestMatch with
    | heading =>
        ("[[" ++ noteTitle bestMatch ++ "#" ++ target bestMatch ++ "|" ++ phrase ++ "]]")%string
    | _ => linkText
    end in
  match type bestMatch with
  | block =>
      ("[[" ++ noteTitle bestMatch ++ "#^" ++ target bestMatch ++ "|" ++ phrase ++ "]]")%string
  | _ => linkText
  end.

(** A wiki link [[[destination|shown]]]. *)
Definition wikiLink (destination shown : string) : string :=
  "[[" ++ destination ++ "|" ++ shown ++ "]]".

(* ------------------------------------------------------------------------- *)
(** ** The two flows and the debounce timer

    The host supplies the regular-expression engine (the successive matches
    of [/\b\w[\w\p{L}\p{N}'-]*\b/gu] on a sentence) and the metadata cache. *)

Fixpoint firstSome {A B : Type} (f : A -> option B) (l : list A) : option B :=
  match l with
  | [] => None
  | x :: l' => match f x with Some y => Some y | None => firstSome f l' end
  end.

(** [phraseStart], [phraseEnd] and [phrase] of a candidate span; the loops
    keep both indices inside the array. *)
Definition phraseAt (sentenceText : string) (wordsWithIndices : list Token) (sp : Span)
  : option (nat * nat * string) :=
  match nth_error wordsWithIndices (fst sp), nth_error wordsWithIndices (snd sp) with
  | Some ws, Some we =>
      Some (start ws, end_ we, jsSubstring (start ws) (end_ we) sentenceText)
  | _, _ => None
  end.

Record EditorSuggestTriggerInfo := mkTriggerInfo {
  triggerStartCh : nat;
  triggerEndCh : nat;
  triggerQuery : string
}.

Inductive QuickLinkResult :=
| NoPhraseUnderCursor                      (* "No valid phrase found under cursor." *)
| Linked (linkText : string) (startCh endCh : nat) (linkedTo : IndexEntry)
| NoMatchingNote.                          (* "No matching note found for this phrase." *)

Record Timer := mkTimer {
  timerId : nat;
  fireAt : nat;          (* in ms *)
  timerFile : TFile
}.

(** The plugin's fields that the timer touches, the host's pending timers
    and clock, and the log of the re-index callbacks that have run. *)
Record PluginState := mkPluginState {
  pluginIndex : Index;
  debounceTimeout : option nat;
  pendingTimers : list Timer;
  nextTimerId : nat;
  clock : nat;
  reindexed : list string
}.

Inductive HostEvent :=
| MetadataChanged (file : TFile)
| TimePasses (ms : nat).

Section Host.

Variable wordRegexMatches : string -> list RegExpMatch.
Variable getFileCache : TFile -> option CachedMetadata.

(** [AutoLinkerSuggest.onTrigger] on the cursor's line. *)
Definition onTrigger (triggerKey : string) (index : Index) (line : string) (cursorCh : nat)
  : option EditorSuggestTriggerInfo :=
  if isEmpty line then None else
  if negb (isEmpty triggerKey)
     && negb (String.eqb
                (jsSubstring (cursorCh - String.length triggerKey) cursorCh line)
                triggerKey)
  then None else
  let s := scanSentenceSuggest line cursorCh in
  let sentenceOffset := sentenceStart s in
  let wordsWithIndices := tokensOfMatches (wordRegexMatches (sentence s)) in
  match locateCursorWord wordsWithIndices (cursorInSentenceOf cursorCh sentenceOffset) with
  | None => None
  | Some cursorWordIdx =>
      firstSome
        (fun sp =>
           match phraseAt (sentence s) wordsWithIndices sp with
           | Some (phraseStart, phraseEnd, phrase) =>
               if 0 <? List.length (getSuggestions index phrase)
               then Some {| triggerStartCh := sentenceOffset + phraseStart;
                            triggerEndCh := sentenceOffset + phraseEnd;
                            triggerQuery := phrase |}
               else None
           | None => None
           end)
        (enumeratePhrases (List.length wordsWithIndices) cursorWordIdx)
  end.

(** [scanForPhrase(line, cursorCh)]: the same sentence parsing, tokens and
    cursor resolution as [onTrigger]; both of its exits return [null]. *)
Definition scanForPhrase (line : string) (cursorCh : nat) : option (string * nat * nat) :=
  let s := scanSentenceSuggest line cursorCh in
  let sentenceOffset := sentenceStart s in
  let wordsWithIndices := tokensOfMatches (wordRegexMatches (sentence s)) in
  match locateCursorWord wordsWithIndices (cursorInSentenceOf cursorCh sentenceOffset) with
  | None => None
  | Some cursorWordIdx => None
  end.

(** [runQuickLink] on the cursor's line. *)
Definition runQuickLink (index : Index) (line : string) (cursorCh : nat) : QuickLinkResult :=
  let s := scanSentenceQuickLink line cursorCh in
  let sentenceOffset := sentenceStart s in
  let wordsWithIndices := tokensOfMatches (wordRegexMatches (sentence s)) in
  match locateCursorWord wordsWithIndices (cursorInSentenceOf cursorCh sentenceOffset) with
  | None => NoPhraseUnderCursor
  | Some cursorWordIdx =>
      match
        firstSome
          (fun sp =>
             match phraseAt (sentence s) wordsWithIndices sp with
             | Some (phraseStart, phraseEnd, phrase) =>
                 match
                   find (fun sg => String.eqb (toLowerCase (displayText sg)) (toLowerCase phrase))
                     (getSuggestions index phrase)
                 with
                 | Some bestMatch =>
                     Some (Linked (quickLinkText bestMatch phrase)
                             (sentenceOffset + phraseStart) (sentenceOffset + phraseEnd)
                             bestMatch)
                 | None => None
                 end
             | None => None
             end)
          (enumeratePhrases (List.length wordsWithIndices) cursorWordIdx)
      with
      | Some r => r
      | None => NoMatchingNote
      end
  end.

(** [clearTimeout(id)]: a timer that has fired or was cleared is gone
    already, and clearing it does nothing. *)
Definition clearTimeout (id : nat) (timers : list Timer) : list Timer :=
  filter (fun t => negb (timerId t =? id)) timers.

(** [debouncedIndexUpdate(file)]: one handle, [this.debounceTimeout], for
    every file; the delay is 300 ms. *)
Definition debouncedIndexUpdate (file : TFile) (st : PluginState) : PluginState :=
  let timers :=
    match debounceTimeout st with
    | Some id => clearTimeout id (pendingTimers st)
    | None => pendingTimers st
    end in
  let id := nextTimerId st in
  {| pluginIndex := pluginIndex st;
     debounceTimeout := Some id;
     pendingTimers := timers ++ [mkTimer id (clock st + 300) file];
     nextTimerId := S id;
     clock := clock st;
     reindexed := reindexed st |}.

(** The timer's callback: [this.deleteFromIndex(file); this.indexFile(file);] *)
Definition reindexCallback (file : TFile) (st : PluginState) : PluginState :=
  {| pluginIndex := indexFile (getFileCache file) file (deleteFromIndex file (pluginIndex st));
     debounceTimeout := debounceTimeout st;
     pendingTimers := pendingTimers st;
     nextTimerId := nextTimerId st;
     clock := clock st;
     reindexed := reindexed st ++ [path file] |}.

(** The host lets [ms] milliseconds pass and runs the timers that are due,
    oldest first (all timers have the same delay). *)
Definition timePasses (ms : nat) (st : PluginState) : PluginState :=
  let now := clock st + ms in
  let due := filter (fun t => fireAt t <=? now) (pendingTimers st) in
  let rest := filter (fun t => negb (fireAt t <=? now)) (pendingTimers st) in
  fold_left (fun s t => reindexCallback (timerFile t) s) due
    {| pluginIndex := pluginIndex st;
       debounceTimeout := debounceTimeout st;
       pendingTimers := rest;
       nextTimerId := nextTimerId st;
       clock := now;
       reindexed := reindexed st |}.

Definition step (st : PluginState) (ev : HostEvent) : PluginState :=
  match ev with
  | MetadataChanged file => debouncedIndexUpdate file st
  | TimePasses ms => timePasses ms st
  end.

Definition run (st : PluginState) (evs : list HostEvent) : PluginState :=
  fold_left step evs st.

End Host.

Definition initialState (index : Index) : PluginState :=
  {| pluginIndex := index; debounceTimeout := None; pendingTimers := [];
     nextTimerId := 1; clock := 0; reindexed := [] |}.

(** How often the re-index callback has run for a document. *)
Definition reindexCount (p : string) (st : PluginState) : nat :=
  count_occ string_dec (reindexed st) p.

(* ------------------------------------------------------------------------- *)
(** ** Notions of the specification *)

(** What [normalizeText] makes of a single character. *)
Definition normalizeChar (c : ascii) : string :=
  normalizeText (String c EmptyString).

(** [q] is an ordered, not necessarily contiguous, subsequence of [l]. *)
Inductive Subsequence : list ascii -> list ascii -> Prop :=
| Subsequence_nil (l : list ascii) : Subsequence [] l
| Subsequence_take (c : ascii) (q l : list ascii) :
    Subsequence q l -> Subsequence (c :: q) (c :: l)
| Subsequence_skip (c : ascii) (q l : list ascii) :
    Subsequence q l -> Subsequence q (c :: l).

Definition isSubsequenceOf (q key : string) : Prop :=
  Subsequence (list_ascii_of_string q) (list_ascii_of_string key).

(** Deduplication by the triple that keeps the first occurrence: [seen] are
    the entries kept so far. *)
Fixpoint keepFirstOccurrence (seen l : list IndexEntry) : list IndexEntry :=
  match l with
  | [] => []
  | e :: l' =>
      if existsb (sameTriple e) seen then keepFirstOccurrence seen l'
      else e :: keepFirstOccurrence (e :: seen) l'
  end.

(** An entry is prefix-matched when its triple is that of an entry under a
    key that starts with the normalized query; a returned entry that is not
    is fuzzy-only. *)
Definition prefixMatched (index : Index) (normalizedQuery : string) (e : IndexEntry) : Prop :=
  exists key entries e0,
    In (key, entries) index /\ startsWith key normalizedQuery = true
    /\ In e0 entries /\ triple e0 = triple e.

(** The bucket under a key; no bucket is the empty one. *)
Definition bucketOf (key : string) (index : Index) : list IndexEntry :=
  match JsMap.get key index with
  | Some es => es
  | None => []
  end.

(** No two entries of a bucket share [(type, notePath, target)]. *)
Definition bucketsUnique (index : Index) : Prop :=
  forall key bucket, In (key, bucket) index -> NoDup (map triple bucket).

(** A sequence of [addToIndex] calls. *)
Definition insertAll (insertions : list (string * IndexEntry)) (index : Index) : Index :=
  fold_left (fun idx '(key, entry) => addToIndex key entry idx) insertions index.

(** The entries of a bucket that do not belong to the file. *)
Definition entriesOfOthers (file : TFile) (bucket : list IndexEntry) : list IndexEntry :=
  filter (fun entry => negb (String.eqb (notePath entry) (path file))) bucket.

Definition noEmptyBuckets (index : Index) : Prop :=
  forall key bucket, JsMap.get key index = Some bucket -> bucket <> [].

(** What the loop of [deleteFromIndex] leaves of one binding. *)
Definition remainingBinding (file : TFile) (kv : string * list IndexEntry)
  : list (string * list IndexEntry) :=
  match entriesOfOthers file (snd kv) with
  | [] => []
  | es => [(fst kv, es)]
  end.

(** What the loop of [renameInIndex] makes of one binding. *)
Definition renamedBinding (file : TFile) (oldPath : string) (kv : string * list IndexEntry)
  : string * list IndexEntry :=
  (fst kv, map (renameEntry file oldPath) (snd kv)).

(** The property claimed of a rename for the entries of the renamed file:
    the title is the new one, and a title entry's target and display text
    are the new title. *)
Definition renamedEntriesReflectTitle (file : TFile) (index : Index) : Prop :=
  forall key bucket entry,
    In (key, bucket) index -> In entry bucket -> notePath entry = path file ->
    noteTitle entry = basename file
    /\ (type entry = title ->
        target entry = basename file /\ displayText entry = basename file).

(** Example data. *)
Definition oldNote : TFile := mkTFile "Old.md" "Old" "md".
Definition newNote : TFile := mkTFile "New.md" "New" "md".
Definition noteA : TFile := mkTFile "A.md" "A" "md".
Definition noteB : TFile := mkTFile "B.md" "B" "md".
Definition parisNote : TFile := mkTFile "Paris.md" "Paris" "md".

Definition travelTag : IndexEntry := tagEntry parisNote "travel".

Definition parisTitle : IndexEntry := titleEntry parisNote.

Definition noMetadata : TFile -> option CachedMetadata := fun _ => None.

(** Two documents change 100 ms apart, then the window passes. *)
Definition twoDocumentsInWindow : list HostEvent :=
  [MetadataChanged noteA; TimePasses 100; MetadataChanged noteB; TimePasses 300].

(** One document changes twice 100 ms apart, then the window passes. *)
Definition oneDocumentTwice : list HostEvent :=
  [MetadataChanged noteA; TimePasses 100; MetadataChanged noteA; TimePasses 300].

Definition terminatorAt (line : string) (i : nat) : Prop :=
  testAt isTerminator line i = true.

Definition whitespaceAt (line : string) (i : nat) : Prop :=
  testAt isWhitespace line i = true.

(** [a] is one past the nearest terminator strictly left of the cursor, or
    the line start if there is none; [b] is the nearest terminator at or
    right of the cursor, or the line end if there is none. *)
Definition betweenTerminators (line : string) (cursorCh a b : nat) : Prop :=
  ((a = 0 /\ forall i, i < cursorCh -> ~ terminatorAt line i)
   \/ (0 < a <= cursorCh /\ terminatorAt line (a - 1)
       /\ forall i, a <= i < cursorCh -> ~ terminatorAt line i))
  /\ ((b = String.length line
       /\ forall i, cursorCh <= i < String.length line -> ~ terminatorAt line i)
      \/ (cursorCh <= b < String.length line /\ terminatorAt line b
          /\ forall i, cursorCh <= i < b -> ~ terminatorAt line i)).

(** [[a', b')] is [[a, b)] without its leading and trailing white space. *)
Definition trimmedSpan (line : string) (a b a' b' : nat) : Prop :=
  a <= a' /\ a' <= b' /\ b' <= b
  /\ (forall i, a <= i < a' -> whitespaceAt line i)
  /\ (forall i, b' <= i < b -> whitespaceAt line i)
  /\ (a' < b' -> ~ whitespaceAt line a' /\ ~ whitespaceAt line (b' - 1)).

(** The sentence scan of the specification. *)
Definition sentenceSpec (line : string) (cursorCh : nat) (s : SentenceSpan) : Prop :=
  exists a b,
    betweenTerminators line cursorCh a b
    /\ trimmedSpan line a b (sentenceStart s) (sentenceEnd s)
    /\ sentence s = substring (sentenceStart s) (sentenceEnd s - sentenceStart s) line.

(** At most one timer is pending, and it is the one the handle names. *)
Definition singlePending (st : PluginState) : Prop :=
  pendingTimers st = []
  \/ exists t, pendingTimers st = [t] /\ debounceTimeout st = Some (timerId t).

(** The index of the specification's examples: "Paris" with the tag
    "travel", and "Prague". *)
Definition travelIndex : Index :=
  indexFile None (mkTFile "Prague.md" "Prague" "md")
    (indexFile (Some (mkCachedMetadata (Some (TagsArray ["travel"])) None None))
       parisNote emptyIndex).

(** The matches of the word pattern on "I visited Paris". *)
Definition visitedParisMatches (sentenceText : string) : list RegExpMatch :=
  [mkRegExpMatch "I" 0; mkRegExpMatch "visited" 2; mkRegExpMatch "Paris" 10].

From Stdlib Require Import Permutation.

(* ------------------------------------------------------------------------- *)
(** ** Further notions: the matcher *)

(** The fuzzy pass restricted to the keys that the prefix pass skipped. *)
Definition fuzzyMatchesOfOtherKeys (normalizedQuery : string) (index : Index)
  : list IndexEntry :=
  flat_map
    (fun '(key, entries) =>
       if negb (startsWith key normalizedQuery) && fuzzyMatch normalizedQuery key
       then map (withScore (1 # 2)) entries else [])
    index.

(* ------------------------------------------------------------------------- *)
(** ** Further notions: the index *)

(** Every key is one the normalizer produces. *)
Definition keysNormalized (index : Index) : Prop :=
  forall k, In k (JsMap.keys index) -> normalizeText k = k.

(** No binding holds an empty bucket. *)
Definition bucketsNonEmpty (index : Index) : Prop :=
  forall key bucket, In (key, bucket) index -> bucket <> [].

(** No entry of the index belongs to the path. *)
Definition pathAbsent (p : string) (index : Index) : Prop :=
  forall key bucket e, In (key, bucket) index -> In e bucket -> notePath e <> p.

(** The timer's re-index of a file, on the index alone. *)
Definition reindexFile (metadata : option CachedMetadata) (file : TFile) (index : Index)
  : Index :=
  indexFile metadata file (deleteFromIndex file index).

(** The entries that [indexFile] inserts for a file, with the text each is
    keyed by, in the order of insertion. *)
Definition entriesOfFile (metadata : option CachedMetadata) (file : TFile)
  : list (string * IndexEntry) :=
  (basename file, titleEntry file)
  :: match metadata with
     | None => []
     | Some m =>
         map (fun t => (trim t, tagEntry file (trim t))) (tagList m)
         ++ map (fun h => (h, headingEntry file h))
              (match headings m with Some hs => hs | None => [] end)
         ++ flat_map
              (fun sid =>
                 match sid with
                 | Some id => if isEmpty id then [] else [(id, blockEntry file id)]
                 | None => []
                 end)
              (match sections m with Some ss => ss | None => [] end)
     end.

(* ------------------------------------------------------------------------- *)
(** ** Further notions: the flows *)

(** Successive matches of a global regular expression do not overlap: each
    starts at or after the end of the one before. *)
Definition matchesInOrder (ms : list RegExpMatch) : Prop :=
  StronglySorted
    (fun m1 m2 => matchIndex m1 + String.length (matchText m1) <= matchIndex m2) ms.

(** The candidate phrases of a scan, [(phraseStart, phraseEnd, phrase)], in
    the order in which the two loops reach them; none when the cursor
    touches no word. *)
Definition candidatePhrases (s : SentenceSpan) (wordsWithIndices : list Token)
  (cursorCh : nat) : list (nat * nat * string) :=
  match locateCursorWord wordsWithIndices (cursorInSentenceOf cursorCh (sentenceStart s)) with
  | None => []
  | Some cursorWordIdx =>
      flat_map
        (fun sp =>
           match phraseAt (sentence s) wordsWithIndices sp with
           | Some p => [p]
           | None => []
           end)
        (enumeratePhrases (List.length wordsWithIndices) cursorWordIdx)
  end.

(** The trigger key lets the scan run: it is empty, or it is the text just
    before the cursor. *)
Definition triggerPasses (triggerKey line : string) (cursorCh : nat) : Prop :=
  triggerKey = ""
  \/ jsSubstring (cursorCh - String.length triggerKey) cursorCh line = triggerKey.

(** The exact match of [runQuickLink]: the first suggestion for the phrase
    whose display text is the phrase, up to case. *)
Definition exactMatch (index : Index) (phrase : string) : option IndexEntry :=
  find (fun sg => String.eqb (toLowerCase (displayText sg)) (toLowerCase phrase))
    (getSuggestions index phrase).


(* ------------------------------------------------------------------------- *)
(** ** Further notions: events *)







(* ------------------------------------------------------------------------- *)
(** ** The normalizer on UTF-16 text

    [normalizeText] above reads a string as code units U+0000 to U+00FF.
    A JavaScript string is a sequence of 16-bit code units, and the four
    steps of the normalizer do not read it alike: [normalize('NFD')],
    [toLowerCase()] and the replacement under the flag [u] work on the code
    points of the string, where a high surrogate followed by a low
    surrogate is one code point and any other surrogate is a code point of
    its own; the replacement of [[\u0300-\u036f]] has no flag [u] and works
    on the code units.  Here a string is the list of its code units, and
    the Unicode Character Database, which is not part of the plugin, is a
    parameter. *)

Module Utf16.

Definition isHighSurrogate (u : N) : bool := between 0xD800 0xDBFF u.
Definition isLowSurrogate (u : N) : bool := between 0xDC00 0xDFFF u.
Definition isSurrogate (c : N) : bool := between 0xD800 0xDFFF c.

(** A scalar value: a code point that is not a surrogate. *)
Definition isScalar (c : N) : bool := (c <? 0x110000)%N && negb (isSurrogate c).

Definition surrogatePair (lead trail : N) : N :=
  (0x10000 + (lead - 0xD800) * 0x400 + (trail - 0xDC00))%N.

(** The code points of a string (StringToCodePoints). *)
Fixpoint decode (units : list N) : list N :=
  match units with
  | [] => []
  | u :: rest =>
      match rest with
      | trail :: rest' =>
          if isHighSurrogate u && isLowSurrogate trail
          then surrogatePair u trail :: decode rest'
          else u :: decode rest
      | [] => [u]
      end
  end.

(** The code units of a code point (UTF16EncodeCodePoint). *)
Definition encodeCodePoint (c : N) : list N :=
  if (c <? 0x10000)%N then [c]
  else [(0xD800 + (c - 0x10000) / 0x400)%N; (0xDC00 + (c - 0x10000) mod 0x400)%N].

Definition encode (cps : list N) : list N := flat_map encodeCodePoint cps.

(** A string without unpaired surrogate. *)
Definition wellFormed (text : list N) : bool := forallb isScalar (decode text).

(** The properties of code points that the normalizer reads:
    - [decomposition c]: the full canonical decomposition of [c] (the
      mapping of UnicodeData.txt applied until nothing decomposes, and the
      arithmetic one of Hangul syllables), [[c]] when [c] has none;
    - [combiningClass c]: Canonical_Combining_Class;
    - [lowercase c]: the lowercase mapping of [c] that has no condition
      (SpecialCasing.txt, else UnicodeData.txt), [[c]] when [c] has none;
    - [cased c], [caseIgnorable c]: the properties Cased and Case_Ignorable;
    - [letterOrNumber c]: General_Category is one of L* and N*. *)
Record UnicodeData := mkUnicodeData {
  decomposition : N -> list N;
  combiningClass : N -> N;
  lowercase : N -> list N;
  cased : N -> bool;
  caseIgnorable : N -> bool;
  letterOrNumber : N -> bool
}.

Definition capitalSigma : N := 0x3A3.
Definition smallSigma : N := 0x3C3.
Definition smallFinalSigma : N := 0x3C2.

Section Normalizer.

Variable ucd : UnicodeData.

(** *** [normalize('NFD')] *)

Definition decompose (cps : list N) : list N := flat_map (decomposition ucd) cps.

(** Canonical ordering: a code point of class above zero moves in front of
    the code points before it that have a greater class.  [before] is the
    ordered text so far, nearest code point first. *)
Fixpoint insertMark (c : N) (before : list N) : list N :=
  match before with
  | [] => [c]
  | p :: before' =>
      if ((0 <? combiningClass ucd c) && (combiningClass ucd c <? combiningClass ucd p))%N
      then p :: insertMark c before'
      else c :: before
  end.

Definition canonicalOrder (cps : list N) : list N :=
  rev (fold_left (fun before c => insertMark c before) cps []).

Definition nfd (cps : list N) : list N := canonicalOrder (decompose cps).

Definition normalizeNFD (text : list N) : list N := encode (nfd (decode text)).

(** *** [.replace(/[\u0300-\u036f]/g, '')], on code units *)

Definition stripCombining (text : list N) : list N :=
  filter (fun u => negb (isCombiningDiacritical u)) text.

(** *** [toLowerCase()] *)

(** The first code point that is not case-ignorable is cased. *)
Fixpoint nextIsCased (cps : list N) : bool :=
  match cps with
  | [] => false
  | c :: cps' => if caseIgnorable ucd c then nextIsCased cps' else cased ucd c
  end.

(** The condition Final_Sigma for a capital sigma between [before] (nearest
    code point first) and [after]. *)
Definition finalSigma (before after : list N) : bool :=
  nextIsCased before && negb (nextIsCased after).

Definition lowerAt (before : list N) (c : N) (after : list N) : list N :=
  if (c =? capitalSigma)%N
  then (if finalSigma before after then [smallFinalSigma] else [smallSigma])
  else lowercase ucd c.

Fixpoint lowerFrom (before cps : list N) : list N :=
  match cps with
  | [] => []
  | c :: after => lowerAt before c after ++ lowerFrom (c :: before) after
  end.

Definition toLowerCase (text : list N) : list N := encode (lowerFrom [] (decode text)).

(** *** [.replace(/[^\p{L}\p{N}]/gu, '')], on code points *)

Definition keepLettersAndNumbers (text : list N) : list N :=
  encode (filter (letterOrNumber ucd) (decode text)).

(** *** [normalizeText] *)

Definition normalizeText (text : list N) : list N :=
  keepLettersAndNumbers (toLowerCase (stripCombining (normalizeNFD text))).

(** The same steps on a list of code points. *)
Definition normalizeCodePoints (cps : list N) : list N :=
  filter (letterOrNumber ucd)
    (lowerFrom [] (filter (fun c => negb (isCombiningDiacritical c)) (nfd cps))).

(** What [toLowerCase] can put in the place of a code point. *)
Definition lowered (c : N) : list N :=
  if (c =? capitalSigma)%N then [smallSigma; smallFinalSigma] else lowercase ucd c.

(** A code point that the steps of the normalizer leave alone. *)
Definition settled (c : N) : Prop :=
  letterOrNumber ucd c = true /\ isCombiningDiacritical c = false
  /\ decomposition ucd c = [c] /\ combiningClass ucd c = 0%N
  /\ lowercase ucd c = [c] /\ c <> capitalSigma /\ isScalar c = true.

(** Facts of the database that the properties below rest on:
    - no combining diacritical mark is a letter or a number;
    - a letter or a number has combining class zero;
    - a letter or a number that lowercasing gives for a code point of a
      canonical decomposition has itself no decomposition and no lowercase
      mapping, and is not the capital sigma;
    - decompositions and lowercase mappings of scalar values are scalar
      values. *)
Record coherent : Prop := mkCoherent {
  marks_not_letters :
    forall c, isCombiningDiacritical c = true -> letterOrNumber ucd c = false;
  letters_are_starters :
    forall c, letterOrNumber ucd c = true -> combiningClass ucd c = 0%N;
  lowered_letters_settled :
    forall y x d,
      In x (decomposition ucd y) -> isCombiningDiacritical x = false ->
      In d (lowered x) -> letterOrNumber ucd d = true ->
      decomposition ucd d = [d] /\ lowercase ucd d = [d] /\ d <> capitalSigma;
  decomposition_scalar :
    forall y x, isScalar y = true -> In x (decomposition ucd y) -> isScalar x = true;
  lowercase_scalar :
    forall y x, isScalar y = true -> In x (lowercase ucd y) -> isScalar x = true
}.

(** What is neither letter nor number stays so through decomposition and
    lowercasing. *)
Definition othersStayOthers : Prop :=
  forall y x d,
    letterOrNumber ucd y = false ->
    In x (decomposition ucd y) -> isCombiningDiacritical x = false ->
    In d (lowered x) -> letterOrNumber ucd d = false.

End Normalizer.

(** *** The database on some blocks

    The rows of the Unicode Character Database for Basic Latin, Latin-1
    Supplement, Latin Extended-A, Combining Diacritical Marks, Greek and
    Coptic, and for U+02B9, U+11099, U+1109A and U+110BA.  A code point
    without a row has the values of an unassigned one. *)

Definition decompositionTable : list (N * list N) :=
  [
    (0xC0, [0x41; 0x300]); (0xC1, [0x41; 0x301]); (0xC2, [0x41; 0x302]);
    (0xC3, [0x41; 0x303]); (0xC4, [0x41; 0x308]); (0xC5, [0x41; 0x30A]);
    (0xC7, [0x43; 0x327]); (0xC8, [0x45; 0x300]); (0xC9, [0x45; 0x301]);
    (0xCA, [0x45; 0x302]); (0xCB, [0x45; 0x308]); (0xCC, [0x49; 0x300]);
    (0xCD, [0x49; 0x301]); (0xCE, [0x49; 0x302]); (0xCF, [0x49; 0x308]);
    (0xD1, [0x4E; 0x303]); (0xD2, [0x4F; 0x300]); (0xD3, [0x4F; 0x301]);
    (0xD4, [0x4F; 0x302]); (0xD5, [0x4F; 0x303]); (0xD6, [0x4F; 0x308]);
    (0xD9, [0x55; 0x300]); (0xDA, [0x55; 0x301]); (0xDB, [0x55; 0x302]);
    (0xDC, [0x55; 0x308]); (0xDD, [0x59; 0x301]); (0xE0, [0x61; 0x300]);
    (0xE1, [0x61; 0x301]); (0xE2, [0x61; 0x302]); (0xE3, [0x61; 0x303]);
    (0xE4, [0x61; 0x308]); (0xE5, [0x61; 0x30A]); (0xE7, [0x63; 0x327]);
    (0xE8, [0x65; 0x300]); (0xE9, [0x65; 0x301]); (0xEA, [0x65; 0x302]);
    (0xEB, [0x65; 0x308]); (0xEC, [0x69; 0x300]); (0xED, [0x69; 0x301]);
    (0xEE, [0x69; 0x302]); (0xEF, [0x69; 0x308]); (0xF1, [0x6E; 0x303]);
    (0xF2, [0x6F; 0x300]); (0xF3, [0x6F; 0x301]); (0xF4, [0x6F; 0x302]);
    (0xF5, [0x6F; 0x303]); (0xF6, [0x6F; 0x308]); (0xF9, [0x75; 0x300]);
    (0xFA, [0x75; 0x301]); (0xFB, [0x75; 0x302]); (0xFC, [0x75; 0x308]);
    (0xFD, [0x79; 0x301]); (0xFF, [0x79; 0x308]); (0x100, [0x41; 0x304]);
    (0x101, [0x61; 0x304]); (0x102, [0x41; 0x306]); (0x103, [0x61; 0x306]);
    (0x104, [0x41; 0x328]); (0x105, [0x61; 0x328]); (0x106, [0x43; 0x301]);
    (0x107, [0x63; 0x301]); (0x108, [0x43; 0x302]); (0x109, [0x63; 0x302]);
    (0x10A, [0x43; 0x307]); (0x10B, [0x63; 0x307]); (0x10C, [0x43; 0x30C]);
    (0x10D, [0x63; 0x30C]); (0x10E, [0x44; 0x30C]); (0x10F, [0x64; 0x30C]);
    (0x112, [0x45; 0x304]); (0x113, [0x65; 0x304]); (0x114, [0x45; 0x306]);
    (0x115, [0x65; 0x306]); (0x116, [0x45; 0x307]); (0x117, [0x65; 0x307]);
    (0x118, [0x45; 0x328]); (0x119, [0x65; 0x328]); (0x11A, [0x45; 0x30C]);
    (0x11B, [0x65; 0x30C]); (0x11C, [0x47; 0x302]); (0x11D, [0x67; 0x302]);
    (0x11E, [0x47; 0x306]); (0x11F, [0x67; 0x306]); (0x120, [0x47; 0x307]);
    (0x121, [0x67; 0x307]); (0x122, [0x47; 0x327]); (0x123, [0x67; 0x327]);
    (0x124, [0x48; 0x302]); (0x125, [0x68; 0x302]); (0x128, [0x49; 0x303]);
    (0x129, [0x69; 0x303]); (0x12A, [0x49; 0x304]); (0x12B, [0x69; 0x304]);
    (0x12C, [0x49; 0x306]); (0x12D, [0x69; 0x306]); (0x12E, [0x49; 0x328]);
    (0x12F, [0x69; 0x328]); (0x130, [0x49; 0x307]); (0x134, [0x4A; 0x302]);
    (0x135, [0x6A; 0x302]); (0x136, [0x4B; 0x327]); (0x137, [0x6B; 0x327]);
    (0x139, [0x4C; 0x301]); (0x13A, [0x6C; 0x301]); (0x13B, [0x4C; 0x327]);
    (0x13C, [0x6C; 0x327]); (0x13D, [0x4C; 0x30C]); (0x13E, [0x6C; 0x30C]);
    (0x143, [0x4E; 0x301]); (0x144, [0x6E; 0x301]); (0x145, [0x4E; 0x327]);
    (0x146, [0x6E; 0x327]); (0x147, [0x4E; 0x30C]); (0x148, [0x6E; 0x30C]);
    (0x14C, [0x4F; 0x304]); (0x14D, [0x6F; 0x304]); (0x14E, [0x4F; 0x306]);
    (0x14F, [0x6F; 0x306]); (0x150, [0x4F; 0x30B]); (0x151, [0x6F; 0x30B]);
    (0x154, [0x52; 0x301]); (0x155, [0x72; 0x301]); (0x156, [0x52; 0x327]);
    (0x157, [0x72; 0x327]); (0x158, [0x52; 0x30C]); (0x159, [0x72; 0x30C]);
    (0x15A, [0x53; 0x301]); (0x15B, [0x73; 0x301]); (0x15C, [0x53; 0x302]);
    (0x15D, [0x73; 0x302]); (0x15E, [0x53; 0x327]); (0x15F, [0x73; 0x327]);
    (0x160, [0x53; 0x30C]); (0x161, [0x73; 0x30C]); (0x162, [0x54; 0x327]);
    (0x163, [0x74; 0x327]); (0x164, [0x54; 0x30C]); (0x165, [0x74; 0x30C]);
    (0x168, [0x55; 0x303]); (0x169, [0x75; 0x303]); (0x16A, [0x55; 0x304]);
    (0x16B, [0x75; 0x304]); (0x16C, [0x55; 0x306]); (0x16D, [0x75; 0x306]);
    (0x16E, [0x55; 0x30A]); (0x16F, [0x75; 0x30A]); (0x170, [0x55; 0x30B]);
    (0x171, [0x75; 0x30B]); (0x172, [0x55; 0x328]); (0x173, [0x75; 0x328]);
    (0x174, [0x57; 0x302]); (0x175, [0x77; 0x302]); (0x176, [0x59; 0x302]);
    (0x177, [0x79; 0x302]); (0x178, [0x59; 0x308]); (0x179, [0x5A; 0x301]);
    (0x17A, [0x7A; 0x301]); (0x17B, [0x5A; 0x307]); (0x17C, [0x7A; 0x307]);
    (0x17D, [0x5A; 0x30C]); (0x17E, [0x7A; 0x30C]); (0x340, [0x300]);
    (0x341, [0x301]); (0x343, [0x313]); (0x344, [0x308; 0x301]);
    (0x374, [0x2B9]); (0x37E, [0x3B]); (0x385, [0xA8; 0x301]);
    (0x386, [0x391; 0x301]); (0x387, [0xB7]); (0x388, [0x395; 0x301]);
    (0x389, [0x397; 0x301]); (0x38A, [0x399; 0x301]); (0x38C, [0x39F; 0x301]);
    (0x38E, [0x3A5; 0x301]); (0x38F, [0x3A9; 0x301]); (0x390, [0x3B9; 0x308; 0x301]);
    (0x3AA, [0x399; 0x308]); (0x3AB, [0x3A5; 0x308]); (0x3AC, [0x3B1; 0x301]);
    (0x3AD, [0x3B5; 0x301]); (0x3AE, [0x3B7; 0x301]); (0x3AF, [0x3B9; 0x301]);
    (0x3B0, [0x3C5; 0x308; 0x301]); (0x3CA, [0x3B9; 0x308]); (0x3CB, [0x3C5; 0x308]);
    (0x3CC, [0x3BF; 0x301]); (0x3CD, [0x3C5; 0x301]); (0x3CE, [0x3C9; 0x301]);
    (0x3D3, [0x3D2; 0x301]); (0x3D4, [0x3D2; 0x308]); (0x1109A, [0x11099; 0x110BA]) ]%N.

Definition combiningClassTable : list (N * N) :=
  [
    (0x300, 230); (0x301, 230); (0x302, 230); (0x303, 230); (0x304, 230); (0x305, 230);
    (0x306, 230); (0x307, 230); (0x308, 230); (0x309, 230); (0x30A, 230); (0x30B, 230);
    (0x30C, 230); (0x30D, 230); (0x30E, 230); (0x30F, 230); (0x310, 230); (0x311, 230);
    (0x312, 230); (0x313, 230); (0x314, 230); (0x315, 232); (0x316, 220); (0x317, 220);
    (0x318, 220); (0x319, 220); (0x31A, 232); (0x31B, 216); (0x31C, 220); (0x31D, 220);
    (0x31E, 220); (0x31F, 220); (0x320, 220); (0x321, 202); (0x322, 202); (0x323, 220);
    (0x324, 220); (0x325, 220); (0x326, 220); (0x327, 202); (0x328, 202); (0x329, 220);
    (0x32A, 220); (0x32B, 220); (0x32C, 220); (0x32D, 220); (0x32E, 220); (0x32F, 220);
    (0x330, 220); (0x331, 220); (0x332, 220); (0x333, 220); (0x334, 1); (0x335, 1);
    (0x336, 1); (0x337, 1); (0x338, 1); (0x339, 220); (0x33A, 220); (0x33B, 220);
    (0x33C, 220); (0x33D, 230); (0x33E, 230); (0x33F, 230); (0x340, 230); (0x341, 230);
    (0x342, 230); (0x343, 230); (0x344, 230); (0x345, 240); (0x346, 230); (0x347, 220);
    (0x348, 220); (0x349, 220); (0x34A, 230); (0x34B, 230); (0x34C, 230); (0x34D, 220);
    (0x34E, 220); (0x350, 230); (0x351, 230); (0x352, 230); (0x353, 220); (0x354, 220);
    (0x355, 220); (0x356, 220); (0x357, 230); (0x358, 232); (0x359, 220); (0x35A, 220);
    (0x35B, 230); (0x35C, 233); (0x35D, 234); (0x35E, 234); (0x35F, 233); (0x360, 234);
    (0x361, 234); (0x362, 233); (0x363, 230); (0x364, 230); (0x365, 230); (0x366, 230);
    (0x367, 230); (0x368, 230); (0x369, 230); (0x36A, 230); (0x36B, 230); (0x36C, 230);
    (0x36D, 230); (0x36E, 230); (0x36F, 230); (0x110BA, 7) ]%N.

Definition lowercaseTable : list (N * list N) :=
  [
    (0x41, [0x61]); (0x42, [0x62]); (0x43, [0x63]); (0x44, [0x64]);
    (0x45, [0x65]); (0x46, [0x66]); (0x47, [0x67]); (0x48, [0x68]);
    (0x49, [0x69]); (0x4A, [0x6A]); (0x4B, [0x6B]); (0x4C, [0x6C]);
    (0x4D, [0x6D]); (0x4E, [0x6E]); (0x4F, [0x6F]); (0x50, [0x70]);
    (0x51, [0x71]); (0x52, [0x72]); (0x53, [0x73]); (0x54, [0x74]);
    (0x55, [0x75]); (0x56, [0x76]); (0x57, [0x77]); (0x58, [0x78]);
    (0x59, [0x79]); (0x5A, [0x7A]); (0xC0, [0xE0]); (0xC1, [0xE1]);
    (0xC2, [0xE2]); (0xC3, [0xE3]); (0xC4, [0xE4]); (0xC5, [0xE5]);
    (0xC6, [0xE6]); (0xC7, [0xE7]); (0xC8, [0xE8]); (0xC9, [0xE9]);
    (0xCA, [0xEA]); (0xCB, [0xEB]); (0xCC, [0xEC]); (0xCD, [0xED]);
    (0xCE, [0xEE]); (0xCF, [0xEF]); (0xD0, [0xF0]); (0xD1, [0xF1]);
    (0xD2, [0xF2]); (0xD3, [0xF3]); (0xD4, [0xF4]); (0xD5, [0xF5]);
    (0xD6, [0xF6]); (0xD8, [0xF8]); (0xD9, [0xF9]); (0xDA, [0xFA]);
    (0xDB, [0xFB]); (0xDC, [0xFC]); (0xDD, [0xFD]); (0xDE, [0xFE]);
    (0x100, [0x101]); (0x102, [0x103]); (0x104, [0x105]); (0x106, [0x107]);
    (0x108, [0x109]); (0x10A, [0x10B]); (0x10C, [0x10D]); (0x10E, [0x10F]);
    (0x110, [0x111]); (0x112, [0x113]); (0x114, [0x115]); (0x116, [0x117]);
    (0x118, [0x119]); (0x11A, [0x11B]); (0x11C, [0x11D]); (0x11E, [0x11F]);
    (0x120, [0x121]); (0x122, [0x123]); (0x124, [0x125]); (0x126, [0x127]);
    (0x128, [0x129]); (0x12A, [0x12B]); (0x12C, [0x12D]); (0x12E, [0x12F]);
    (0x130, [0x69; 0x307]); (0x132, [0x133]); (0x134, [0x135]); (0x136, [0x137]);
    (0x139, [0x13A]); (0x13B, [0x13C]); (0x13D, [0x13E]); (0x13F, [0x140]);
    (0x141, [0x142]); (0x143, [0x144]); (0x145, [0x146]); (0x147, [0x148]);
    (0x14A, [0x14B]); (0x14C, [0x14D]); (0x14E, [0x14F]); (0x150, [0x151]);
    (0x152, [0x153]); (0x154, [0x155]); (0x156, [0x157]); (0x158, [0x159]);
    (0x15A, [0x15B]); (0x15C, [0x15D]); (0x15E, [0x15F]); (0x160, [0x161]);
    (0x162, [0x163]); (0x164, [0x165]); (0x166, [0x167]); (0x168, [0x169]);
    (0x16A, [0x16B]); (0x16C, [0x16D]); (0x16E, [0x16F]); (0x170, [0x171]);
    (0x172, [0x173]); (0x174, [0x175]); (0x176, [0x177]); (0x178, [0xFF]);
    (0x179, [0x17A]); (0x17B, [0x17C]); (0x17D, [0x17E]); (0x370, [0x371]);
    (0x372, [0x373]); (0x376, [0x377]); (0x37F, [0x3F3]); (0x386, [0x3AC]);
    (0x388, [0x3AD]); (0x389, [0x3AE]); (0x38A, [0x3AF]); (0x38C, [0x3CC]);
    (0x38E, [0x3CD]); (0x38F, [0x3CE]); (0x391, [0x3B1]); (0x392, [0x3B2]);
    (0x393, [0x3B3]); (0x394, [0x3B4]); (0x395, [0x3B5]); (0x396, [0x3B6]);
    (0x397, [0x3B7]); (0x398, [0x3B8]); (0x399, [0x3B9]); (0x39A, [0x3BA]);
    (0x39B, [0x3BB]); (0x39C, [0x3BC]); (0x39D, [0x3BD]); (0x39E, [0x3BE]);
    (0x39F, [0x3BF]); (0x3A0, [0x3C0]); (0x3A1, [0x3C1]); (0x3A3, [0x3C3]);
    (0x3A4, [0x3C4]); (0x3A5, [0x3C5]); (0x3A6, [0x3C6]); (0x3A7, [0x3C7]);
    (0x3A8, [0x3C8]); (0x3A9, [0x3C9]); (0x3AA, [0x3CA]); (0x3AB, [0x3CB]);
    (0x3CF, [0x3D7]); (0x3D8, [0x3D9]); (0x3DA, [0x3DB]); (0x3DC, [0x3DD]);
    (0x3DE, [0x3DF]); (0x3E0, [0x3E1]); (0x3E2, [0x3E3]); (0x3E4, [0x3E5]);
    (0x3E6, [0x3E7]); (0x3E8, [0x3E9]); (0x3EA, [0x3EB]); (0x3EC, [0x3ED]);
    (0x3EE, [0x3EF]); (0x3F4, [0x3B8]); (0x3F7, [0x3F8]); (0x3F9, [0x3F2]);
    (0x3FA, [0x3FB]); (0x3FD, [0x37B]); (0x3FE, [0x37C]); (0x3FF, [0x37D]) ]%N.

Definition letterOrNumberRanges : list (N * N) :=
  [
    (0x30, 0x39); (0x41, 0x5A); (0x61, 0x7A); (0xAA, 0xAA); (0xB2, 0xB3);
    (0xB5, 0xB5); (0xB9, 0xBA); (0xBC, 0xBE); (0xC0, 0xD6); (0xD8, 0xF6);
    (0xF8, 0x17F); (0x2B9, 0x2B9); (0x370, 0x374); (0x376, 0x377); (0x37A, 0x37D);
    (0x37F, 0x37F); (0x386, 0x386); (0x388, 0x38A); (0x38C, 0x38C); (0x38E, 0x3A1);
    (0x3A3, 0x3F5); (0x3F7, 0x3FF); (0x11099, 0x1109A) ]%N.

Definition casedRanges : list (N * N) :=
  [
    (0x41, 0x5A); (0x61, 0x7A); (0xAA, 0xAA); (0xB5, 0xB5); (0xBA, 0xBA);
    (0xC0, 0xD6); (0xD8, 0xF6); (0xF8, 0x17F); (0x345, 0x345); (0x370, 0x373);
    (0x376, 0x377); (0x37A, 0x37D); (0x37F, 0x37F); (0x386, 0x386); (0x388, 0x38A);
    (0x38C, 0x38C); (0x38E, 0x3A1); (0x3A3, 0x3F5); (0x3F7, 0x3FF) ]%N.

Definition caseIgnorableRanges : list (N * N) :=
  [
    (0x27, 0x27); (0x2E, 0x2E); (0x3A, 0x3A); (0x5E, 0x5E); (0x60, 0x60);
    (0xA8, 0xA8); (0xAD, 0xAD); (0xAF, 0xAF); (0xB4, 0xB4); (0xB7, 0xB8);
    (0x2B9, 0x2B9); (0x300, 0x36F); (0x374, 0x375); (0x37A, 0x37A); (0x384, 0x385);
    (0x387, 0x387); (0x110BA, 0x110BA) ]%N.

Fixpoint assoc {A : Type} (c : N) (table : list (N * A)) : option A :=
  match table with
  | [] => None
  | (k, v) :: table' => if (k =? c)%N then Some v else assoc c table'
  end.

Definition inRanges (c : N) (ranges : list (N * N)) : bool :=
  existsb (fun '(lo, hi) => between lo hi c) ranges.

Definition excerpt : UnicodeData :=
  {| decomposition c :=
       match assoc c decompositionTable with Some d => d | None => [c] end;
     combiningClass c :=
       match assoc c combiningClassTable with Some k => k | None => 0%N end;
     lowercase c :=
       match assoc c lowercaseTable with Some l => l | None => [c] end;
     cased c := inRanges c casedRanges;
     caseIgnorable c := inRanges c caseIgnorableRanges;
     letterOrNumber c := inRanges c letterOrNumberRanges |}.

(** The code points with a decomposition or a lowercase mapping. *)
Definition mapped : list N := map fst decompositionTable ++ map fst lowercaseTable.

(** The combining diacritical marks. *)
Definition combiningDiacriticals : list N := map N.of_nat (seq 0x300 0x70).

Definition isSelf (l : list N) (c : N) : bool :=
  match l with
  | [x] => (x =? c)%N
  | _ => false
  end.

(** The third fact of [coherent], decided at one code point. *)
Definition settledAfterLowering (ucd : UnicodeData) (y : N) : bool :=
  forallb
    (fun x =>
       isCombiningDiacritical x
       || forallb
            (fun d =>
               negb (letterOrNumber ucd d)
               || (isSelf (decomposition ucd d) d && isSelf (lowercase ucd d) d
                   && negb (d =? capitalSigma)%N))
            (lowered ucd x))
    (decomposition ucd y).

(** [othersStayOthers], decided at one code point. *)
Definition staysOther (ucd : UnicodeData) (y : N) : bool :=
  letterOrNumber ucd y
  || forallb
       (fun x =>
          isCombiningDiacritical x
          || forallb (fun d => negb (letterOrNumber ucd d)) (lowered ucd x))
       (decomposition ucd y).

(** The French "D'\u00C9t\u00E9 \u00E0", the Greek capitals
    \u039F\u0394\u038C\u03A3 and U+1109A, and the key of this text. *)
Definition sampleText : list N :=
  [0x44; 0x27; 0xC9; 0x74; 0xE9; 0x20; 0xE0; 0x20; 0x39F; 0x394; 0x38C; 0x3A3;
   0xD804; 0xDC9A]%N.

Definition sampleKey : list N :=
  [0x64; 0x65; 0x74; 0x65; 0x61; 0x3BF; 0x3B4; 0x3BF; 0x3C2; 0xD804; 0xDC99]%N.

(** A combining acute accent between the two halves of U+1109A. *)
Definition splitPair : list N := [0xD804; 0x301; 0xDC9A]%N.

End Utf16.

(** The code units of a text of the range U+0000 to U+00FF. *)
Definition codeUnits (s : string) : list N := map code (list_ascii_of_string s).

(** What the steps of [Utf16.normalizeText] make of one code point that
    stands alone. *)
Definition keyOfCodePoint (ucd : Utf16.UnicodeData) (c : N) : list N :=
  flat_map (fun x => filter (Utf16.letterOrNumber ucd) (Utf16.lowercase ucd x))
    (filter (fun x => negb (isCombiningDiacritical x)) (Utf16.decomposition ucd c)).

(** A code point of combining class zero. *)
Definition isStarter (ucd : Utf16.UnicodeData) (c : N) : bool :=
  (Utf16.combiningClass ucd c =? 0)%N.

(** Every character of the range. *)
Definition allAscii : list ascii := map ascii_of_nat (seq 0 256).

(* ------------------------------------------------------------------------- *)
(** ** Indexing with the frontmatter as the cache holds it

    [indexFile] above takes the tags of the frontmatter as text.  The
    frontmatter is parsed YAML, and [tags] can hold any value: text, a
    number, a boolean, [null], a map, or a list with such items.
    [indexFile] calls [split] on a value that is not an array and [trim] on
    every item; only text has these methods, so on any other value the call
    throws a TypeError and [indexFile] ends there. *)

Module Untyped.

(** A value of the frontmatter: text, or something else, which is truthy or
    not. *)
Inductive FrontmatterValue :=
| Text (s : string)
| NotText (truthy : bool).

Inductive FrontmatterTags :=
| TagsArray (items : list FrontmatterValue)
| TagsValue (v : FrontmatterValue).

Record CachedMetadata := mkCachedMetadata {
  frontmatterTags : option FrontmatterTags;
  headings : option (list string);
  sections : option (list (option string))
}.

(** How a call ends. *)
Inductive Completion := Returned | Threw.

(** [tags.forEach(tag => ...)]: the first item without [trim] ends the loop. *)
Fixpoint indexTags (file : TFile) (tags : list FrontmatterValue) (index : Index)
  : Index * Completion :=
  match tags with
  | [] => (index, Returned)
  | Text t :: tags' =>
      let cleanTag := trim t in
      indexTags file tags' (addToIndex cleanTag (tagEntry file cleanTag) index)
  | NotText _ :: _ => (index, Threw)
  end.

(** [indexFile(file)], given the metadata the cache holds for the file. *)
Definition indexFile (metadata : option CachedMetadata) (file : TFile) (index : Index)
  : Index * Completion :=
  if negb (String.eqb (extension file) "md") then (index, Returned) else
  let index1 := addToIndex (basename file) (titleEntry file) index in
  match metadata with
  | None => (index1, Returned)
  | Some m =>
      let tagged :=
        match frontmatterTags m with
        | None => (index1, Returned)
        | Some (TagsArray items) => indexTags file items index1
        | Some (TagsValue (Text s)) =>
            if isEmpty s then (index1, Returned)
            else indexTags file (map Text (splitOn "," s)) index1
        | Some (TagsValue (NotText truthy)) =>
            if truthy then (index1, Threw) else (index1, Returned)
        end in
      match tagged with
      | (index2, Threw) => (index2, Threw)
      | (index2, Returned) =>
          let index3 :=
            fold_left (fun idx h => addToIndex h (headingEntry file h) idx)
              (match headings m with Some hs => hs | None => [] end) index2 in
          (fold_left
             (fun idx sid =>
                match sid with
                | Some id => if isEmpty id then idx else addToIndex id (blockEntry file id) idx
                | None => idx
                end)
             (match sections m with Some ss => ss | None => [] end) index3,
           Returned)
      end
  end.




End Untyped.

(** Metadata with tags that are text, as untyped metadata. *)
Definition untypedTags (tags : FrontmatterTags) : Untyped.FrontmatterTags :=
  match tags with
  | TagsArray l => Untyped.TagsArray (map Untyped.Text l)
  | TagsString s => Untyped.TagsValue (Untyped.Text s)
  end.

Definition untyped (m : CachedMetadata) : Untyped.CachedMetadata :=
  {| Untyped.frontmatterTags := option_map untypedTags (frontmatterTags m);
     Untyped.headings := headings m;
     Untyped.sections := sections m |}.

Definition isText (v : Untyped.FrontmatterValue) : bool :=
  match v with Untyped.Text _ => true | Untyped.NotText _ => false end.

Definition textOf (v : Untyped.FrontmatterValue) : list string :=
  match v with Untyped.Text s => [s] | Untyped.NotText _ => [] end.

(** The tags make [indexFile] throw. *)
Definition tagsThrow (m : Untyped.CachedMetadata) : bool :=
  match Untyped.frontmatterTags m with
  | Some (Untyped.TagsArray items) => negb (forallb isText items)
  | Some (Untyped.TagsValue (Untyped.NotText truthy)) => truthy
  | _ => false
  end.

Definition throwsOn (metadata : option Untyped.CachedMetadata) (file : TFile) : bool :=
  String.eqb (extension file) "md"
  && match metadata with Some m => tagsThrow m | None => false end.

(** Untyped metadata read as typed: the items that are text, and no tags
    for a value that is neither text nor an array. *)
Definition typedTags (tags : Untyped.FrontmatterTags) : option FrontmatterTags :=
  match tags with
  | Untyped.TagsArray items => Some (TagsArray (flat_map textOf items))
  | Untyped.TagsValue (Untyped.Text s) => Some (TagsString s)
  | Untyped.TagsValue (Untyped.NotText _) => None
  end.

Definition typed (m : Untyped.CachedMetadata) : CachedMetadata :=
  {| frontmatterTags :=
       match Untyped.frontmatterTags m with Some t => typedTags t | None => None end;
     headings := Untyped.headings m;
     sections := Untyped.sections m |}.

(** The items in front of the first one that is not text. *)
Fixpoint textsBefore (items : list Untyped.FrontmatterValue) : list string :=
  match items with
  | Untyped.Text t :: items' => t :: textsBefore items'
  | _ => []
  end.

Definition tagsBeforeThrow (m : Untyped.CachedMetadata) : list string :=
  match Untyped.frontmatterTags m with
  | Some (Untyped.TagsArray items) => textsBefore items
  | _ => []
  end.

(** The insertions of a call of [indexFile] that throws. *)
Definition entriesBeforeThrow (m : Untyped.CachedMetadata) (file : TFile)
  : list (string * IndexEntry) :=
  (basename file, titleEntry file)
  :: map (fun t => (trim t, tagEntry file (trim t))) (tagsBeforeThrow m).


(** A note with the frontmatter [tags: [travel, 2024, europe]] and one
    heading. *)
Definition yearTagged : Untyped.CachedMetadata :=
  {| Untyped.frontmatterTags :=
       Some (Untyped.TagsArray
               [Untyped.Text "travel"; Untyped.NotText true; Untyped.Text "europe"]);
     Untyped.headings := Some ["History"];
     Untyped.sections := None |}.



(* ------------------------------------------------------------------------- *)
(** * Properties *)

(** ** Strings *)

(** Case analysis on the 256 code units. *)
Ltac each_ascii c :=
  let b0 := fresh "b" in let b1 := fresh "b" in let b2 := fresh "b" in
  let b3 := fresh "b" in let b4 := fresh "b" in let b5 := fresh "b" in
  let b6 := fresh "b" in let b7 := fresh "b" in
  destruct c as [b0 b1 b2 b3 b4 b5 b6 b7];
  destruct b0, b1, b2, b3, b4, b5, b6, b7.

Lemma string_of_list_ascii_app (l1 l2 : list ascii) :
  string_of_list_ascii (l1 ++ l2)
  = (string_of_list_ascii l1 ++ string_of_list_ascii l2)%string.
Proof.
  induction l1 as [|a l1 IH]; simpl; [reflexivity | now rewrite IH].
Qed.

Lemma smap_app (f : ascii -> ascii) (s t : string) :
  smap f (s ++ t) = (smap f s ++ smap f t)%string.
Proof.
  induction s as [|c s IH]; simpl; [reflexivity | now rewrite IH].
Qed.

Lemma sfilter_app (p : ascii -> bool) (s t : string) :
  sfilter p (s ++ t) = (sfilter p s ++ sfilter p t)%string.
Proof.
  induction s as [|c s IH]; simpl; [reflexivity |].
  destruct (p c); simpl; now rewrite IH.
Qed.

Lemma string_app_assoc (s t u : string) :
  ((s ++ t) ++ u = s ++ (t ++ u))%string.
Proof.
  induction s as [|c s IH]; simpl; [reflexivity | now rewrite IH].
Qed.

Lemma string_app_empty_r (s : string) : (s ++ "")%string = s.
Proof.
  induction s as [|c s IH]; simpl; [reflexivity | now rewrite IH].
Qed.

(** ** Normalizer *)

Lemma normalizeText_cons (c : ascii) (s : string) :
  normalizeText (String c s) = (normalizeChar c ++ normalizeText s)%string.
Proof.
  unfold normalizeChar, normalizeText, nfd, stripCombining, fromCodePoints, toLowerCase.
  simpl list_ascii_of_string. simpl flat_map.
  rewrite app_nil_r, filter_app, map_app, string_of_list_ascii_app, smap_app, sfilter_app.
  reflexivity.
Qed.



Lemma normalizeChar_lower (c : ascii) :
  toLowerCase (normalizeChar c) = normalizeChar c.
Proof. each_ascii c; vm_compute; reflexivity. Qed.

Lemma normalizeText_lower (s : string) :
  toLowerCase (normalizeText s) = normalizeText s.
Proof.
  induction s as [|c s IH]; [reflexivity |].
  rewrite normalizeText_cons. unfold toLowerCase in *.
  rewrite smap_app, IH. f_equal. apply normalizeChar_lower.
Qed.

(** After the combining marks are stripped, the decomposed text is back in
    the range U+0000 to U+00FF, so [fromCodePoints] loses nothing. *)
Lemma nfdChar_stripped_in_range (c : ascii) :
  Forall (fun n => N_of_ascii (ascii_of_N n) = n) (stripCombining (nfdChar c)).
Proof.
  assert (H : forallb (fun n => N.eqb (N_of_ascii (ascii_of_N n)) n)
                (stripCombining (nfdChar c)) = true)
    by (each_ascii c; vm_compute; reflexivity).
  apply Forall_forall. intros n Hn. rewrite forallb_forall in H.
  apply N.eqb_eq. apply H. assumption.
Qed.

Lemma nfd_stripped_in_range (s : string) :
  Forall (fun n => N_of_ascii (ascii_of_N n) = n) (stripCombining (nfd s)).
Proof.
  unfold nfd, stripCombining. induction s as [|c s IH]; simpl; [constructor |].
  rewrite filter_app. apply Forall_app. split; [apply nfdChar_stripped_in_range | exact IH].
Qed.

(** ** Matcher *)

Lemma typeEqb_eq (a b : IndexEntryType) : typeEqb a b = true <-> a = b.
Proof. destruct a, b; simpl; split; congruence. Qed.

Lemma sameTriple_iff (e m : IndexEntry) :
  sameTriple e m = true <-> triple m = triple e.
Proof.
  unfold sameTriple, triple.
  rewrite !andb_true_iff, typeEqb_eq, !String.eqb_eq.
  split; [intros [[-> ->] ->]; reflexivity | intros H; inversion H; auto].
Qed.

Lemma sameTriple_refl (e : IndexEntry) : sameTriple e e = true.
Proof. apply sameTriple_iff; reflexivity. Qed.

Lemma sameTriple_false_iff (e m : IndexEntry) :
  sameTriple e m = false <-> triple m <> triple e.
Proof.
  rewrite <- sameTriple_iff. destruct (sameTriple e m); split; congruence.
Qed.

Lemma existsb_sameTriple_iff (e : IndexEntry) (l : list IndexEntry) :
  existsb (sameTriple e) l = true <-> In (triple e) (map triple l).
Proof.
  rewrite existsb_exists, in_map_iff.
  split; intros [x [H1 H2]]; exists x.
  - apply sameTriple_iff in H2. auto.
  - split; [assumption | apply sameTriple_iff; assumption].
Qed.

Lemma existsb_sameTriple_false (e : IndexEntry) (l : list IndexEntry) :
  existsb (sameTriple e) l = false <-> ~ In (triple e) (map triple l).
Proof.
  rewrite <- existsb_sameTriple_iff.
  destruct (existsb (sameTriple e) l); split; congruence.
Qed.

Lemma triple_withScore (s : Q) (e : IndexEntry) : triple (withScore s e) = triple e.
Proof. reflexivity. Qed.

(** *** [findIndex] *)

Lemma findIndexFrom_none {A : Type} (p : A -> bool) (l : list A) (i : nat) :
  findIndexFrom p l i = None <-> existsb p l = false.
Proof.
  revert i; induction l as [|x l IH]; intros i; simpl.
  - tauto.
  - destruct (p x); simpl; [split; discriminate | apply IH].
Qed.

Lemma findIndexFrom_app_found {A : Type} (p : A -> bool) (l1 l2 : list A) (i : nat) :
  existsb p l1 = true ->
  exists k, findIndexFrom p (l1 ++ l2) i = Some k /\ k < i + List.length l1.
Proof.
  revert i; induction l1 as [|x l1 IH]; intros i; simpl; [discriminate |].
  destruct (p x); simpl.
  - intros _. exists i. split; [reflexivity | lia].
  - intros H. destruct (IH (S i) H) as [k [Hk Hlt]]. exists k. split; [assumption | lia].
Qed.

Lemma findIndexFrom_app_here {A : Type} (p : A -> bool) (l1 l2 : list A) (x : A) (i : nat) :
  existsb p l1 = false -> p x = true ->
  findIndexFrom p (l1 ++ x :: l2) i = Some (i + List.length l1).
Proof.
  revert i; induction l1 as [|y l1 IH]; intros i; simpl.
  - intros _ ->. f_equal. lia.
  - destruct (p y); simpl; [discriminate |].
    intros H Hx. rewrite (IH (S i) H Hx). f_equal. lia.
Qed.

(** The [filter] of [getSuggestions] keeps an entry exactly when no entry
    before it has its triple. *)
Lemma uniqueMatches_keepFirst (l pre seen : list IndexEntry) :
  (forall x, existsb (sameTriple x) pre = existsb (sameTriple x) seen) ->
  filterIndexedFrom
    (fun m i => optNatEqb (findIndex (fun m' => sameTriple m m') (pre ++ l)) i)
    l (List.length pre)
  = keepFirstOccurrence seen l.
Proof.
  revert pre seen; induction l as [|x l IH]; intros pre seen Heq; simpl; [reflexivity |].
  assert (Hnext : forall seen',
             (forall y, existsb (sameTriple y) (pre ++ [x]) = existsb (sameTriple y) seen') ->
             filterIndexedFrom
               (fun m i => optNatEqb (findIndex (fun m' => sameTriple m m') (pre ++ x :: l)) i)
               l (S (List.length pre))
             = keepFirstOccurrence seen' l).
  { intros seen' H'. specialize (IH (pre ++ [x]) seen' H').
    rewrite <- app_assoc in IH. simpl in IH.
    rewrite length_app in IH. simpl in IH.
    replace (List.length pre + 1) with (S (List.length pre)) in IH by lia.
    exact IH. }
  rewrite <- Heq.
  destruct (existsb (sameTriple x) pre) eqn:Hpre.
  - destruct (findIndexFrom_app_found (fun m' => sameTriple x m') pre (x :: l) 0 Hpre)
      as [k [Hk Hlt]].
    unfold findIndex at 1. rewrite Hk. simpl.
    replace (k =? List.length pre) with false by (symmetry; apply Nat.eqb_neq; lia).
    apply Hnext. intros y. rewrite existsb_app, <- Heq. simpl.
    rewrite orb_false_r.
    destruct (existsb (sameTriple y) pre) eqn:Hy; [reflexivity |]. simpl.
    destruct (sameTriple y x) eqn:Hyx; [| reflexivity].
    apply sameTriple_iff in Hyx.
    apply existsb_sameTriple_iff in Hpre. apply existsb_sameTriple_false in Hy.
    rewrite Hyx in Hpre. contradiction.
  - unfold findIndex at 1.
    rewrite (findIndexFrom_app_here (fun m' => sameTriple x m') pre l x 0 Hpre
               (sameTriple_refl x)).
    simpl. rewrite Nat.eqb_refl. f_equal.
    apply Hnext. intros y. rewrite existsb_app. simpl.
    rewrite orb_false_r, <- Heq. apply orb_comm.
Qed.

Lemma uniqueMatches_spec (l : list IndexEntry) :
  uniqueMatches l = keepFirstOccurrence [] l.
Proof.
  unfold uniqueMatches, filterIndexed.
  apply (uniqueMatches_keepFirst l [] []). reflexivity.
Qed.

(** *** Keeping the first occurrence *)

Lemma keepFirstOccurrence_in (l seen : list IndexEntry) (e : IndexEntry) :
  In e (keepFirstOccurrence seen l) ->
  In e l /\ ~ In (triple e) (map triple seen).
Proof.
  revert seen; induction l as [|x l IH]; intros seen; simpl; [tauto |].
  destruct (existsb (sameTriple x) seen) eqn:Hx.
  - intros H. destruct (IH _ H). auto.
  - intros [-> | H].
    + split; [auto | apply existsb_sameTriple_false; assumption].
    + destruct (IH _ H) as [H1 H2]. split; [auto |].
      intros Hin. apply H2. simpl. auto.
Qed.

Lemma keepFirstOccurrence_NoDup (l seen : list IndexEntry) :
  NoDup (map triple (keepFirstOccurrence seen l)).
Proof.
  revert seen; induction l as [|x l IH]; intros seen; simpl; [constructor |].
  destruct (existsb (sameTriple x) seen); [apply IH |].
  simpl. constructor; [| apply IH].
  intros Hin. apply in_map_iff in Hin. destruct Hin as [y [Hy Hin]].
  apply keepFirstOccurrence_in in Hin. destruct Hin as [_ Hn].
  apply Hn. simpl. left. symmetry. assumption.
Qed.

Lemma keepFirstOccurrence_ext (l seen seen' : list IndexEntry) :
  (forall x, existsb (sameTriple x) seen = existsb (sameTriple x) seen') ->
  keepFirstOccurrence seen l = keepFirstOccurrence seen' l.
Proof.
  revert seen seen'; induction l as [|x l IH]; intros seen seen' Heq; simpl; [reflexivity |].
  rewrite <- Heq. destruct (existsb (sameTriple x) seen); [apply IH; assumption |].
  f_equal. apply IH. intros y. simpl. now rewrite Heq.
Qed.

(** Deduplicating a concatenation: the first list is deduplicated on its
    own, and the second against everything in the first. *)
Lemma keepFirstOccurrence_app (l1 l2 seen : list IndexEntry) :
  keepFirstOccurrence seen (l1 ++ l2)
  = keepFirstOccurrence seen l1 ++ keepFirstOccurrence (rev l1 ++ seen) l2.
Proof.
  revert seen; induction l1 as [|x l1 IH]; intros seen; simpl; [reflexivity |].
  destruct (existsb (sameTriple x) seen) eqn:Hx.
  - rewrite IH. f_equal. apply keepFirstOccurrence_ext. intros y.
    rewrite <- app_assoc. rewrite !existsb_app. simpl.
    destruct (sameTriple y x) eqn:Hyx; [| reflexivity].
    apply sameTriple_iff in Hyx.
    assert (existsb (sameTriple y) seen = true) as ->.
    { apply existsb_sameTriple_iff. rewrite <- Hyx.
      apply existsb_sameTriple_iff. assumption. }
    now rewrite !orb_true_r.
  - simpl. rewrite IH. f_equal. rewrite <- app_assoc. reflexivity.
Qed.

(** *** The fuzzy test is the subsequence test *)

Lemma fuzzyLoop_shift (q : list ascii) (c : ascii) (t : string) (i : nat) :
  fuzzyLoop q (String c t) (S i) = fuzzyLoop q t i.
Proof.
  revert i; induction q as [|d q IH]; intros i; simpl; [reflexivity |].
  destruct (indexOf d t i) as [j|]; simpl; [| reflexivity].
  apply IH.
Qed.

Lemma fuzzyLoop_cons (d : ascii) (q : list ascii) (c : ascii) (t : string) :
  fuzzyLoop (d :: q) (String c t) 0
  = if Ascii.eqb c d then fuzzyLoop q t 0 else fuzzyLoop (d :: q) t 0.
Proof.
  simpl. destruct (Ascii.eqb c d).
  - apply fuzzyLoop_shift.
  - destruct (indexOf d t 0) as [j|]; simpl; [| reflexivity].
    apply fuzzyLoop_shift.
Qed.

Lemma Subsequence_tail (d : ascii) (q l : list ascii) :
  Subsequence (d :: q) l -> Subsequence q l.
Proof.
  induction l as [|c l IH]; intros H; inversion H; subst.
  - apply Subsequence_skip. assumption.
  - apply Subsequence_skip. apply IH. assumption.
Qed.

Lemma fuzzyLoop_Subsequence (t : string) (q : list ascii) :
  fuzzyLoop q t 0 = true <-> Subsequence q (list_ascii_of_string t).
Proof.
  revert q; induction t as [|c t IH]; intros q.
  - destruct q as [|d q]; simpl.
    + split; [intros _; constructor | reflexivity].
    + split; [discriminate | intros H; inversion H].
  - destruct q as [|d q].
    + simpl. split; [intros _; constructor | reflexivity].
    + rewrite fuzzyLoop_cons. simpl list_ascii_of_string.
      destruct (Ascii.eqb c d) eqn:Hcd.
      * apply Ascii.eqb_eq in Hcd. subst d. rewrite IH. split.
        -- apply Subsequence_take.
        -- intros H. inversion H; subst; [assumption |].
           eapply Subsequence_tail. eassumption.
      * apply Ascii.eqb_neq in Hcd. rewrite IH. split.
        -- apply Subsequence_skip.
        -- intros H. inversion H; subst; [congruence | assumption].
Qed.

Lemma fuzzyMatch_spec (query text : string) :
  fuzzyMatch query text = true
  <-> isSubsequenceOf (toLowerCase query) (toLowerCase text).
Proof. unfold fuzzyMatch, isSubsequenceOf. apply fuzzyLoop_Subsequence. Qed.

(** *** The two passes *)

Lemma exactMatches_in (nq : string) (index : Index) (e : IndexEntry) :
  In e (exactMatches nq index)
  <-> exists key entries e0,
        In (key, entries) index /\ startsWith key nq = true
        /\ In e0 entries /\ e = withScore 0 e0.
Proof.
  unfold exactMatches. rewrite in_flat_map. split.
  - intros [[key entries] [Hin He]].
    destruct (startsWith key nq) eqn:Hp; [| destruct He].
    apply in_map_iff in He. destruct He as [e0 [<- He0]].
    exists key, entries, e0. auto.
  - intros [key [entries [e0 [Hin [Hp [He0 ->]]]]]].
    exists (key, entries). split; [assumption |].
    rewrite Hp. apply in_map. assumption.
Qed.

Lemma fuzzyMatches_in (nq : string) (index : Index) (e : IndexEntry) :
  In e (fuzzyMatches nq index)
  <-> exists key entries e0,
        In (key, entries) index /\ fuzzyMatch nq key = true
        /\ In e0 entries /\ e = withScore (1 # 2) e0.
Proof.
  unfold fuzzyMatches. rewrite in_flat_map. split.
  - intros [[key entries] [Hin He]].
    destruct (fuzzyMatch nq key) eqn:Hp; [| destruct He].
    apply in_map_iff in He. destruct He as [e0 [<- He0]].
    exists key, entries, e0. auto.
  - intros [key [entries [e0 [Hin [Hp [He0 ->]]]]]].
    exists (key, entries). split; [assumption |].
    rewrite Hp. apply in_map. assumption.
Qed.

Lemma prefixMatched_iff (index : Index) (nq : string) (e : IndexEntry) :
  prefixMatched index nq e <-> In (triple e) (map triple (exactMatches nq index)).
Proof.
  unfold prefixMatched. rewrite in_map_iff. split.
  - intros [key [entries [e0 [Hin [Hp [He0 Ht]]]]]].
    exists (withScore 0 e0). split; [rewrite triple_withScore; assumption |].
    apply exactMatches_in. exists key, entries, e0. auto.
  - intros [x [Ht Hx]]. apply exactMatches_in in Hx.
    destruct Hx as [key [entries [e0 [Hin [Hp [He0 ->]]]]]].
    exists key, entries, e0. rewrite triple_withScore in Ht. auto.
Qed.

Lemma firstn_In {A : Type} (n : nat) (l : list A) (x : A) :
  In x (firstn n l) -> In x l.
Proof.
  revert l; induction n as [|n IH]; intros [|y l]; simpl; try tauto.
  intros [-> | H]; auto.
Qed.

(** The returned list splits into a part taken from the prefix pass and a
    part taken from the fuzzy pass whose triples the prefix pass lacks. *)
Lemma prefix_part_then_fuzzy_part (E F : list IndexEntry) (n : nat) :
  exists A B,
    firstn n (keepFirstOccurrence [] (E ++ F)) = A ++ B
    /\ (forall e, In e A -> In e E)
    /\ (forall e, In e B -> In e F /\ ~ In (triple e) (map triple E)).
Proof.
  rewrite keepFirstOccurrence_app, firstn_app.
  eexists; eexists; split; [reflexivity | split].
  - intros e He. apply firstn_In in He.
    apply keepFirstOccurrence_in in He. tauto.
  - intros e He. apply firstn_In in He.
    apply keepFirstOccurrence_in in He. destruct He as [H1 H2]. split; [assumption |].
    intros Hin. apply H2. rewrite app_nil_r, map_rev. apply in_rev.
    rewrite rev_involutive. assumption.
Qed.

(** C1. For every index and query, [getSuggestions] returns the first 100
    entries of: the prefix-pass results (entries under keys that start with
    the normalized query) followed by the fuzzy-pass results (entries under
    keys of which the normalized query is an ordered subsequence),
    deduplicated by [(type, notePath, target)] keeping the first occurrence.
    So no two returned entries share the triple, and every returned
    prefix-matched entry stands before every returned fuzzy-only entry. *)
Theorem getSuggestions_prefix_before_fuzzy (index : Index) (query : string) :
  let nq := normalizeText query in
  let result := getSuggestions index query in
  (forall e, In e (exactMatches nq index)
             <-> exists key entries e0,
                   In (key, entries) index /\ startsWith key nq = true
                   /\ In e0 entries /\ e = withScore 0 e0)
  /\ (forall e, In e (fuzzyMatches nq index)
                <-> exists key entries e0,
                      In (key, entries) index /\ isSubsequenceOf nq (toLowerCase key)
                      /\ In e0 entries /\ e = withScore (1 # 2) e0)
  /\ result
     = (if isEmpty nq then []
        else firstn 100
               (keepFirstOccurrence [] (exactMatches nq index ++ fuzzyMatches nq index)))
  /\ NoDup (map triple result)
  /\ (forall i j ei ej,
        nth_error result i = Some ei -> nth_error result j = Some ej ->
        prefixMatched index nq ei -> ~ prefixMatched index nq ej ->
        i < j).
Proof.
  intros nq result.
  assert (Hres : result
                 = (if isEmpty nq then []
                    else firstn 100
                           (keepFirstOccurrence []
                              (exactMatches nq index ++ fuzzyMatches nq index)))).
  { unfold result, getSuggestions. fold nq.
    destruct (isEmpty nq); [reflexivity |]. now rewrite uniqueMatches_spec. }
  split; [apply exactMatches_in |].
  split.
  { intros e. rewrite fuzzyMatches_in.
    split; intros [key [entries [e0 [H1 [H2 H3]]]]]; exists key, entries, e0;
      (split; [assumption | split; [| assumption]]).
    - apply fuzzyMatch_spec in H2. unfold nq in *.
      rewrite normalizeText_lower in H2. assumption.
    - apply fuzzyMatch_spec. unfold nq in *.
      rewrite normalizeText_lower. assumption. }
  split; [exact Hres |].
  rewrite Hres. destruct (isEmpty nq).
  { split; [constructor |]. intros i j ei ej H. destruct i; discriminate. }
  split.
  - generalize (keepFirstOccurrence_NoDup
                  (exactMatches nq index ++ fuzzyMatches nq index) []).
    generalize (keepFirstOccurrence [] (exactMatches nq index ++ fuzzyMatches nq index)).
    intros l Hl. rewrite <- (firstn_skipn 100 l), map_app in Hl.
    apply NoDup_app_remove_r in Hl. assumption.
  - destruct (prefix_part_then_fuzzy_part
                (exactMatches nq index) (fuzzyMatches nq index) 100)
      as [A [B [-> [HA HB]]]].
    intros i j ei ej Hi Hj Hpi Hpj.
    rewrite nth_error_app in Hi, Hj.
    destruct (Nat.ltb_spec i (List.length A)) as [Hia | Hia].
    + destruct (Nat.ltb_spec j (List.length A)) as [Hja | Hja]; [| lia].
      exfalso. apply Hpj. apply prefixMatched_iff.
      apply in_map. apply HA. eapply nth_error_In. eassumption.
    + exfalso. apply nth_error_In in Hi. apply HB in Hi.
      destruct Hi as [_ Hn]. apply Hn. apply prefixMatched_iff. assumption.
Qed.

(** ** Phrase enumerator *)

Lemma StronglySorted_app {A : Type} (R : A -> A -> Prop) (l1 l2 : list A) :
  StronglySorted R l1 -> StronglySorted R l2 ->
  (forall x y, In x l1 -> In y l2 -> R x y) ->
  StronglySorted R (l1 ++ l2).
Proof.
  induction l1 as [|a l1 IH]; intros H1 H2 H12; simpl; [assumption |].
  inversion H1 as [|? ? Hs Hf]; subst. constructor.
  - apply IH; [assumption | assumption |]. intros x y Hx Hy. apply H12; simpl; auto.
  - apply Forall_app. split; [assumption |].
    apply Forall_forall. intros y Hy. apply H12; simpl; auto.
Qed.

Lemma StronglySorted_filter {A : Type} (R : A -> A -> Prop) (p : A -> bool) (l : list A) :
  StronglySorted R l -> StronglySorted R (filter p l).
Proof.
  induction 1 as [|a l Hs IH Hf]; simpl; [constructor |].
  destruct (p a); [| assumption]. constructor; [assumption |].
  apply Forall_forall. intros y Hy. apply filter_In in Hy.
  rewrite Forall_forall in Hf. apply Hf. tauto.
Qed.

Lemma StronglySorted_NoDup {A : Type} (R : A -> A -> Prop) (l : list A) :
  (forall x, ~ R x x) -> StronglySorted R l -> NoDup l.
Proof.
  intros Hirr. induction 1 as [|a l Hs IH Hf]; constructor; [| assumption].
  intros Hin. rewrite Forall_forall in Hf. apply (Hirr a). apply Hf. assumption.
Qed.

Lemma spanBefore_irrefl (sp : Span) : ~ spanBefore sp sp.
Proof. unfold spanBefore. lia. Qed.

Lemma spansOfLength_in (length span c : nat) (sp : Span) :
  In sp (spansOfLength length span c)
  <-> fst sp <= length - span /\ snd sp = fst sp + span - 1
      /\ fst sp <= c <= snd sp.
Proof.
  unfold spansOfLength, cursorOutside. rewrite filter_In, in_map_iff.
  rewrite negb_true_iff, orb_false_iff, !Nat.ltb_ge.
  split.
  - intros [[offset [<- Hin]] [H1 H2]]. apply in_seq in Hin. simpl in *. lia.
  - intros [H1 [H2 H3]]. split; [| lia].
    exists (fst sp). split; [destruct sp; simpl in *; f_equal; lia |].
    apply in_seq. lia.
Qed.

Lemma inner_loop_sorted (span s k : nat) :
  StronglySorted spanBefore (map (fun offset => (offset, offset + span - 1)) (seq s k)).
Proof.
  revert s; induction k as [|k IH]; intros s; simpl; constructor.
  - apply IH.
  - apply Forall_forall. intros y Hy. apply in_map_iff in Hy.
    destruct Hy as [o [<- Ho]]. apply in_seq in Ho.
    unfold spanBefore, spanLength. simpl. lia.
Qed.

Lemma spansOfLength_sorted (length span c : nat) :
  StronglySorted spanBefore (spansOfLength length span c).
Proof.
  unfold spansOfLength. apply StronglySorted_filter, inner_loop_sorted.
Qed.

(** The spans reached by the outer loop when it has [n] lengths left. *)
Lemma outer_loop_in (length n c : nat) (sp : Span) :
  In sp (flat_map (fun span => spansOfLength length span c) (rev (seq 1 n)))
  <-> 1 <= spanLength sp <= n /\ fst sp <= length - spanLength sp
      /\ fst sp <= c <= snd sp.
Proof.
  rewrite in_flat_map. split.
  - intros [span [Hspan Hin]]. apply in_rev, in_seq in Hspan.
    apply spansOfLength_in in Hin. unfold spanLength. lia.
  - intros [H1 [H2 H3]]. exists (spanLength sp). split.
    + apply in_rev. rewrite rev_involutive. apply in_seq. lia.
    + apply spansOfLength_in. unfold spanLength in *. lia.
Qed.

Lemma outer_loop_sorted (length n c : nat) :
  StronglySorted spanBefore
    (flat_map (fun span => spansOfLength length span c) (rev (seq 1 n))).
Proof.
  induction n as [|n IH]; [constructor |].
  rewrite seq_S, rev_app_distr. simpl rev. simpl flat_map.
  apply StronglySorted_app; [apply spansOfLength_sorted | exact IH |].
  intros x y Hx Hy. apply spansOfLength_in in Hx. apply outer_loop_in in Hy.
  unfold spanBefore, spanLength in *. lia.
Qed.

(** C2. For every token list and cursor word index, the enumeration holds
    exactly the spans [(startIdx, endIdx)] of the token list that contain
    the cursor word index, each once, in strictly descending order of
    length and, among equal lengths, in ascending order of start index; for
    three tokens and the cursor on the middle one the first candidate is the
    whole span [(0, 2)]. *)
Theorem enumeratePhrases_longest_first (wordsWithIndices : list Token) (cursorWordIdx : nat) :
  let candidates := enumeratePhrases (List.length wordsWithIndices) cursorWordIdx in
  (forall startIdx endIdx,
      In (startIdx, endIdx) candidates
      <-> startIdx <= cursorWordIdx <= endIdx /\ endIdx < List.length wordsWithIndices)
  /\ NoDup candidates
  /\ StronglySorted spanBefore candidates
  /\ (forall w0 w1 w2 : Token,
         hd_error (enumeratePhrases (List.length [w0; w1; w2]) 1) = Some (0, 2)).
Proof.
  intros candidates. unfold candidates, enumeratePhrases.
  split; [| split; [| split]].
  - intros s e. rewrite outer_loop_in. unfold spanLength. simpl. lia.
  - eapply StronglySorted_NoDup; [apply spanBefore_irrefl | apply outer_loop_sorted].
  - apply outer_loop_sorted.
  - reflexivity.
Qed.

(** ** The map *)

Section JsMapFacts.
Context {V : Type}.
Implicit Types (m : JsMap.t V) (k : string) (v : V).

Lemma get_In k v m : JsMap.get k m = Some v -> In (k, v) m.
Proof.
  induction m as [|[k' v'] m IH]; simpl; [discriminate |].
  destruct (String.eqb_spec k' k) as [-> | Hne].
  - intros [= ->]. auto.
  - auto.
Qed.

Lemma get_None_iff k m : JsMap.get k m = None <-> ~ In k (JsMap.keys m).
Proof.
  induction m as [|[k' v'] m IH]; simpl; [tauto |].
  destruct (String.eqb_spec k' k) as [-> | Hne].
  - split; [discriminate | tauto].
  - rewrite IH. tauto.
Qed.

Lemma In_get k v m : JsMap.wf m -> In (k, v) m -> JsMap.get k m = Some v.
Proof.
  unfold JsMap.wf. induction m as [|[k' v'] m IH]; simpl; [tauto |].
  intros Hnd Hin. inversion Hnd as [|? ? Hk Hnd']; subst.
  destruct (String.eqb_spec k' k) as [-> | Hne].
  - destruct Hin as [[= ->] | Hin]; [reflexivity |].
    exfalso. apply Hk. change k with (fst (k, v)). apply in_map. assumption.
  - destruct Hin as [[= -> ->] | Hin]; [congruence | auto].
Qed.

Lemma get_set_same k v m : JsMap.get k (JsMap.set k v m) = Some v.
Proof.
  induction m as [|[k' v'] m IH]; simpl.
  - now rewrite String.eqb_refl.
  - destruct (String.eqb_spec k' k) as [-> | Hne]; simpl.
    + now rewrite String.eqb_refl.
    + destruct (String.eqb_spec k' k); [congruence | assumption].
Qed.

Lemma get_set_other k k0 v m :
  k0 <> k -> JsMap.get k0 (JsMap.set k v m) = JsMap.get k0 m.
Proof.
  intros Hne. induction m as [|[k' v'] m IH]; simpl.
  - destruct (String.eqb_spec k k0); [congruence | reflexivity].
  - destruct (String.eqb_spec k' k) as [-> | Hne']; simpl.
    + destruct (String.eqb_spec k k0); [congruence | reflexivity].
    + destruct (String.eqb_spec k' k0); [reflexivity | assumption].
Qed.

Lemma set_unchanged k v m : JsMap.get k m = Some v -> JsMap.set k v m = m.
Proof.
  induction m as [|[k' v'] m IH]; simpl; [discriminate |].
  destruct (String.eqb_spec k' k) as [-> | Hne].
  - intros [= ->]. reflexivity.
  - intros H. now rewrite IH.
Qed.

Lemma In_set k v k0 v0 m :
  In (k0, v0) (JsMap.set k v m) -> (k0 = k /\ v0 = v) \/ In (k0, v0) m.
Proof.
  induction m as [|[k' v'] m IH]; simpl.
  - intros [[= <- <-] | []]. auto.
  - destruct (String.eqb_spec k' k) as [-> | Hne]; simpl.
    + intros [[= <- <-] | H]; auto.
    + intros [H | H]; [auto |]. destruct (IH H); auto.
Qed.

Lemma set_at k v v0 (pre l : JsMap.t V) :
  ~ In k (JsMap.keys pre) ->
  JsMap.set k v (pre ++ (k, v0) :: l) = pre ++ (k, v) :: l.
Proof.
  induction pre as [|[k' v'] pre IH]; simpl; intros Hk.
  - now rewrite String.eqb_refl.
  - destruct (String.eqb_spec k' k) as [-> | Hne]; [tauto |].
    rewrite IH; [reflexivity | tauto].
Qed.

Lemma delete_at k v0 (pre l : JsMap.t V) :
  ~ In k (JsMap.keys pre) ->
  JsMap.delete k (pre ++ (k, v0) :: l) = pre ++ l.
Proof.
  induction pre as [|[k' v'] pre IH]; simpl; intros Hk.
  - now rewrite String.eqb_refl.
  - destruct (String.eqb_spec k' k) as [-> | Hne]; [tauto |].
    rewrite IH; [reflexivity | tauto].
Qed.

Lemma keys_app (m1 m2 : JsMap.t V) :
  JsMap.keys (m1 ++ m2) = JsMap.keys m1 ++ JsMap.keys m2.
Proof. apply map_app. Qed.

End JsMapFacts.

(** ** Insertion *)

Lemma addToIndex_present (index : Index) (key : string) (entry : IndexEntry) :
  existsb (sameTriple entry) (bucketOf (normalizeText key) index) = true ->
  addToIndex key entry index = index.
Proof.
  unfold addToIndex, bucketOf.
  destruct (JsMap.get (normalizeText key) index) as [es|] eqn:Hget.
  - intros ->. simpl. apply set_unchanged. assumption.
  - simpl. discriminate.
Qed.

Lemma addToIndex_unique (index : Index) (key : string) (entry : IndexEntry) :
  bucketsUnique index -> bucketsUnique (addToIndex key entry index).
Proof.
  unfold bucketsUnique, addToIndex. intros Hu k b Hin.
  apply In_set in Hin. destruct Hin as [[-> ->] | Hin]; [| eauto].
  assert (Hes : NoDup (map triple (bucketOf (normalizeText key) index))).
  { unfold bucketOf.
    destruct (JsMap.get (normalizeText key) index) as [es|] eqn:Hget; [| constructor].
    apply get_In in Hget. eauto. }
  unfold bucketOf in Hes.
  destruct (JsMap.get (normalizeText key) index) as [es|];
    (match goal with
     | |- context [existsb ?p ?l] => destruct (existsb p l) eqn:Hex
     end; simpl; [assumption |]).
  - rewrite map_app. simpl.
    apply NoDup_app; [assumption | repeat constructor; simpl; tauto |].
    intros t Ht [<- | []]. apply existsb_sameTriple_false in Hex. contradiction.
  - repeat constructor. simpl. tauto.
Qed.

Lemma insertAll_unique (insertions : list (string * IndexEntry)) (index : Index) :
  bucketsUnique index -> bucketsUnique (insertAll insertions index).
Proof.
  unfold insertAll. revert index.
  induction insertions as [|[key entry] ins IH]; intros index Hu; simpl; [assumption |].
  apply IH. apply addToIndex_unique. assumption.
Qed.

(** C5. Inserting an entry whose triple [(type, notePath, target)] already
    occurs in the bucket of its normalized key changes nothing, and any
    sequence of insertions keeps the buckets free of entries that share the
    triple: from an index whose buckets are free of them, and so from the
    empty index. *)
Theorem addToIndex_deduplicates
  (index : Index) (key : string) (entry : IndexEntry)
  (insertions : list (string * IndexEntry)) :
  (existsb (sameTriple entry) (bucketOf (normalizeText key) index) = true ->
   addToIndex key entry index = index)
  /\ (bucketsUnique index -> bucketsUnique (insertAll insertions index))
  /\ bucketsUnique (insertAll insertions emptyIndex).
Proof.
  split; [apply addToIndex_present | split].
  - apply insertAll_unique.
  - apply insertAll_unique. intros k b [].
Qed.

(** ** Removal *)

(** The loop over the live map, started at a binding whose key does not
    occur before it, rewrites the bindings one by one. *)
Lemma deleteFromIndex_loop (file : TFile) (l pre : Index) :
  NoDup (JsMap.keys (pre ++ l)) ->
  fold_left (deleteFromIndexStep file) l (pre ++ l)
  = pre ++ flat_map (remainingBinding file) l.
Proof.
  revert pre; induction l as [|[k es] l IH]; intros pre Hnd; [reflexivity |].
  assert (Hk : ~ In k (JsMap.keys pre)).
  { rewrite keys_app in Hnd. simpl in Hnd. apply NoDup_remove_2 in Hnd.
    intros Hin. apply Hnd. apply in_or_app. auto. }
  cbn [fold_left flat_map].
  unfold deleteFromIndexStep at 2, remainingBinding at 1, entriesOfOthers.
  cbn [fst snd].
  destruct (filter (fun entry => negb (String.eqb (notePath entry) (path file))) es)
    as [|e0 f] eqn:Hf.
  - cbn. rewrite delete_at by assumption.
    apply IH. rewrite keys_app in *. simpl in Hnd. apply NoDup_remove_1 in Hnd. assumption.
  - cbn. rewrite set_at by assumption.
    specialize (IH (pre ++ [(k, e0 :: f)])).
    rewrite <- !app_assoc in IH. cbn [app] in IH. apply IH.
    rewrite keys_app in *. simpl in *. assumption.
Qed.

Lemma deleteFromIndex_as_list (file : TFile) (index : Index) :
  JsMap.wf index ->
  deleteFromIndex file index = flat_map (remainingBinding file) index.
Proof.
  intros Hwf. unfold deleteFromIndex.
  apply (deleteFromIndex_loop file index []). assumption.
Qed.

Lemma remaining_keys (file : TFile) (index : Index) (k : string) :
  In k (JsMap.keys (flat_map (remainingBinding file) index)) -> In k (JsMap.keys index).
Proof.
  induction index as [|[k' es] index IH]; simpl; [tauto |].
  rewrite keys_app. intros Hin. apply in_app_or in Hin. destruct Hin as [Hin | Hin]; [| auto].
  unfold remainingBinding in Hin. simpl in Hin.
  destruct (entriesOfOthers file es); simpl in Hin; tauto.
Qed.

Lemma remaining_wf (file : TFile) (index : Index) :
  JsMap.wf index -> JsMap.wf (flat_map (remainingBinding file) index).
Proof.
  unfold JsMap.wf. induction index as [|[k es] index IH]; simpl; intros Hnd; [constructor |].
  inversion Hnd as [|? ? Hk Hnd']; subst.
  unfold remainingBinding at 1. simpl.
  destruct (entriesOfOthers file es); simpl; [auto |].
  constructor; [| auto]. intros Hin. apply Hk. eapply remaining_keys. eassumption.
Qed.

Lemma remaining_get (file : TFile) (index : Index) (k : string) :
  JsMap.wf index ->
  JsMap.get k (flat_map (remainingBinding file) index)
  = match JsMap.get k index with
    | Some bucket =>
        match entriesOfOthers file bucket with
        | [] => None
        | es => Some es
        end
    | None => None
    end.
Proof.
  unfold JsMap.wf. induction index as [|[k' es] index IH]; simpl; intros Hnd; [reflexivity |].
  inversion Hnd as [|? ? Hk Hnd']; subst.
  unfold remainingBinding at 1. simpl.
  destruct (String.eqb_spec k' k) as [-> | Hne].
  - destruct (entriesOfOthers file es) as [|e0 f]; simpl.
    + apply get_None_iff. intros Hin. apply Hk. eapply remaining_keys. eassumption.
    + now rewrite String.eqb_refl.
  - destruct (entriesOfOthers file es) as [|e0 f]; simpl; [auto |].
    destruct (String.eqb_spec k' k); [congruence | auto].
Qed.

Lemma entriesOfOthers_own (file : TFile) (bucket : list IndexEntry) :
  Forall (fun entry => notePath entry = path file) bucket ->
  entriesOfOthers file bucket = [].
Proof.
  unfold entriesOfOthers. induction 1 as [|e b He Hall IH]; simpl; [reflexivity |].
  rewrite He, String.eqb_refl. simpl. assumption.
Qed.

(** C6. For every index (a map: its keys are distinct) and every file,
    after [deleteFromIndex] the bucket under a key holds exactly the entries
    it held whose [notePath] is not the file's, in their order, and a key
    whose bucket has none left is gone: no key maps to an empty bucket, and
    a key whose entries all belonged to the file is absent. *)
Theorem deleteFromIndex_removes_exactly (index : Index) (file : TFile) :
  JsMap.wf index ->
  let index' := deleteFromIndex file index in
  (forall key,
      JsMap.get key index'
      = match JsMap.get key index with
        | Some bucket =>
            match entriesOfOthers file bucket with
            | [] => None
            | es => Some es
            end
        | None => None
        end)
  /\ noEmptyBuckets index'
  /\ (forall key bucket,
         JsMap.get key index = Some bucket ->
         Forall (fun entry => notePath entry = path file) bucket ->
         JsMap.get key index' = None)
  /\ JsMap.wf index'.
Proof.
  intros Hwf index'. unfold index'. rewrite deleteFromIndex_as_list by assumption.
  split; [| split; [| split]].
  - intros key. apply remaining_get. assumption.
  - intros key bucket. rewrite remaining_get by assumption.
    destruct (JsMap.get key index) as [b|]; [| discriminate].
    destruct (entriesOfOthers file b); [discriminate |]. intros [= <-]. discriminate.
  - intros key bucket Hget Hall. rewrite remaining_get, Hget by assumption.
    rewrite entriesOfOthers_own by assumption. reflexivity.
  - apply remaining_wf. assumption.
Qed.

(** ** Rename *)

Lemma renameInIndex_loop (file : TFile) (oldPath : string) (l pre : Index) :
  NoDup (JsMap.keys (pre ++ l)) ->
  fold_left (renameInIndexStep file oldPath) l (pre ++ l)
  = pre ++ map (renamedBinding file oldPath) l.
Proof.
  revert pre; induction l as [|[k es] l IH]; intros pre Hnd; [reflexivity |].
  assert (Hk : ~ In k (JsMap.keys pre)).
  { rewrite keys_app in Hnd. simpl in Hnd. apply NoDup_remove_2 in Hnd.
    intros Hin. apply Hnd. apply in_or_app. auto. }
  cbn [fold_left map]. unfold renameInIndexStep at 2, renamedBinding at 1. cbn [fst snd].
  rewrite set_at by assumption.
  specialize (IH (pre ++ [(k, map (renameEntry file oldPath) es)])).
  rewrite <- !app_assoc in IH. cbn [app] in IH. apply IH.
  rewrite keys_app in *. simpl in *. assumption.
Qed.

Lemma renameInIndex_as_list (file : TFile) (oldPath : string) (index : Index) :
  JsMap.wf index ->
  renameInIndex file oldPath index = map (renamedBinding file oldPath) index.
Proof.
  intros Hwf. apply (renameInIndex_loop file oldPath index []). assumption.
Qed.

(** What a rename does hold: the keys and their order stay, and in every
    bucket the entries of the old path get the new path and title while
    [type], [target] and [displayText] stay. *)
Lemma renameInIndex_keys_and_titles (file : TFile) (oldPath : string) (index : Index) :
  JsMap.wf index ->
  JsMap.keys (renameInIndex file oldPath index) = JsMap.keys index
  /\ (forall key,
         JsMap.get key (renameInIndex file oldPath index)
         = option_map (map (renameEntry file oldPath)) (JsMap.get key index))
  /\ (forall entry,
         notePath entry = oldPath ->
         noteTitle (renameEntry file oldPath entry) = basename file
         /\ notePath (renameEntry file oldPath entry) = path file
         /\ type (renameEntry file oldPath entry) = type entry
         /\ target (renameEntry file oldPath entry) = target entry
         /\ displayText (renameEntry file oldPath entry) = displayText entry).
Proof.
  intros Hwf. rewrite renameInIndex_as_list by assumption. split; [| split].
  - unfold JsMap.keys. rewrite map_map. apply map_ext. intros [k es]. reflexivity.
  - intros key. clear Hwf. induction index as [|[k es] index IH]; simpl; [reflexivity |].
    destruct (String.eqb k key); [reflexivity | assumption].
  - intros entry Hp. unfold renameEntry. rewrite Hp, String.eqb_refl. simpl. auto.
Qed.

(** C3. A title entry keeps its old target after a rename: with the note
    "Old" indexed and renamed to "New", the title entry has the new path and
    title but its [target] and [displayText] are still "Old", so the
    property claimed of a rename fails there.  [indexFile] on the renamed
    file derives both from the new title. *)
Theorem renameInIndex_title_target_stale :
  renameInIndex newNote "Old.md" (indexFile None oldNote emptyIndex)
  = [("old", [ {| type := title; notePath := "New.md"; noteTitle := "New";
                  target := "Old"; displayText := "Old"; score := None |} ])]
  /\ indexFile None newNote emptyIndex
     = [("new", [ {| type := title; notePath := "New.md"; noteTitle := "New";
                     target := "New"; displayText := "New"; score := None |} ])]
  /\ ~ renamedEntriesReflectTitle newNote
         (renameInIndex newNote "Old.md" (indexFile None oldNote emptyIndex)).
Proof.
  split; [reflexivity | split; [reflexivity |]].
  intros H.
  specialize (H "old" _ _ (or_introl eq_refl) (or_introl eq_refl) eq_refl).
  destruct H as [_ H]. destruct (H eq_refl) as [Ht _]. discriminate Ht.
Qed.

(** ** Link text *)

(** C8 as stated fails: for the tag entry of "travel" (display text
    "#travel") and the phrase "trav", both paths produce [[[travel|trav]]],
    whose shown text is the phrase and not the entry's display text. *)
Lemma tag_link_counterexample :
  selectSuggestionLinkText travelTag "trav" = "[[travel|trav]]"
  /\ quickLinkText travelTag "trav" = "[[travel|trav]]"
  /\ selectSuggestionLinkText travelTag "trav"
     <> wikiLink (target travelTag) (displayText travelTag)
  /\ quickLinkText travelTag "trav"
     <> wikiLink (target travelTag) (displayText travelTag).
Proof. repeat split; try reflexivity; discriminate. Qed.

(** C8, amended. For every tag entry and every matched phrase, both paths
    produce the link whose destination is the entry's target (the tag name)
    and whose shown text is the matched phrase. *)
Theorem tag_link_shows_phrase (item : IndexEntry) (phrase : string) :
  type item = tag ->
  selectSuggestionLinkText item phrase = wikiLink (target item) phrase
  /\ quickLinkText item phrase = wikiLink (target item) phrase.
Proof.
  intros Ht. unfold selectSuggestionLinkText, quickLinkText, wikiLink.
  rewrite Ht. split; reflexivity.
Qed.

Lemma tag_link_shows_phrase_witness :
  selectSuggestionLinkText travelTag "trav" = wikiLink "travel" "trav"
  /\ quickLinkText travelTag "trav" = wikiLink "travel" "trav".
Proof. apply (tag_link_shows_phrase travelTag "trav"). reflexivity. Defined.

(** ** Cursor-to-word resolution *)

Lemma atWordEnd_touches (c : Z) (w : Token) :
  start w <= end_ w -> atWordEnd c w = true -> touches c w = true.
Proof.
  unfold atWordEnd, touches. intros Hle Hc.
  apply Z.eqb_eq in Hc. subst c.
  apply andb_true_iff. split; [apply Z.geb_le | apply Z.leb_le]; lia.
Qed.

Lemma fallback_finds_nothing (wordsWithIndices : list Token) (c : Z) :
  Forall (fun w => start w <= end_ w) wordsWithIndices ->
  findIndex (touches c) wordsWithIndices = None ->
  findIndex (atWordEnd c) wordsWithIndices = None.
Proof.
  unfold findIndex. intros Hwf Hnone.
  apply findIndexFrom_none in Hnone. apply findIndexFrom_none.
  induction Hwf as [|w l Hw Hwf IH]; simpl in *; [reflexivity |].
  apply orb_false_iff in Hnone. destruct Hnone as [Hw' Hl].
  apply orb_false_iff. split; [| auto].
  destruct (atWordEnd c w) eqn:He; [| reflexivity].
  rewrite (atWordEnd_touches c w Hw He) in Hw'. discriminate.
Qed.

Lemma tokensOfMatches_ordered (ms : list RegExpMatch) :
  Forall (fun w => start w <= end_ w) (tokensOfMatches ms).
Proof.
  unfold tokensOfMatches. apply Forall_forall. intros w Hw.
  apply in_map_iff in Hw. destruct Hw as [m [<- _]]. simpl. lia.
Qed.

(** C10. For every token list the tokenizer loop builds and every cursor
    offset, when the search for a token with [start <= cursor <= end] finds
    none, the search for a token with [cursor = end] finds none either, so
    resolution gives the same result with and without the second search. *)
Theorem locateCursorWord_fallback_redundant (ms : list RegExpMatch) (cursorInSentence : Z) :
  let wordsWithIndices := tokensOfMatches ms in
  (findIndex (touches cursorInSentence) wordsWithIndices = None ->
   findIndex (atWordEnd cursorInSentence) wordsWithIndices = None)
  /\ locateCursorWord wordsWithIndices cursorInSentence
     = locateCursorWordPrimary wordsWithIndices cursorInSentence.
Proof.
  intros wordsWithIndices.
  assert (H : findIndex (touches cursorInSentence) wordsWithIndices = None ->
              findIndex (atWordEnd cursorInSentence) wordsWithIndices = None).
  { apply fallback_finds_nothing, tokensOfMatches_ordered. }
  split; [exact H |].
  unfold locateCursorWord, locateCursorWordPrimary.
  destruct (findIndex (touches cursorInSentence) wordsWithIndices) eqn:Hp;
    [reflexivity | apply H; reflexivity].
Qed.

(** ** Debounce timer *)

Lemma callbacks_keep_timers (getFileCache : TFile -> option CachedMetadata)
  (due : list Timer) (st : PluginState) :
  let st' := fold_left (fun s t => reindexCallback getFileCache (timerFile t) s) due st in
  pendingTimers st' = pendingTimers st /\ debounceTimeout st' = debounceTimeout st.
Proof.
  revert st; induction due as [|t due IH]; intros st; simpl; [auto |].
  destruct (IH (reindexCallback getFileCache (timerFile t) st)) as [H1 H2].
  simpl in *. rewrite H1, H2. auto.
Qed.

Lemma step_singlePending (getFileCache : TFile -> option CachedMetadata)
  (st : PluginState) (ev : HostEvent) :
  singlePending st -> singlePending (step getFileCache st ev).
Proof.
  unfold singlePending. intros Hinv. destruct ev as [file | ms]; simpl.
  - right. unfold debouncedIndexUpdate. simpl.
    destruct Hinv as [Hnil | [t [Ht Hid]]].
    + rewrite Hnil. exists (mkTimer (nextTimerId st) (clock st + 300) file).
      destruct (debounceTimeout st); simpl; auto.
    + rewrite Ht, Hid. simpl. rewrite Nat.eqb_refl. simpl.
      exists (mkTimer (nextTimerId st) (clock st + 300) file). auto.
  - unfold timePasses.
    match goal with
    | |- context [fold_left ?f ?due ?st0] =>
        destruct (callbacks_keep_timers getFileCache due st0) as [H1 H2]
    end.
    simpl in H1, H2. rewrite H1, H2.
    destruct Hinv as [Hnil | [t [Ht Hid]]].
    + left. rewrite Hnil. reflexivity.
    + rewrite Ht. simpl. destruct (fireAt t <=? clock st + ms); simpl; [auto |].
      right. exists t. auto.
Qed.

(** Whatever the files, a change event leaves no other timer pending: at
    most one re-index is ever scheduled. *)
Lemma run_singlePending (getFileCache : TFile -> option CachedMetadata)
  (index : Index) (evs : list HostEvent) :
  List.length (pendingTimers (run getFileCache (initialState index) evs)) <= 1.
Proof.
  assert (H : singlePending (run getFileCache (initialState index) evs)).
  { unfold run. generalize (initialState index) (or_introl eq_refl : singlePending (initialState index)).
    induction evs as [|ev evs IH]; intros st Hst; simpl; [assumption |].
    apply IH. apply step_singlePending. assumption. }
  destruct H as [-> | [t [-> _]]]; simpl; lia.
Qed.

(** C9. One timer handle serves every file: when note A changes and note B
    changes 100 ms later, B's event clears A's pending timer, and after the
    window has passed only B has been re-indexed; A, whose change came
    first, never is.  Two changes of the same note collapse into one
    re-index. *)
Theorem debounce_drops_other_document :
  let final := run noMetadata (initialState emptyIndex) twoDocumentsInWindow in
  reindexed final = ["B.md"]
  /\ reindexCount "A.md" final = 0
  /\ reindexCount "B.md" final = 1
  /\ pendingTimers final = []
  /\ JsMap.get "a" (pluginIndex final) = None
  /\ reindexCount "A.md"
       (run noMetadata (initialState emptyIndex) oneDocumentTwice) = 1.
Proof. vm_compute. repeat split; reflexivity. Qed.

(** ** Sentence scanner *)

Lemma scanBack_spec (line : string) (n : nat) :
  (scanBack line n = 0 /\ forall i, i < n -> ~ terminatorAt line i)
  \/ (0 < scanBack line n <= n /\ terminatorAt line (scanBack line n - 1)
      /\ forall i, scanBack line n <= i < n -> ~ terminatorAt line i).
Proof.
  unfold terminatorAt. induction n as [|n IH]; simpl.
  - left. split; [reflexivity | intros i Hi; lia].
  - destruct (testAt isTerminator line n) eqn:Hn.
    + right. split; [lia | split].
      * simpl. rewrite Nat.sub_0_r. assumption.
      * intros i Hi. lia.
    + destruct IH as [[H0 Hno] | [Hpos [Ht Hno]]].
      * left. split; [assumption |]. intros i Hi.
        destruct (Nat.eq_dec i n) as [-> | Hne]; [congruence | apply Hno; lia].
      * right. split; [lia | split; [assumption |]]. intros i Hi.
        destruct (Nat.eq_dec i n) as [-> | Hne]; [congruence | apply Hno; lia].
Qed.

Lemma scanForward_spec (line : string) (fuel i : nat) :
  i + fuel = String.length line ->
  (scanForward line fuel i = String.length line
   /\ forall j, i <= j < String.length line -> ~ terminatorAt line j)
  \/ (i <= scanForward line fuel i < String.length line
      /\ terminatorAt line (scanForward line fuel i)
      /\ forall j, i <= j < scanForward line fuel i -> ~ terminatorAt line j).
Proof.
  unfold terminatorAt. revert i; induction fuel as [|fuel IH]; intros i Hlen; simpl.
  - left. split; [reflexivity | intros j Hj; lia].
  - destruct (testAt isTerminator line i) eqn:Hi.
    + right. split; [lia | split; [assumption | intros j Hj; lia]].
    + destruct (IH (S i) ltac:(lia)) as [[He Hno] | [Hr [Ht Hno]]].
      * left. split; [assumption |]. intros j Hj.
        destruct (Nat.eq_dec j i) as [-> | Hne]; [congruence | apply Hno; lia].
      * right. split; [lia | split; [assumption |]]. intros j Hj.
        destruct (Nat.eq_dec j i) as [-> | Hne]; [congruence | apply Hno; lia].
Qed.

Lemma trimLeading_spec (line : string) (fuel a b : nat) :
  a <= b -> b - a <= fuel ->
  let a' := trimLeading line fuel a b in
  a <= a' /\ a' <= b
  /\ (forall i, a <= i < a' -> whitespaceAt line i)
  /\ (a' < b -> ~ whitespaceAt line a').
Proof.
  unfold whitespaceAt. revert a; induction fuel as [|fuel IH]; intros a Hab Hfuel; simpl.
  - split; [lia | split; [lia | split]]; intros; lia.
  - destruct (Nat.ltb_spec a b) as [Hlt | Hge]; simpl.
    + destruct (testAt isWhitespace line a) eqn:Hw.
      * destruct (IH (S a) ltac:(lia) ltac:(lia)) as [H1 [H2 [H3 H4]]].
        split; [lia | split; [lia | split; [| assumption]]].
        intros i Hi. destruct (Nat.eq_dec i a) as [-> | Hne]; [assumption | apply H3; lia].
      * split; [lia | split; [lia | split; [intros; lia | intros _; congruence]]].
    + split; [lia | split; [lia | split]]; intros; lia.
Qed.

Lemma trimTrailing_spec (line : string) (a b : nat) :
  a <= b ->
  let b' := trimTrailing line a b in
  a <= b' /\ b' <= b
  /\ (forall i, b' <= i < b -> whitespaceAt line i)
  /\ (a < b' -> ~ whitespaceAt line (b' - 1)).
Proof.
  unfold whitespaceAt. induction b as [|b IH]; intros Hab.
  - simpl. split; [lia | split; [lia | split]]; intros; lia.
  - cbn [trimTrailing]. destruct (Nat.ltb_spec a (S b)) as [Hlt | Hge]; cbn [andb].
    + destruct (testAt isWhitespace line b) eqn:Hw.
      * destruct (IH ltac:(lia)) as [H1 [H2 [H3 H4]]].
        split; [lia | split; [lia | split; [| assumption]]].
        intros i Hi. destruct (Nat.eq_dec i b) as [-> | Hne]; [assumption | apply H3; lia].
      * split; [lia | split; [lia | split; [intros; lia |]]].
        intros _. simpl. rewrite Nat.sub_0_r. congruence.
    + split; [lia | split; [lia | split]]; intros; lia.
Qed.

Lemma untrimmed_between (line : string) (cursorCh : nat) :
  cursorCh <= String.length line ->
  betweenTerminators line cursorCh
    (untrimmedStart line cursorCh) (untrimmedEnd line cursorCh).
Proof.
  intros Hc. split.
  - apply scanBack_spec.
  - apply scanForward_spec. lia.
Qed.

Lemma untrimmed_ordered (line : string) (cursorCh : nat) :
  cursorCh <= String.length line ->
  untrimmedStart line cursorCh <= cursorCh <= untrimmedEnd line cursorCh.
Proof.
  intros Hc. destruct (untrimmed_between line cursorCh Hc) as [Hs He]. lia.
Qed.

(** The suggestion path meets the specification of the sentence scan: for
    every line and in-bounds cursor the span lies between the nearest
    terminators around the cursor and is trimmed at both ends. *)
Lemma scanSentenceSuggest_meets_spec (line : string) (cursorCh : nat) :
  cursorCh <= String.length line ->
  sentenceSpec line cursorCh (scanSentenceSuggest line cursorCh).
Proof.
  intros Hc.
  exists (untrimmedStart line cursorCh), (untrimmedEnd line cursorCh).
  pose proof (untrimmed_ordered line cursorCh Hc) as Hord.
  split; [apply untrimmed_between; assumption |].
  unfold scanSentenceSuggest. cbn [sentenceStart sentenceEnd sentence].
  set (a := untrimmedStart line cursorCh) in *. set (b := untrimmedEnd line cursorCh) in *.
  destruct (trimLeading_spec line (b - a) a b ltac:(lia) ltac:(lia)) as [L1 [L2 [L3 L4]]].
  set (a' := trimLeading line (b - a) a b) in *.
  destruct (trimTrailing_spec line a' b L2) as [T1 [T2 [T3 T4]]].
  set (b' := trimTrailing line a' b) in *.
  split.
  - unfold trimmedSpan.
    split; [assumption | split; [assumption | split; [assumption |]]].
    split; [assumption | split; [assumption |]].
    intros Hlt. split; [apply L4; lia | apply T4; assumption].
  - unfold jsSubstring. rewrite Nat.min_l, Nat.max_r by lia. reflexivity.
Qed.

(** A line without a terminator: the sentence is the whole line, trimmed. *)
Lemma scanSentenceSuggest_no_terminator (line : string) (cursorCh : nat) :
  cursorCh <= String.length line ->
  (forall i, ~ terminatorAt line i) ->
  trimmedSpan line 0 (String.length line)
    (sentenceStart (scanSentenceSuggest line cursorCh))
    (sentenceEnd (scanSentenceSuggest line cursorCh)).
Proof.
  intros Hc Hno.
  destruct (scanSentenceSuggest_meets_spec line cursorCh Hc) as [a [b [[Ha Hb] [Ht _]]]].
  assert (a = 0) as ->.
  { destruct Ha as [[-> _] | [_ [Hta _]]]; [reflexivity | exfalso; eapply Hno; eassumption]. }
  assert (b = String.length line) as ->.
  { destruct Hb as [[-> _] | [_ [Htb _]]]; [reflexivity | exfalso; eapply Hno; eassumption]. }
  assumption.
Qed.

(** C4. The immediate-link path does not trim trailing white space: on the
    line "Visit Rome " with the cursor inside "Rome" it returns the span
    [[0, 11)], "Visit Rome " with the trailing space, where the suggestion
    path returns [[0, 10)], "Visit Rome"; so the sentence scan of the
    specification does not hold of the immediate-link path there. *)
Theorem scanSentenceQuickLink_keeps_trailing_space :
  scanSentenceQuickLink "Visit Rome " 8
  = {| sentenceStart := 0; sentenceEnd := 11; sentence := "Visit Rome " |}
  /\ scanSentenceSuggest "Visit Rome " 8
     = {| sentenceStart := 0; sentenceEnd := 10; sentence := "Visit Rome" |}
  /\ ~ sentenceSpec "Visit Rome " 8 (scanSentenceQuickLink "Visit Rome " 8).
Proof.
  split; [reflexivity | split; [reflexivity |]].
  intros [a [b [_ [Ht _]]]].
  destruct Ht as [_ [_ [_ [_ [_ Hends]]]]].
  cbn in Hends. destruct (Hends ltac:(lia)) as [_ Hlast].
  apply Hlast. reflexivity.
Qed.

(** ** Examples of the specification *)

Example normalize_cafe :
  normalizeText (String "C" (String "a" (String "f" (String (ascii_of_N 0xE9) ""))))
  = normalizeText "cafe".
Proof. reflexivity. Qed.

Example suggestions_pra :
  map displayText (getSuggestions travelIndex "pra") = ["Prague"]
  /\ map displayText (getSuggestions travelIndex "pa") = ["Paris"; "Prague"]
  /\ map displayText (getSuggestions travelIndex "trav") = ["#travel"].
Proof. vm_compute. repeat split; reflexivity. Qed.

Example sentence_visit_rome :
  sentence (scanSentenceSuggest "See Paris. Visit Rome." 19) = "Visit Rome".
Proof. reflexivity. Qed.

Example suggestion_for_paris :
  onTrigger visitedParisMatches "" (indexFile None parisNote emptyIndex)
    "I visited Paris." 15
  = Some {| triggerStartCh := 10; triggerEndCh := 15; triggerQuery := "Paris" |}
  /\ map target (getSuggestions (indexFile None parisNote emptyIndex) "Paris") = ["Paris"].
Proof. vm_compute. split; reflexivity. Qed.

(** ** Instances at concrete inputs *)

Lemma addToIndex_deduplicates_witness :
  addToIndex "Paris" parisTitle (indexFile None parisNote emptyIndex)
  = indexFile None parisNote emptyIndex
  /\ bucketsUnique (insertAll [("Paris", parisTitle); ("PARIS", parisTitle)] emptyIndex).
Proof.
  destruct (addToIndex_deduplicates (indexFile None parisNote emptyIndex) "Paris" parisTitle
              [("Paris", parisTitle); ("PARIS", parisTitle)]) as [H1 [_ H3]].
  split; [apply H1; reflexivity | exact H3].
Defined.

Lemma travelIndex_wf : JsMap.wf travelIndex.
Proof.
  unfold JsMap.wf. cbv.
  repeat (constructor; [cbv; intuition discriminate |]). constructor.
Defined.

Lemma deleteFromIndex_removes_exactly_witness :
  JsMap.wf travelIndex
  /\ JsMap.get "paris" (deleteFromIndex parisNote travelIndex) = None
  /\ JsMap.get "travel" (deleteFromIndex parisNote travelIndex) = None
  /\ noEmptyBuckets (deleteFromIndex parisNote travelIndex).
Proof.
  destruct (deleteFromIndex_removes_exactly travelIndex parisNote travelIndex_wf)
    as [H1 [H2 _]].
  split; [exact travelIndex_wf |].
  split; [rewrite H1; reflexivity |].
  split; [rewrite H1; reflexivity | exact H2].
Defined.

(* ------------------------------------------------------------------------- *)
(** * Further properties *)

(** ** Normalizer *)




(** ** The fuzzy test *)

Lemma Subsequence_refl (l : list ascii) : Subsequence l l.
Proof. induction l; constructor; assumption. Qed.

Lemma Subsequence_trans (a b c : list ascii) :
  Subsequence a b -> Subsequence b c -> Subsequence a c.
Proof.
  intros Hab Hbc. revert a Hab.
  induction Hbc as [c | x b c Hbc IH | x b c Hbc IH]; intros a Hab.
  - inversion Hab; subst. constructor.
  - inversion Hab; subst.
    + constructor.
    + apply Subsequence_take. apply IH. assumption.
    + apply Subsequence_skip. apply IH. assumption.
  - apply Subsequence_skip. apply IH. assumption.
Qed.

Lemma lowerChar_idempotent (c : ascii) : lowerChar (lowerChar c) = lowerChar c.
Proof. each_ascii c; vm_compute; reflexivity. Qed.

Lemma toLowerCase_idempotent (s : string) : toLowerCase (toLowerCase s) = toLowerCase s.
Proof.
  unfold toLowerCase. induction s as [|c s IH]; simpl; [reflexivity |].
  now rewrite IH, lowerChar_idempotent.
Qed.

(** X4. The fuzzy test is a preorder on texts that ignores case: the empty
    query matches every text, every text matches itself, matches compose,
    and lowering either side changes nothing. *)
Theorem fuzzyMatch_preorder (a b c : string) :
  fuzzyMatch "" a = true
  /\ fuzzyMatch a a = true
  /\ (fuzzyMatch a b = true -> fuzzyMatch b c = true -> fuzzyMatch a c = true)
  /\ fuzzyMatch (toLowerCase a) (toLowerCase b) = fuzzyMatch a b.
Proof.
  split; [reflexivity | split; [| split]].
  - apply fuzzyMatch_spec. apply Subsequence_refl.
  - rewrite !fuzzyMatch_spec. apply Subsequence_trans.
  - unfold fuzzyMatch. rewrite !toLowerCase_idempotent. reflexivity.
Qed.

Lemma fuzzyMatch_preorder_witness :
  fuzzyMatch "pg" "prague" = true /\ fuzzyMatch "prague" "Prague Castle" = true
  /\ fuzzyMatch "pg" "Prague Castle" = true.
Proof.
  destruct (fuzzyMatch_preorder "pg" "prague" "Prague Castle") as [_ [_ [Ht _]]].
  split; [reflexivity | split; [reflexivity |]].
  apply Ht; reflexivity.
Defined.

(** ** The matcher *)

Lemma keepFirstOccurrence_seen_block (X l seen : list IndexEntry) :
  (forall x, In x X -> In (triple x) (map triple seen)) ->
  keepFirstOccurrence seen (X ++ l) = keepFirstOccurrence seen l.
Proof.
  induction X as [|x X IH]; intros Hseen; simpl; [reflexivity |].
  assert (existsb (sameTriple x) seen = true) as ->.
  { apply existsb_sameTriple_iff. apply Hseen. simpl. auto. }
  apply IH. intros y Hy. apply Hseen. simpl. auto.
Qed.

Lemma fuzzy_pass_of_other_keys (nq : string) (index : Index) (seen : list IndexEntry) :
  (forall key entries e,
      In (key, entries) index -> startsWith key nq = true -> In e entries ->
      In (triple e) (map triple seen)) ->
  keepFirstOccurrence seen (fuzzyMatches nq index)
  = keepFirstOccurrence seen (fuzzyMatchesOfOtherKeys nq index).
Proof.
  revert seen; induction index as [|[key entries] index IH]; intros seen Hseen;
    [reflexivity |].
  unfold fuzzyMatches, fuzzyMatchesOfOtherKeys. cbn [flat_map].
  fold (fuzzyMatches nq index). fold (fuzzyMatchesOfOtherKeys nq index).
  assert (Hrest : forall key' entries' e,
             In (key', entries') index -> startsWith key' nq = true -> In e entries' ->
             In (triple e) (map triple seen)).
  { intros key' entries' e Hin. apply Hseen. simpl. auto. }
  destruct (startsWith key nq) eqn:Hp; cbn [negb andb].
  - cbn [app]. rewrite <- (IH seen Hrest).
    destruct (fuzzyMatch nq key); [| reflexivity].
    apply keepFirstOccurrence_seen_block. intros x Hx.
    apply in_map_iff in Hx. destruct Hx as [e [<- He]]. rewrite triple_withScore.
    apply (Hseen key entries e); simpl; auto.
  - destruct (fuzzyMatch nq key); [| apply IH; assumption].
    rewrite !keepFirstOccurrence_app. f_equal.
    apply IH. intros key' entries' e Hin Hp' He.
    rewrite map_app. apply in_or_app. right. eapply Hrest; eassumption.
Qed.

(** X5. The fuzzy pass may skip the keys that the prefix pass took without
    any change to the suggestions: the entries of such a key are in the
    result of the prefix pass already, and the later copy is dropped. *)
Theorem getSuggestions_fuzzy_pass_redundant (index : Index) (query : string) :
  getSuggestions index query
  = (let nq := normalizeText query in
     if isEmpty nq then []
     else firstn 100
            (uniqueMatches (exactMatches nq index ++ fuzzyMatchesOfOtherKeys nq index))).
Proof.
  unfold getSuggestions. cbv zeta.
  destruct (isEmpty (normalizeText query)); [reflexivity |].
  rewrite !uniqueMatches_spec, !keepFirstOccurrence_app. do 2 f_equal.
  apply fuzzy_pass_of_other_keys. intros k entries e Hin Hp He.
  rewrite app_nil_r, map_rev. apply in_rev. rewrite rev_involutive.
  change (triple e) with (triple (withScore 0 e)). apply in_map.
  apply exactMatches_in. exists k, entries, e. auto.
Qed.

Lemma keepFirstOccurrence_length (l seen : list IndexEntry) :
  List.length (keepFirstOccurrence seen l) <= List.length l.
Proof.
  revert seen; induction l as [|x l IH]; intros seen; simpl; [lia |].
  destruct (existsb (sameTriple x) seen); simpl.
  - specialize (IH seen). lia.
  - specialize (IH (x :: seen)). lia.
Qed.

Lemma keepFirstOccurrence_covers (l seen : list IndexEntry) (x : IndexEntry) :
  In x l ->
  In (triple x) (map triple seen)
  \/ In (triple x) (map triple (keepFirstOccurrence seen l)).
Proof.
  revert seen; induction l as [|y l IH]; intros seen; simpl; [tauto |].
  intros [-> | Hx].
  - destruct (existsb (sameTriple x) seen) eqn:Hs.
    + left. apply existsb_sameTriple_iff. assumption.
    + right. simpl. auto.
  - destruct (existsb (sameTriple y) seen) eqn:Hs.
    + apply IH. assumption.
    + destruct (IH (y :: seen) Hx) as [[<- | Hin] | Hin]; simpl; auto.
Qed.



(** X7. Every suggestion is an entry of the index with a score added: score
    0 when it comes from a key that starts with the normalized query, and
    score 0.5 when it comes from a key that passes the fuzzy test while no
    entry with its triple lies under a key that starts with the query. *)
Theorem getSuggestions_scores (index : Index) (query : string) (e : IndexEntry) :
  In e (getSuggestions index query) ->
  let nq := normalizeText query in
  exists key entries e0,
    In (key, entries) index /\ In e0 entries
    /\ ((e = withScore 0 e0 /\ startsWith key nq = true)
        \/ (e = withScore (1 # 2) e0 /\ fuzzyMatch nq key = true
            /\ ~ prefixMatched index nq e)).
Proof.
  intros He nq. unfold getSuggestions in He. fold nq in He.
  destruct (isEmpty nq); [destruct He |].
  rewrite uniqueMatches_spec in He.
  destruct (prefix_part_then_fuzzy_part (exactMatches nq index) (fuzzyMatches nq index) 100)
    as [A [B [Heq [HA HB]]]].
  rewrite Heq in He. apply in_app_or in He. destruct He as [He | He].
  - apply HA, exactMatches_in in He.
    destruct He as [key [entries [e0 [H1 [H2 [H3 H4]]]]]].
    exists key, entries, e0. auto.
  - apply HB in He. destruct He as [He Hn]. apply fuzzyMatches_in in He.
    destruct He as [key [entries [e0 [H1 [H2 [H3 H4]]]]]].
    exists key, entries, e0. split; [assumption | split; [assumption |]].
    right. split; [assumption | split; [assumption |]].
    intros Hp. apply Hn. apply prefixMatched_iff. assumption.
Qed.

Lemma getSuggestions_scores_witness :
  exists key entries e0,
    In (key, entries) travelIndex /\ In e0 entries
    /\ ((withScore 0 travelTag = withScore 0 e0 /\ startsWith key (normalizeText "trav") = true)
        \/ (withScore 0 travelTag = withScore (1 # 2) e0
            /\ fuzzyMatch (normalizeText "trav") key = true
            /\ ~ prefixMatched travelIndex (normalizeText "trav") (withScore 0 travelTag))).
Proof.
  apply (getSuggestions_scores travelIndex "trav" (withScore 0 travelTag)).
  vm_compute. left. reflexivity.
Defined.

(** X8. When the two passes collect no more than 100 entries, nothing is
    lost: every entry under a key that starts with the normalized query or
    passes the fuzzy test has a suggestion with its triple. *)
Theorem getSuggestions_complete
  (index : Index) (query key : string) (entries : list IndexEntry) (e0 : IndexEntry) :
  let nq := normalizeText query in
  nq <> "" ->
  List.length (exactMatches nq index ++ fuzzyMatches nq index) <= 100 ->
  In (key, entries) index -> In e0 entries ->
  startsWith key nq = true \/ fuzzyMatch nq key = true ->
  exists e, In e (getSuggestions index query) /\ triple e = triple e0.
Proof.
  intros nq Hne Hlen Hin He0 Hmatch.
  unfold getSuggestions. fold nq.
  destruct nq as [|c nq'] eqn:Hnq; [congruence |]. cbn [isEmpty]. rewrite <- Hnq in *.
  rewrite uniqueMatches_spec.
  rewrite firstn_all2
    by (etransitivity; [apply keepFirstOccurrence_length | exact Hlen]).
  assert (Hall : exists x, In x (exactMatches nq index ++ fuzzyMatches nq index)
                           /\ triple x = triple e0).
  { destruct Hmatch as [Hp | Hf].
    - exists (withScore 0 e0). split; [| reflexivity]. apply in_or_app. left.
      apply exactMatches_in. exists key, entries, e0. auto.
    - exists (withScore (1 # 2) e0). split; [| reflexivity]. apply in_or_app. right.
      apply fuzzyMatches_in. exists key, entries, e0. auto. }
  destruct Hall as [x [Hx Ht]].
  destruct (keepFirstOccurrence_covers _ [] x Hx) as [[] | Hcov].
  apply in_map_iff in Hcov. destruct Hcov as [e [Hte Hine]].
  exists e. split; [assumption | congruence].
Qed.

Lemma getSuggestions_complete_witness :
  exists e, In e (getSuggestions travelIndex "pa") /\ triple e = triple (titleEntry parisNote).
Proof.
  apply (getSuggestions_complete travelIndex "pa" "paris" [titleEntry parisNote]
           (titleEntry parisNote)).
  - discriminate.
  - vm_compute. repeat constructor.
  - vm_compute. left. reflexivity.
  - left. reflexivity.
  - left. reflexivity.
Defined.

(** ** The map, continued *)

Section JsMapMore.
Context {V : Type}.
Implicit Types (m : JsMap.t V) (k : string) (v : V).

Lemma keys_set k v m :
  JsMap.keys (JsMap.set k v m)
  = if existsb (String.eqb k) (JsMap.keys m) then JsMap.keys m else JsMap.keys m ++ [k].
Proof.
  induction m as [|[k' v'] m IH]; simpl; [reflexivity |].
  rewrite (String.eqb_sym k k').
  destruct (String.eqb_spec k' k) as [-> | Hne]; simpl; [reflexivity |].
  rewrite IH. destruct (existsb (String.eqb k) (JsMap.keys m)); reflexivity.
Qed.


Lemma wf_set k v m : JsMap.wf m -> JsMap.wf (JsMap.set k v m).
Proof.
  unfold JsMap.wf. rewrite keys_set.
  destruct (existsb (String.eqb k) (JsMap.keys m)) eqn:Hex; [auto |].
  intros Hnd. apply NoDup_app; [assumption | repeat constructor; simpl; tauto |].
  intros a Ha [Heq | []]. subst a.
  assert (Hc : existsb (String.eqb k) (JsMap.keys m) = true).
  { apply existsb_exists. exists k. split; [assumption | apply String.eqb_refl]. }
  congruence.
Qed.

End JsMapMore.

(** ** Insertion, continued *)

Lemma bucketOf_addToIndex_same (index : Index) (key : string) (entry : IndexEntry) :
  bucketOf (normalizeText key) (addToIndex key entry index)
  = if existsb (sameTriple entry) (bucketOf (normalizeText key) index)
    then bucketOf (normalizeText key) index
    else bucketOf (normalizeText key) index ++ [entry].
Proof.
  unfold addToIndex, bucketOf at 1. rewrite get_set_same.
  unfold bucketOf.
  destruct (JsMap.get (normalizeText key) index) as [es|];
    match goal with |- context [existsb ?p ?l] => destruct (existsb p l) end;
    reflexivity.
Qed.

Lemma bucketOf_addToIndex_other (index : Index) (key k : string) (entry : IndexEntry) :
  k <> normalizeText key ->
  bucketOf k (addToIndex key entry index) = bucketOf k index.
Proof.
  intros Hne. unfold bucketOf, addToIndex. rewrite get_set_other by assumption. reflexivity.
Qed.

Lemma addToIndex_finds (index : Index) (key : string) (entry : IndexEntry) :
  existsb (sameTriple entry) (bucketOf (normalizeText key) (addToIndex key entry index))
  = true.
Proof.
  rewrite bucketOf_addToIndex_same.
  destruct (existsb (sameTriple entry) (bucketOf (normalizeText key) index)) eqn:Hex;
    [assumption |].
  rewrite existsb_app. simpl. rewrite sameTriple_refl. apply orb_true_r.
Qed.

(** Buckets only grow under insertion. *)
Lemma addToIndex_monotone (index : Index) (key k : string) (entry e : IndexEntry) :
  existsb (sameTriple e) (bucketOf k index) = true ->
  existsb (sameTriple e) (bucketOf k (addToIndex key entry index)) = true.
Proof.
  intros H. destruct (String.eqb_spec k (normalizeText key)) as [-> | Hne].
  - rewrite bucketOf_addToIndex_same.
    destruct (existsb (sameTriple entry) (bucketOf (normalizeText key) index));
      [assumption |].
    rewrite existsb_app, H. reflexivity.
  - rewrite bucketOf_addToIndex_other by assumption. assumption.
Qed.

(** X9. After [addToIndex] the bucket of the normalized key holds an entry
    with the inserted triple; it is the old bucket, with the entry at its
    end when the triple is new; the other buckets are as before; and
    inserting the same entry again changes nothing. *)
Theorem addToIndex_lookup (index : Index) (key : string) (entry : IndexEntry) :
  let index' := addToIndex key entry index in
  existsb (sameTriple entry) (bucketOf (normalizeText key) index') = true
  /\ bucketOf (normalizeText key) index'
     = (if existsb (sameTriple entry) (bucketOf (normalizeText key) index)
        then bucketOf (normalizeText key) index
        else bucketOf (normalizeText key) index ++ [entry])
  /\ (forall k, k <> normalizeText key -> JsMap.get k index' = JsMap.get k index)
  /\ addToIndex key entry index' = index'.
Proof.
  intros index'. split; [apply addToIndex_finds | split; [| split]].
  - apply bucketOf_addToIndex_same.
  - intros k Hne. unfold index', addToIndex. apply get_set_other. assumption.
  - apply addToIndex_present. apply addToIndex_finds.
Qed.

Lemma addToIndex_lookup_witness :
  JsMap.get "prague" (addToIndex "Paris" parisTitle travelIndex)
  = JsMap.get "prague" travelIndex.
Proof.
  apply (proj1 (proj2 (proj2 (addToIndex_lookup travelIndex "Paris" parisTitle)))).
  discriminate.
Defined.

(** ** Indexing a file *)

Lemma insertAll_app (l1 l2 : list (string * IndexEntry)) (index : Index) :
  insertAll (l1 ++ l2) index = insertAll l2 (insertAll l1 index).
Proof. unfold insertAll. apply fold_left_app. Qed.

Lemma insertAll_map {A : Type} (f : A -> string * IndexEntry) (l : list A) (index : Index) :
  insertAll (map f l) index
  = fold_left (fun idx a => addToIndex (fst (f a)) (snd (f a)) idx) l index.
Proof.
  unfold insertAll. revert index; induction l as [|a l IH]; intros index; simpl;
    [reflexivity |].
  rewrite <- IH. destruct (f a). reflexivity.
Qed.

(** [indexFile] is the sequence of insertions of the file's entries. *)
Lemma indexFile_as_insertions (metadata : option CachedMetadata) (file : TFile) (index : Index) :
  indexFile metadata file index
  = if String.eqb (extension file) "md"
    then insertAll (entriesOfFile metadata file) index
    else index.
Proof.
  unfold indexFile, entriesOfFile.
  destruct (String.eqb (extension file) "md"); cbn [negb]; [| reflexivity].
  change (insertAll ((basename file, titleEntry file) :: ?l) index)
    with (insertAll l (addToIndex (basename file) (titleEntry file) index)).
  destruct metadata as [m|]; [| reflexivity].
  rewrite !insertAll_app, !insertAll_map. cbn [fst snd].
  generalize (fold_left
                (fun idx h => addToIndex h (headingEntry file h) idx)
                match headings m with Some hs => hs | None => [] end
                (fold_left
                   (fun idx t => addToIndex (trim t) (tagEntry file (trim t)) idx)
                   (tagList m) (addToIndex (basename file) (titleEntry file) index))).
  generalize (match sections m with Some ss => ss | None => [] end).
  intros ss. induction ss as [|sid ss IH]; intros idx; [reflexivity |].
  cbn [fold_left flat_map]. rewrite insertAll_app, IH.
  destruct sid as [id|]; [| reflexivity].
  destruct (isEmpty id); reflexivity.
Qed.

Lemma entriesOfFile_own (metadata : option CachedMetadata) (file : TFile)
  (key : string) (e : IndexEntry) :
  In (key, e) (entriesOfFile metadata file) ->
  notePath e = path file /\ noteTitle e = basename file /\ score e = None.
Proof.
  unfold entriesOfFile. intros [[= <- <-] | Hin]; [auto |].
  destruct metadata as [m|]; [| destruct Hin].
  rewrite !in_app_iff, !in_map_iff, in_flat_map in Hin.
  destruct Hin as [[t [[= <- <-] _]] | [[h [[= <- <-] _]] | [sid [_ Hin]]]]; auto.
  destruct sid as [id|]; [| destruct Hin].
  destruct (isEmpty id); [destruct Hin |].
  destruct Hin as [[= <- <-] | []]. auto.
Qed.

(** A property of indexes that every insertion keeps is kept by a sequence
    of insertions, and so by [indexFile]. *)
Lemma insertAll_keeps (P : Index -> Prop) :
  (forall key entry index, P index -> P (addToIndex key entry index)) ->
  forall insertions index, P index -> P (insertAll insertions index).
Proof.
  intros Hadd insertions. unfold insertAll.
  induction insertions as [|[key entry] l IH]; intros index HP; simpl; [assumption |].
  apply IH. apply Hadd. assumption.
Qed.

Lemma indexFile_keeps (P : Index -> Prop) :
  (forall key entry index, P index -> P (addToIndex key entry index)) ->
  forall metadata file index, P index -> P (indexFile metadata file index).
Proof.
  intros Hadd metadata file index HP. rewrite indexFile_as_insertions.
  destruct (String.eqb (extension file) "md"); [| assumption].
  apply insertAll_keeps; assumption.
Qed.


Lemma addToIndex_wf (key : string) (entry : IndexEntry) (index : Index) :
  JsMap.wf index -> JsMap.wf (addToIndex key entry index).
Proof. apply wf_set. Qed.





(** ** Removal, continued *)

Lemma remaining_In (file : TFile) (index : Index) (k : string) (b : list IndexEntry) :
  In (k, b) (flat_map (remainingBinding file) index)
  <-> exists b0, In (k, b0) index /\ b = entriesOfOthers file b0 /\ b <> [].
Proof.
  rewrite in_flat_map. unfold remainingBinding. split.
  - intros [[k0 b0] [Hin Hb]]. cbn [fst snd] in Hb.
    destruct (entriesOfOthers file b0) as [|e es] eqn:Ho; [destruct Hb |].
    destruct Hb as [[= <- <-] | []]. exists b0. rewrite Ho. repeat split; auto. discriminate.
  - intros [b0 [Hin [-> Hne]]]. exists (k, b0). split; [assumption |]. cbn [fst snd].
    destruct (entriesOfOthers file b0); [congruence | simpl; auto].
Qed.

Lemma entriesOfOthers_idempotent (file : TFile) (b : list IndexEntry) :
  entriesOfOthers file (entriesOfOthers file b) = entriesOfOthers file b.
Proof.
  unfold entriesOfOthers. induction b as [|e b IH]; simpl; [reflexivity |].
  destruct (negb (String.eqb (notePath e) (path file))) eqn:He; simpl; [| assumption].
  rewrite He, IH. reflexivity.
Qed.

Lemma entriesOfOthers_all (file : TFile) (b : list IndexEntry) :
  (forall e, In e b -> notePath e <> path file) -> entriesOfOthers file b = b.
Proof.
  unfold entriesOfOthers. induction b as [|e b IH]; simpl; intros H; [reflexivity |].
  destruct (String.eqb_spec (notePath e) (path file)) as [Heq | Hne]; simpl.
  - exfalso. apply (H e); auto.
  - rewrite IH; [reflexivity | intros x Hx; apply H; auto].
Qed.

Lemma remainingBinding_idempotent (file : TFile) (kv : string * list IndexEntry) :
  flat_map (remainingBinding file) (remainingBinding file kv) = remainingBinding file kv.
Proof.
  destruct kv as [k b]. unfold remainingBinding at 2 3. cbn [fst snd].
  destruct (entriesOfOthers file b) as [|e es] eqn:Ho; [reflexivity |].
  cbn [flat_map]. rewrite app_nil_r. unfold remainingBinding. cbn [fst snd].
  rewrite <- Ho, entriesOfOthers_idempotent, Ho. reflexivity.
Qed.

Lemma remaining_idempotent (file : TFile) (index : Index) :
  flat_map (remainingBinding file) (flat_map (remainingBinding file) index)
  = flat_map (remainingBinding file) index.
Proof.
  induction index as [|kv index IH]; [reflexivity |].
  cbn [flat_map]. rewrite flat_map_app, IH, remainingBinding_idempotent. reflexivity.
Qed.

Lemma remaining_absent (file : TFile) (index : Index) :
  pathAbsent (path file) index -> bucketsNonEmpty index ->
  flat_map (remainingBinding file) index = index.
Proof.
  unfold pathAbsent, bucketsNonEmpty.
  induction index as [|[k b] index IH]; intros Ha Hn; [reflexivity |].
  cbn [flat_map]. rewrite IH.
  - unfold remainingBinding. cbn [fst snd].
    rewrite entriesOfOthers_all by (intros e He; apply (Ha k b e); simpl; auto).
    destruct b as [|e b]; [| reflexivity].
    exfalso. apply (Hn k []); simpl; auto.
  - intros k' b' e Hin. apply (Ha k' b' e). simpl. auto.
  - intros k' b' Hin. apply (Hn k' b'). simpl. auto.
Qed.

Lemma filtered_bucket_unique (keep : IndexEntry -> bool) (bucket : list IndexEntry) :
  NoDup (map triple bucket) -> NoDup (map triple (filter keep bucket)).
Proof.
  induction bucket as [|e bucket IH]; simpl; intros Hu; [constructor |].
  inversion Hu as [|? ? He Hb]; subst.
  destruct (keep e); simpl; [| auto].
  constructor; [| auto].
  intros Hin. apply He. apply in_map_iff in Hin. destruct Hin as [y [Hy Hin]].
  apply filter_In in Hin. rewrite <- Hy. apply in_map. tauto.
Qed.

(** X11. After [deleteFromIndex] no entry of the file is left and no bucket
    is empty; normalized keys and bucket uniqueness are kept; removing the
    file again changes nothing; and removing a file that has no entry
    leaves an index without empty buckets as it is. *)
Theorem deleteFromIndex_cleans (index : Index) (file : TFile) :
  JsMap.wf index ->
  let index' := deleteFromIndex file index in
  pathAbsent (path file) index'
  /\ bucketsNonEmpty index'
  /\ (keysNormalized index -> keysNormalized index')
  /\ (bucketsUnique index -> bucketsUnique index')
  /\ deleteFromIndex file index' = index'
  /\ (pathAbsent (path file) index -> bucketsNonEmpty index -> index' = index).
Proof.
  intros Hwf index'. unfold index'.
  rewrite (deleteFromIndex_as_list file (deleteFromIndex file index))
    by (rewrite deleteFromIndex_as_list by assumption; apply remaining_wf; assumption).
  rewrite !deleteFromIndex_as_list by assumption.
  split; [| split; [| split; [| split; [| split]]]].
  - intros k b e Hin He. apply remaining_In in Hin. destruct Hin as [b0 [_ [-> _]]].
    unfold entriesOfOthers in He. apply filter_In in He. destruct He as [_ He].
    apply negb_true_iff, String.eqb_neq in He. assumption.
  - intros k b Hin. apply remaining_In in Hin. destruct Hin as [b0 [_ [_ Hne]]]. assumption.
  - intros Hk k Hin. apply Hk. eapply remaining_keys. eassumption.
  - intros Hu k b Hin. apply remaining_In in Hin. destruct Hin as [b0 [Hin0 [-> _]]].
    unfold entriesOfOthers. apply filtered_bucket_unique. eapply Hu. eassumption.
  - apply remaining_idempotent.
  - apply remaining_absent.
Qed.

Lemma deleteFromIndex_cleans_witness :
  JsMap.wf travelIndex
  /\ pathAbsent "Paris.md" (deleteFromIndex parisNote travelIndex)
  /\ deleteFromIndex parisNote (deleteFromIndex parisNote travelIndex)
     = deleteFromIndex parisNote travelIndex.
Proof.
  destruct (deleteFromIndex_cleans travelIndex parisNote travelIndex_wf)
    as [H1 [_ [_ [_ [H5 _]]]]].
  split; [exact travelIndex_wf | split; [exact H1 | exact H5]].
Defined.

(** ** Removal after insertion *)

Lemma remaining_set (file : TFile) (k : string) (v : list IndexEntry) (index : Index) :
  entriesOfOthers file v = entriesOfOthers file (bucketOf k index) ->
  flat_map (remainingBinding file) (JsMap.set k v index)
  = flat_map (remainingBinding file) index.
Proof.
  unfold bucketOf. induction index as [|[k' v'] index IH]; simpl.
  - intros Hv. unfold remainingBinding. cbn [fst snd]. rewrite Hv. reflexivity.
  - destruct (String.eqb_spec k' k) as [-> | Hne]; intros Hv; cbn [flat_map].
    + f_equal. unfold remainingBinding. cbn [fst snd]. rewrite Hv. reflexivity.
    + f_equal. apply IH. assumption.
Qed.

Lemma remaining_addToIndex (file : TFile) (key : string) (entry : IndexEntry) (index : Index) :
  notePath entry = path file ->
  flat_map (remainingBinding file) (addToIndex key entry index)
  = flat_map (remainingBinding file) index.
Proof.
  intros Hown. unfold addToIndex. apply remaining_set.
  fold (bucketOf (normalizeText key) index).
  destruct (existsb (sameTriple entry) (bucketOf (normalizeText key) index));
    cbn [negb]; [reflexivity |].
  unfold entriesOfOthers. rewrite filter_app. simpl.
  rewrite Hown, String.eqb_refl. simpl. apply app_nil_r.
Qed.

Lemma remaining_indexFile (metadata : option CachedMetadata) (file : TFile) (index : Index) :
  flat_map (remainingBinding file) (indexFile metadata file index)
  = flat_map (remainingBinding file) index.
Proof.
  rewrite indexFile_as_insertions.
  destruct (String.eqb (extension file) "md"); [| reflexivity].
  pose proof (entriesOfFile_own metadata file) as Hown.
  revert index. unfold insertAll.
  induction (entriesOfFile metadata file) as [|[key e] l IH]; intros index; [reflexivity |].
  cbn [fold_left]. rewrite IH by (intros k x Hx; apply (Hown k x); simpl; auto).
  apply remaining_addToIndex. apply (Hown key e). simpl. auto.
Qed.

Lemma deleteFromIndex_indexFile (metadata : option CachedMetadata) (file : TFile)
  (index : Index) :
  JsMap.wf index ->
  deleteFromIndex file (indexFile metadata file index) = deleteFromIndex file index.
Proof.
  intros Hwf.
  rewrite deleteFromIndex_as_list
    by (apply (indexFile_keeps JsMap.wf); [apply addToIndex_wf | assumption]).
  rewrite deleteFromIndex_as_list by assumption.
  apply remaining_indexFile.
Qed.

(** X12. Removing a file right after indexing it gives what removing it
    from the index before would give; when the file had no entry in an
    index without empty buckets, that is the index before. *)
Theorem deleteFromIndex_undoes_indexFile
  (metadata : option CachedMetadata) (file : TFile) (index : Index) :
  JsMap.wf index ->
  deleteFromIndex file (indexFile metadata file index) = deleteFromIndex file index
  /\ (pathAbsent (path file) index -> bucketsNonEmpty index ->
      deleteFromIndex file (indexFile metadata file index) = index).
Proof.
  intros Hwf. split; [apply deleteFromIndex_indexFile; assumption |].
  intros Ha Hn. rewrite deleteFromIndex_indexFile, deleteFromIndex_as_list by assumption.
  apply remaining_absent; assumption.
Qed.

Lemma deleteFromIndex_undoes_indexFile_witness :
  JsMap.wf travelIndex
  /\ deleteFromIndex noteA (indexFile None noteA travelIndex) = deleteFromIndex noteA travelIndex.
Proof.
  split; [exact travelIndex_wf |].
  exact (proj1 (deleteFromIndex_undoes_indexFile None noteA travelIndex travelIndex_wf)).
Defined.

(** X13. The timer's callback is idempotent on the index: when it runs
    twice for a file whose metadata did not change, the second run leaves
    the index as the first one made it. *)
Theorem reindexCallback_idempotent
  (getFileCache : TFile -> option CachedMetadata) (file : TFile) (st : PluginState) :
  JsMap.wf (pluginIndex st) ->
  pluginIndex (reindexCallback getFileCache file (reindexCallback getFileCache file st))
  = pluginIndex (reindexCallback getFileCache file st).
Proof.
  intros Hwf. unfold reindexCallback. cbn [pluginIndex].
  set (index := pluginIndex st) in *. set (metadata := getFileCache file).
  assert (Hd : JsMap.wf (deleteFromIndex file index)).
  { rewrite deleteFromIndex_as_list by assumption. apply remaining_wf. assumption. }
  rewrite deleteFromIndex_indexFile by assumption.
  rewrite (deleteFromIndex_as_list file (deleteFromIndex file index)) by assumption.
  rewrite (deleteFromIndex_as_list file index) by assumption.
  rewrite remaining_idempotent. reflexivity.
Qed.

Lemma reindexCallback_idempotent_witness :
  JsMap.wf (pluginIndex (initialState travelIndex))
  /\ pluginIndex (reindexCallback noMetadata parisNote
                    (reindexCallback noMetadata parisNote (initialState travelIndex)))
     = pluginIndex (reindexCallback noMetadata parisNote (initialState travelIndex)).
Proof.
  split; [exact travelIndex_wf |].
  exact (reindexCallback_idempotent noMetadata parisNote (initialState travelIndex)
           travelIndex_wf).
Defined.

(** ** What indexing a file puts into the index *)

Lemma insertAll_monotone (l : list (string * IndexEntry)) (index : Index)
  (k : string) (e : IndexEntry) :
  existsb (sameTriple e) (bucketOf k index) = true ->
  existsb (sameTriple e) (bucketOf k (insertAll l index)) = true.
Proof.
  apply (insertAll_keeps (fun idx => existsb (sameTriple e) (bucketOf k idx) = true)).
  intros key entry idx. apply addToIndex_monotone.
Qed.

Lemma insertAll_finds (l : list (string * IndexEntry)) (index : Index)
  (key : string) (e : IndexEntry) :
  In (key, e) l ->
  existsb (sameTriple e) (bucketOf (normalizeText key) (insertAll l index)) = true.
Proof.
  revert index; induction l as [|[key' e'] l IH]; intros index; [intros [] |].
  intros [[= -> ->] | Hin].
  - change (insertAll ((key, e) :: l) index) with (insertAll l (addToIndex key e index)).
    apply insertAll_monotone. apply addToIndex_finds.
  - apply (IH (addToIndex key' e' index) Hin).
Qed.


(** ** Full rebuild *)


(** ** Rename, continued *)

Lemma renamed_In (file : TFile) (oldPath : string) (index : Index)
  (k : string) (b : list IndexEntry) :
  In (k, b) (map (renamedBinding file oldPath) index)
  <-> exists b0, In (k, b0) index /\ b = map (renameEntry file oldPath) b0.
Proof.
  rewrite in_map_iff. unfold renamedBinding. split.
  - intros [[k0 b0] [[= <- <-] Hin]]. exists b0. auto.
  - intros [b0 [Hin ->]]. exists (k, b0). auto.
Qed.

Lemma renamed_keys (file : TFile) (oldPath : string) (index : Index) :
  JsMap.keys (map (renamedBinding file oldPath) index) = JsMap.keys index.
Proof.
  unfold JsMap.keys. rewrite map_map. apply map_ext. intros [k es]. reflexivity.
Qed.

Lemma renameEntry_other (file : TFile) (oldPath : string) (e : IndexEntry) :
  notePath e <> oldPath -> renameEntry file oldPath e = e.
Proof.
  intros Hne. unfold renameEntry. apply String.eqb_neq in Hne. rewrite Hne. reflexivity.
Qed.

Lemma renameEntry_path (file : TFile) (oldPath : string) (e : IndexEntry) :
  notePath (renameEntry file oldPath e)
  = if String.eqb (notePath e) oldPath then path file else notePath e.
Proof. unfold renameEntry. destruct (String.eqb (notePath e) oldPath); reflexivity. Qed.

Lemma renameEntry_type_target (file : TFile) (oldPath : string) (e : IndexEntry) :
  type (renameEntry file oldPath e) = type e
  /\ target (renameEntry file oldPath e) = target e.
Proof. unfold renameEntry. destruct (String.eqb (notePath e) oldPath); auto. Qed.

Lemma renamed_bucket_unique (file : TFile) (oldPath : string) (b : list IndexEntry) :
  (forall e, In e b -> notePath e <> path file) ->
  NoDup (map triple b) -> NoDup (map triple (map (renameEntry file oldPath) b)).
Proof.
  induction b as [|x b IH]; simpl; intros Habs Hnd; [constructor |].
  inversion Hnd as [|? ? Hx Hb]; subst.
  constructor; [| apply IH; auto].
  intros Hin. apply Hx. rewrite map_map in Hin. apply in_map_iff in Hin.
  destruct Hin as [y [Hy Hyb]]. apply in_map_iff. exists y. split; [| assumption].
  unfold triple in *.
  destruct (renameEntry_type_target file oldPath x) as [Htx Hgx].
  destruct (renameEntry_type_target file oldPath y) as [Hty Hgy].
  rewrite Htx, Hgx, Hty, Hgy, !renameEntry_path in Hy.
  assert (Hpx : notePath x <> path file) by (apply Habs; auto).
  assert (Hpy : notePath y <> path file) by (apply Habs; auto).
  destruct (String.eqb_spec (notePath x) oldPath) as [Hxo | Hxo];
    destruct (String.eqb_spec (notePath y) oldPath) as [Hyo | Hyo];
    inversion Hy; subst; congruence.
Qed.

Lemma renamed_absent (file : TFile) (oldPath : string) (index : Index) :
  pathAbsent oldPath index -> map (renamedBinding file oldPath) index = index.
Proof.
  unfold pathAbsent. induction index as [|[k b] index IH]; intros Ha; [reflexivity |].
  cbn [map]. rewrite IH by (intros k' b' e Hin; apply (Ha k' b' e); simpl; auto).
  f_equal. unfold renamedBinding. cbn [fst snd]. f_equal.
  rewrite <- (map_id b) at 2. apply map_ext_in. intros e He.
  apply renameEntry_other. apply (Ha k b e); simpl; auto.
Qed.

(** X16. After a rename to a different path no entry carries the old path;
    the index stays a map with the same keys in the same order, and buckets
    keep their sizes, so none becomes empty.  When the new path had no entry
    before, no bucket gets two entries with the same triple.  Renaming a
    path that has no entry changes nothing. *)
Theorem renameInIndex_moves_entries (index : Index) (file : TFile) (oldPath : string) :
  JsMap.wf index ->
  let index' := renameInIndex file oldPath index in
  (path file <> oldPath -> pathAbsent oldPath index')
  /\ JsMap.wf index'
  /\ JsMap.keys index' = JsMap.keys index
  /\ (forall key, List.length (bucketOf key index') = List.length (bucketOf key index))
  /\ (bucketsNonEmpty index -> bucketsNonEmpty index')
  /\ (pathAbsent (path file) index -> bucketsUnique index -> bucketsUnique index')
  /\ (pathAbsent oldPath index -> index' = index).
Proof.
  intros Hwf index'. unfold index'. rewrite renameInIndex_as_list by assumption.
  split; [| split; [| split; [| split; [| split; [| split]]]]].
  - intros Hne k b e Hin He. apply renamed_In in Hin. destruct Hin as [b0 [_ ->]].
    apply in_map_iff in He. destruct He as [e0 [<- _]].
    rewrite renameEntry_path.
    destruct (String.eqb_spec (notePath e0) oldPath); congruence.
  - unfold JsMap.wf. rewrite renamed_keys. assumption.
  - apply renamed_keys.
  - intros key. unfold bucketOf. clear Hwf index'.
    induction index as [|[k b] index IH]; simpl; [reflexivity |].
    destruct (String.eqb k key); [apply length_map | assumption].
  - intros Hn k b Hin. apply renamed_In in Hin. destruct Hin as [b0 [Hin0 ->]].
    intros Hnil. apply map_eq_nil in Hnil. subst b0. eapply Hn; eauto.
  - intros Ha Hu k b Hin. apply renamed_In in Hin. destruct Hin as [b0 [Hin0 ->]].
    apply renamed_bucket_unique; [| eapply Hu; eassumption].
    intros e He. eapply Ha; eassumption.
  - apply renamed_absent.
Qed.

Lemma renameInIndex_moves_entries_witness :
  JsMap.wf travelIndex
  /\ pathAbsent "Paris.md" (renameInIndex newNote "Paris.md" travelIndex)
  /\ JsMap.keys (renameInIndex newNote "Paris.md" travelIndex) = JsMap.keys travelIndex.
Proof.
  destruct (renameInIndex_moves_entries travelIndex newNote "Paris.md" travelIndex_wf)
    as [H1 [_ [H3 _]]].
  split; [exact travelIndex_wf | split; [apply H1; discriminate | exact H3]].
Defined.






(** ** Sentence scanner, continued *)

Lemma between_no_terminator (line : string) (cursorCh a b i : nat) :
  betweenTerminators line cursorCh a b -> a <= i < b -> ~ terminatorAt line i.
Proof.
  intros [Ha Hb] Hi.
  destruct (Nat.lt_ge_cases i cursorCh) as [Hlt | Hge].
  - destruct Ha as [[_ Hno] | [_ [_ Hno]]]; apply Hno; lia.
  - destruct Hb as [[Hb Hno] | [_ [_ Hno]]]; apply Hno; lia.
Qed.

Lemma quickLink_span (line : string) (cursorCh : nat) :
  cursorCh <= String.length line ->
  let a := untrimmedStart line cursorCh in
  let b := untrimmedEnd line cursorCh in
  let q := scanSentenceQuickLink line cursorCh in
  let s := scanSentenceSuggest line cursorCh in
  a <= sentenceStart q /\ sentenceStart q <= b /\ sentenceEnd q = b
  /\ sentenceStart s = sentenceStart q
  /\ sentenceStart s <= sentenceEnd s /\ sentenceEnd s <= b
  /\ (forall i, sentenceEnd s <= i < b -> whitespaceAt line i).
Proof.
  intros Hc a b q s.
  pose proof (untrimmed_ordered line cursorCh Hc) as Hord. fold a b in Hord.
  unfold q, s, scanSentenceQuickLink, scanSentenceSuggest.
  cbn [sentenceStart sentenceEnd]. fold a b.
  destruct (trimLeading_spec line (b - a) a b ltac:(lia) ltac:(lia)) as [L1 [L2 _]].
  destruct (trimTrailing_spec line (trimLeading line (b - a) a b) b L2) as [T1 [T2 [T3 _]]].
  repeat (split; [first [assumption | reflexivity] |]). assumption.
Qed.

(** X18. The sentence never reaches across a terminator, on either path:
    for an in-bounds cursor the span lies inside the line, no position of it
    holds one of [.], [!], [?], and neither does the sentence text. *)
Theorem sentence_without_terminator (line : string) (cursorCh : nat) :
  cursorCh <= String.length line ->
  forall s,
    s = scanSentenceSuggest line cursorCh \/ s = scanSentenceQuickLink line cursorCh ->
    sentenceStart s <= sentenceEnd s /\ sentenceEnd s <= String.length line
    /\ (forall i, sentenceStart s <= i < sentenceEnd s -> ~ terminatorAt line i)
    /\ (forall i c, get i (sentence s) = Some c -> isTerminator c = false).
Proof.
  intros Hc s Hs.
  pose proof (untrimmed_between line cursorCh Hc) as Hbt.
  pose proof (untrimmed_ordered line cursorCh Hc) as Hord.
  destruct (quickLink_span line cursorCh Hc) as [Q1 [Q2 [Q3 [Q4 [Q5 [Q6 _]]]]]].
  assert (Hb : untrimmedEnd line cursorCh <= String.length line).
  { destruct Hbt as [_ [[-> _] | [? _]]]; lia. }
  assert (Hspan : untrimmedStart line cursorCh <= sentenceStart s
                  /\ sentenceStart s <= sentenceEnd s
                  /\ sentenceEnd s <= untrimmedEnd line cursorCh
                  /\ sentence s = substring (sentenceStart s)
                                    (sentenceEnd s - sentenceStart s) line).
  { destruct Hs as [-> | ->].
    - rewrite Q4. split; [assumption | split; [rewrite <- Q4; assumption |]].
      split; [assumption |].
      unfold scanSentenceSuggest at 1. cbn [sentence]. unfold jsSubstring.
      rewrite Q4 in Q5. unfold scanSentenceSuggest in Q5 |- *. cbn [sentenceStart sentenceEnd] in *.
      unfold scanSentenceQuickLink in Q5. cbn [sentenceStart] in Q5.
      rewrite Nat.min_l, Nat.max_r by assumption. reflexivity.
    - split; [assumption | split; [lia | split; [lia |]]].
      unfold scanSentenceQuickLink in *. cbn [sentence sentenceStart sentenceEnd] in *.
      unfold jsSubstring. rewrite Nat.min_l, Nat.max_r by assumption. reflexivity. }
  destruct Hspan as [S1 [S2 [S3 S4]]].
  assert (Hno : forall i, sentenceStart s <= i < sentenceEnd s -> ~ terminatorAt line i).
  { intros i Hi. eapply between_no_terminator; [exact Hbt | lia]. }
  split; [assumption | split; [lia | split; [assumption |]]].
  intros i c Hget. rewrite S4 in Hget.
  destruct (Nat.lt_ge_cases i (sentenceEnd s - sentenceStart s)) as [Hlt | Hge].
  - rewrite substring_correct1 in Hget by assumption.
    specialize (Hno (i + sentenceStart s) ltac:(lia)).
    unfold terminatorAt, testAt in Hno. rewrite Hget in Hno.
    destruct (isTerminator c); [exfalso; apply Hno; reflexivity | reflexivity].
  - rewrite substring_correct2 in Hget by assumption. discriminate.
Qed.

Lemma sentence_without_terminator_witness :
  16 <= String.length "See Paris. Visit Rome."
  /\ forall i c,
       get i (sentence (scanSentenceQuickLink "See Paris. Visit Rome." 16)) = Some c ->
       isTerminator c = false.
Proof.
  assert (H : 16 <= String.length "See Paris. Visit Rome.") by (simpl; lia).
  split; [exact H |].
  exact (proj2 (proj2 (proj2
           (sentence_without_terminator "See Paris. Visit Rome." 16 H
              (scanSentenceQuickLink "See Paris. Visit Rome." 16) (or_intror eq_refl))))).
Defined.

(** X19. The two paths parse the same sentence up to trailing white space:
    they start at the same offset, the immediate-link path ends at the
    terminator (or the line end), the suggestion path ends at or before it,
    and every position between the two ends holds white space. *)
Theorem scanSentence_paths_agree (line : string) (cursorCh : nat) :
  cursorCh <= String.length line ->
  let q := scanSentenceQuickLink line cursorCh in
  let s := scanSentenceSuggest line cursorCh in
  sentenceStart s = sentenceStart q
  /\ sentenceEnd s <= sentenceEnd q
  /\ sentenceEnd q = untrimmedEnd line cursorCh
  /\ (forall i, sentenceEnd s <= i < sentenceEnd q -> whitespaceAt line i)
  /\ (sentenceStart s < sentenceEnd s -> ~ whitespaceAt line (sentenceEnd s - 1)).
Proof.
  intros Hc q s.
  destruct (quickLink_span line cursorCh Hc) as [Q1 [Q2 [Q3 [Q4 [Q5 [Q6 Q7]]]]]].
  fold q s in Q1, Q2, Q3, Q4, Q5, Q6, Q7.
  split; [assumption | split; [lia | split; [assumption | split]]].
  - rewrite Q3. assumption.
  - destruct (scanSentenceSuggest_meets_spec line cursorCh Hc) as [a [b [_ [Ht _]]]].
    fold s in Ht. destruct Ht as [_ [_ [_ [_ [_ Hends]]]]].
    intros Hlt. apply Hends. assumption.
Qed.

Lemma scanSentence_paths_agree_witness :
  8 <= String.length "Visit Rome "
  /\ sentenceStart (scanSentenceSuggest "Visit Rome " 8)
     = sentenceStart (scanSentenceQuickLink "Visit Rome " 8).
Proof.
  assert (H : 8 <= String.length "Visit Rome ") by (simpl; lia).
  split; [exact H | exact (proj1 (scanSentence_paths_agree "Visit Rome " 8 H))].
Defined.

(** ** The two flows *)

Lemma firstSome_spec {A B : Type} (f : A -> option B) (l : list A) :
  match firstSome f l with
  | Some y =>
      exists l1 x l2, l = l1 ++ x :: l2 /\ f x = Some y
                      /\ Forall (fun x' => f x' = None) l1
  | None => Forall (fun x => f x = None) l
  end.
Proof.
  induction l as [|x l IH]; simpl; [constructor |].
  destruct (f x) as [y|] eqn:Hx.
  - exists [], x, l. auto.
  - destruct (firstSome f l) as [y|].
    + destruct IH as [l1 [x' [l2 [-> [Hx' Hl1]]]]].
      exists (x :: l1), x', l2. auto.
    + constructor; assumption.
Qed.

Lemma firstSome_flat_map {A B C : Type} (g : A -> option B) (f : B -> option C) (l : list A) :
  firstSome (fun a => match g a with Some b => f b | None => None end) l
  = firstSome f (flat_map (fun a => match g a with Some b => [b] | None => [] end) l).
Proof.
  induction l as [|a l IH]; simpl; [reflexivity |].
  destruct (g a) as [b|]; simpl; [| assumption].
  destruct (f b); [reflexivity | assumption].
Qed.

(** The suggestion path as a search through the candidate phrases. *)
Lemma onTrigger_as_search (wordRegexMatches : string -> list RegExpMatch)
  (triggerKey : string) (index : Index) (line : string) (cursorCh : nat) :
  line <> "" -> triggerPasses triggerKey line cursorCh ->
  let s := scanSentenceSuggest line cursorCh in
  onTrigger wordRegexMatches triggerKey index line cursorCh
  = firstSome
      (fun p : nat * nat * string =>
         let '(phraseStart, phraseEnd, phrase) := p in
         if 0 <? List.length (getSuggestions index phrase)
         then Some {| triggerStartCh := sentenceStart s + phraseStart;
                      triggerEndCh := sentenceStart s + phraseEnd;
                      triggerQuery := phrase |}
         else None)
      (candidatePhrases s (tokensOfMatches (wordRegexMatches (sentence s))) cursorCh).
Proof.
  intros Hline Hgate s. unfold onTrigger, candidatePhrases. fold s.
  destruct line as [|c0 line0] eqn:Hl; [congruence |]. cbn [isEmpty]. rewrite <- Hl in *.
  assert (Hg : negb (isEmpty triggerKey)
               && negb (String.eqb
                          (jsSubstring (cursorCh - String.length triggerKey) cursorCh line)
                          triggerKey) = false).
  { destruct Hgate as [-> | Heq]; [reflexivity |].
    rewrite Heq, String.eqb_refl. apply andb_false_r. }
  rewrite Hg.
  destruct (locateCursorWord (tokensOfMatches (wordRegexMatches (sentence s)))
              (cursorInSentenceOf cursorCh (sentenceStart s))) as [cursorWordIdx|];
    [| reflexivity].
  rewrite <- firstSome_flat_map. f_equal.
Qed.

Lemma runQuickLink_as_search (wordRegexMatches : string -> list RegExpMatch)
  (index : Index) (line : string) (cursorCh : nat) :
  let s := scanSentenceQuickLink line cursorCh in
  let wordsWithIndices := tokensOfMatches (wordRegexMatches (sentence s)) in
  runQuickLink wordRegexMatches index line cursorCh
  = match locateCursorWord wordsWithIndices (cursorInSentenceOf cursorCh (sentenceStart s)) with
    | None => NoPhraseUnderCursor
    | Some _ =>
        match
          firstSome
            (fun p : nat * nat * string =>
               let '(phraseStart, phraseEnd, phrase) := p in
               match exactMatch index phrase with
               | Some bestMatch =>
                   Some (Linked (quickLinkText bestMatch phrase)
                           (sentenceStart s + phraseStart) (sentenceStart s + phraseEnd)
                           bestMatch)
               | None => None
               end)
            (candidatePhrases s wordsWithIndices cursorCh)
        with
        | Some r => r
        | None => NoMatchingNote
        end
    end.
Proof.
  intros s wordsWithIndices. unfold runQuickLink, candidatePhrases. fold s wordsWithIndices.
  destruct (locateCursorWord wordsWithIndices (cursorInSentenceOf cursorCh (sentenceStart s)))
    as [cursorWordIdx|]; [| reflexivity].
  rewrite <- firstSome_flat_map. reflexivity.
Qed.

Lemma onTrigger_gated (wordRegexMatches : string -> list RegExpMatch)
  (triggerKey : string) (index : Index) (line : string) (cursorCh : nat)
  (info : EditorSuggestTriggerInfo) :
  onTrigger wordRegexMatches triggerKey index line cursorCh = Some info ->
  line <> "" /\ triggerPasses triggerKey line cursorCh.
Proof.
  unfold onTrigger, triggerPasses.
  destruct line as [|c0 line0]; [discriminate |]. cbn [isEmpty].
  destruct triggerKey as [|k0 tk]; [intros _; split; [discriminate | auto] |].
  cbn [isEmpty negb andb].
  match goal with
  | |- context [String.eqb ?a ?b] => destruct (String.eqb_spec a b) as [Heq | Hne]
  end; cbn [negb]; [| discriminate].
  intros _. split; [discriminate | auto].
Qed.

Lemma onTrigger_some (wordRegexMatches : string -> list RegExpMatch)
  (triggerKey : string) (index : Index) (line : string) (cursorCh : nat)
  (info : EditorSuggestTriggerInfo) :
  let s := scanSentenceSuggest line cursorCh in
  onTrigger wordRegexMatches triggerKey index line cursorCh = Some info ->
  exists before phraseStart phraseEnd after,
    candidatePhrases s (tokensOfMatches (wordRegexMatches (sentence s))) cursorCh
    = before ++ (phraseStart, phraseEnd, triggerQuery info) :: after
    /\ Forall (fun p => getSuggestions index (snd p) = []) before
    /\ getSuggestions index (triggerQuery info) <> []
    /\ triggerStartCh info = sentenceStart s + phraseStart
    /\ triggerEndCh info = sentenceStart s + phraseEnd.
Proof.
  intros s Hinfo. destruct (onTrigger_gated _ _ _ _ _ _ Hinfo) as [Hl Hg].
  rewrite (onTrigger_as_search wordRegexMatches triggerKey index line cursorCh Hl Hg)
    in Hinfo.
  fold s in Hinfo.
  match type of Hinfo with
  | firstSome ?f ?l = _ => pose proof (firstSome_spec f l) as Hspec
  end.
  rewrite Hinfo in Hspec. destruct Hspec as [l1 [[[ps pe] phrase] [l2 [Hc [Hx Hl1]]]]].
  destruct (getSuggestions index phrase) as [|sg sgs] eqn:Hsg; [discriminate Hx |].
  cbn in Hx. injection Hx as <-. cbn [triggerQuery triggerStartCh triggerEndCh].
  exists l1, ps, pe, l2. split; [assumption | split; [| rewrite Hsg; auto]].
  - eapply Forall_impl; [| exact Hl1]. intros [[a b] ph] Hp. cbn [snd].
    destruct (getSuggestions index ph); [reflexivity | discriminate Hp].
  - split; [discriminate | auto].
Qed.

(** X20. The suggestion path answers only on a non-empty line on which the
    trigger key lets it run, and then with the first candidate phrase, in
    the order of the enumeration, that has a suggestion: the candidates
    before it have none.  When the scan runs, it answers nothing exactly
    when no candidate phrase has a suggestion. *)
Theorem onTrigger_first_candidate (wordRegexMatches : string -> list RegExpMatch)
  (triggerKey : string) (index : Index) (line : string) (cursorCh : nat) :
  let s := scanSentenceSuggest line cursorCh in
  let candidates :=
    candidatePhrases s (tokensOfMatches (wordRegexMatches (sentence s))) cursorCh in
  (forall info,
      onTrigger wordRegexMatches triggerKey index line cursorCh = Some info ->
      line <> "" /\ triggerPasses triggerKey line cursorCh
      /\ exists before phraseStart phraseEnd after,
           candidates = before ++ (phraseStart, phraseEnd, triggerQuery info) :: after
           /\ Forall (fun p => getSuggestions index (snd p) = []) before
           /\ getSuggestions index (triggerQuery info) <> []
           /\ triggerStartCh info = sentenceStart s + phraseStart
           /\ triggerEndCh info = sentenceStart s + phraseEnd)
  /\ (line <> "" -> triggerPasses triggerKey line cursorCh ->
      (onTrigger wordRegexMatches triggerKey index line cursorCh = None
       <-> Forall (fun p => getSuggestions index (snd p) = []) candidates)).
Proof.
  intros s candidates. split.
  - intros info Hinfo. destruct (onTrigger_gated _ _ _ _ _ _ Hinfo) as [Hl Hg].
    split; [assumption | split; [assumption |]].
    apply (onTrigger_some wordRegexMatches triggerKey index line cursorCh info Hinfo).
  - intros Hl Hg.
    rewrite (onTrigger_as_search wordRegexMatches triggerKey index line cursorCh Hl Hg).
    fold s. fold candidates.
    match goal with
    | |- firstSome ?f ?l = None <-> _ => pose proof (firstSome_spec f l) as Hspec
    end.
    split.
    + intros Hnone. rewrite Hnone in Hspec.
      eapply Forall_impl; [| exact Hspec]. intros [[a b] ph] Hp. cbn [snd].
      destruct (getSuggestions index ph); [reflexivity | discriminate Hp].
    + intros Hall.
      match goal with |- ?t = None => destruct t as [y|] eqn:Hy end; [| reflexivity].
      destruct Hspec as [l1 [[[ps pe] phrase] [l2 [Hc [Hx _]]]]].
      rewrite Hc in Hall. apply Forall_app in Hall. destruct Hall as [_ Hall].
      inversion Hall as [|? ? Hp _]; subst. cbn [snd] in Hp. rewrite Hp in Hx.
      discriminate Hx.
Qed.

Lemma onTrigger_first_candidate_witness :
  "I visited Paris." <> "" /\ triggerPasses "" "I visited Paris." 15
  /\ (onTrigger visitedParisMatches "" emptyIndex "I visited Paris." 15 = None
      <-> Forall (fun p => getSuggestions emptyIndex (snd p) = [])
            (candidatePhrases (scanSentenceSuggest "I visited Paris." 15)
               (tokensOfMatches
                  (visitedParisMatches (sentence (scanSentenceSuggest "I visited Paris." 15))))
               15)).
Proof.
  assert (Hl : "I visited Paris." <> "") by discriminate.
  assert (Hg : triggerPasses "" "I visited Paris." 15) by (left; reflexivity).
  split; [exact Hl | split; [exact Hg |]].
  exact (proj2 (onTrigger_first_candidate visitedParisMatches "" emptyIndex
                  "I visited Paris." 15) Hl Hg).
Defined.

Lemma findIndexFrom_Some {A : Type} (p : A -> bool) (l : list A) (k i : nat) :
  findIndexFrom p l k = Some i ->
  exists x, k <= i /\ nth_error l (i - k) = Some x /\ p x = true.
Proof.
  revert k; induction l as [|y l IH]; intros k; simpl; [discriminate |].
  destruct (p y) eqn:Hy.
  - intros [= <-]. exists y. rewrite Nat.sub_diag. auto.
  - intros H. destruct (IH (S k) H) as [x [Hle [Hn Hx]]].
    exists x. split; [lia | split; [| assumption]].
    replace (i - k) with (S (i - S k)) by lia. exact Hn.
Qed.

Lemma locateCursorWord_touches (ms : list RegExpMatch) (c : Z) (i : nat) :
  locateCursorWord (tokensOfMatches ms) c = Some i ->
  exists w, nth_error (tokensOfMatches ms) i = Some w
            /\ (Z.of_nat (start w) <= c <= Z.of_nat (end_ w))%Z.
Proof.
  unfold locateCursorWord.
  destruct (findIndex (touches c) (tokensOfMatches ms)) as [j|] eqn:Hp.
  - intros [= <-]. unfold findIndex in Hp. apply findIndexFrom_Some in Hp.
    destruct Hp as [w [_ [Hn Hw]]]. rewrite Nat.sub_0_r in Hn.
    exists w. split; [assumption |].
    unfold touches in Hw. apply andb_true_iff in Hw. destruct Hw as [H1 H2].
    apply Z.geb_le in H1. apply Z.leb_le in H2. lia.
  - rewrite (fallback_finds_nothing _ c (tokensOfMatches_ordered ms) Hp). discriminate.
Qed.

Lemma StronglySorted_nth {A : Type} (R : A -> A -> Prop) (l : list A) (i j : nat) (x y : A) :
  StronglySorted R l -> i < j ->
  nth_error l i = Some x -> nth_error l j = Some y -> R x y.
Proof.
  intros Hs. revert i j. induction Hs as [|a l Hs IH Hf]; intros i j Hij Hi Hj.
  - destruct i; discriminate.
  - destruct j as [|j]; [lia |]. simpl in Hj.
    destruct i as [|i]; simpl in Hi.
    + injection Hi as <-. rewrite Forall_forall in Hf. apply Hf.
      eapply nth_error_In. eassumption.
    + apply (IH i j); [lia | assumption | assumption].
Qed.

Lemma tokens_in_order (ms : list RegExpMatch) (i j : nat) (wi wj : Token) :
  matchesInOrder ms -> i <= j ->
  nth_error (tokensOfMatches ms) i = Some wi ->
  nth_error (tokensOfMatches ms) j = Some wj ->
  start wi <= start wj /\ end_ wi <= end_ wj.
Proof.
  intros Hs Hij Hi Hj. unfold tokensOfMatches in *.
  rewrite nth_error_map in Hi, Hj.
  destruct (nth_error ms i) as [mi|] eqn:Hmi; [| discriminate].
  destruct (nth_error ms j) as [mj|] eqn:Hmj; [| discriminate].
  injection Hi as <-. injection Hj as <-.
  destruct (Nat.eq_dec i j) as [-> | Hne].
  - rewrite Hmi in Hmj. injection Hmj as <-. lia.
  - pose proof (StronglySorted_nth _ ms i j mi mj Hs ltac:(lia) Hmi Hmj) as H.
    simpl in H. simpl. lia.
Qed.

Lemma candidatePhrases_In (s : SentenceSpan) (tokens : list Token) (cursorCh : nat)
  (ps pe : nat) (phrase : string) :
  In (ps, pe, phrase) (candidatePhrases s tokens cursorCh) ->
  exists c si ei ws we,
    locateCursorWord tokens (cursorInSentenceOf cursorCh (sentenceStart s)) = Some c
    /\ si <= c <= ei
    /\ nth_error tokens si = Some ws /\ nth_error tokens ei = Some we
    /\ ps = start ws /\ pe = end_ we
    /\ phrase = jsSubstring (start ws) (end_ we) (sentence s).
Proof.
  unfold candidatePhrases.
  destruct (locateCursorWord tokens (cursorInSentenceOf cursorCh (sentenceStart s)))
    as [c|]; [| intros []].
  intros Hin. apply in_flat_map in Hin. destruct Hin as [[si ei] [Hsp Hp]].
  unfold enumeratePhrases in Hsp. apply outer_loop_in in Hsp. cbn [fst snd] in Hsp.
  unfold phraseAt in Hp. cbn [fst snd] in Hp.
  destruct (nth_error tokens si) as [ws|] eqn:Hws; [| destruct Hp].
  destruct (nth_error tokens ei) as [we|] eqn:Hwe; [| destruct Hp].
  destruct Hp as [[= <- <- <-] | []].
  exists c, si, ei, ws, we. unfold spanLength in Hsp. cbn [fst snd] in Hsp.
  repeat split; try reflexivity; try assumption; lia.
Qed.

Lemma candidates_cover_cursor (s : SentenceSpan) (ms : list RegExpMatch) (cursorCh : nat)
  (ps pe : nat) (phrase : string) :
  matchesInOrder ms ->
  In (ps, pe, phrase) (candidatePhrases s (tokensOfMatches ms) cursorCh) ->
  sentenceStart s + ps <= cursorCh <= sentenceStart s + pe.
Proof.
  intros Hs Hin. apply candidatePhrases_In in Hin.
  destruct Hin as [c [si [ei [ws [we [Hloc [Hc [Hws [Hwe [-> [-> _]]]]]]]]]]].
  apply locateCursorWord_touches in Hloc. destruct Hloc as [wc [Hwc Htouch]].
  destruct (tokens_in_order ms si c ws wc Hs ltac:(lia) Hws Hwc) as [H1 _].
  destruct (tokens_in_order ms c ei wc we Hs ltac:(lia) Hwc Hwe) as [_ H2].
  unfold cursorInSentenceOf in Htouch. lia.
Qed.

Lemma runQuickLink_linked (wordRegexMatches : string -> list RegExpMatch)
  (index : Index) (line : string) (cursorCh : nat)
  (linkText : string) (startCh endCh : nat) (bestMatch : IndexEntry) :
  let s := scanSentenceQuickLink line cursorCh in
  runQuickLink wordRegexMatches index line cursorCh
  = Linked linkText startCh endCh bestMatch ->
  exists before phraseStart phraseEnd phrase after,
    candidatePhrases s (tokensOfMatches (wordRegexMatches (sentence s))) cursorCh
    = before ++ (phraseStart, phraseEnd, phrase) :: after
    /\ Forall (fun p => exactMatch index (snd p) = None) before
    /\ exactMatch index phrase = Some bestMatch
    /\ linkText = quickLinkText bestMatch phrase
    /\ startCh = sentenceStart s + phraseStart
    /\ endCh = sentenceStart s + phraseEnd.
Proof.
  intros s. rewrite runQuickLink_as_search. fold s.
  destruct (locateCursorWord (tokensOfMatches (wordRegexMatches (sentence s)))
              (cursorInSentenceOf cursorCh (sentenceStart s))); [| discriminate].
  match goal with
  | |- context [firstSome ?f ?l] =>
      pose proof (firstSome_spec f l) as Hspec; destruct (firstSome f l) as [r|]
  end; [| discriminate].
  intros ->. destruct Hspec as [l1 [[[ps pe] phrase] [l2 [Hc [Hx Hl1]]]]].
  destruct (exactMatch index phrase) as [m|] eqn:Hm; [| discriminate Hx].
  injection Hx as <- <- <- <-.
  exists l1, ps, pe, phrase, l2. repeat split; try assumption; try reflexivity.
  eapply Forall_impl; [| exact Hl1]. intros [[a b] ph] Hp. cbn [snd].
  destruct (exactMatch index ph); [discriminate Hp | reflexivity].
Qed.

(** X21. When the matches of the word pattern come in order, the range that
    either path replaces contains the cursor. *)
Theorem replaced_range_covers_cursor (wordRegexMatches : string -> list RegExpMatch)
  (triggerKey : string) (index : Index) (line : string) (cursorCh : nat) :
  (forall sentenceText, matchesInOrder (wordRegexMatches sentenceText)) ->
  (forall info,
      onTrigger wordRegexMatches triggerKey index line cursorCh = Some info ->
      triggerStartCh info <= cursorCh <= triggerEndCh info)
  /\ (forall linkText startCh endCh bestMatch,
         runQuickLink wordRegexMatches index line cursorCh
         = Linked linkText startCh endCh bestMatch ->
         startCh <= cursorCh <= endCh).
Proof.
  intros Hord. split.
  - intros info Hinfo. apply onTrigger_some in Hinfo.
    destruct Hinfo as [before [ps [pe [after [Hc [_ [_ [-> ->]]]]]]]].
    eapply candidates_cover_cursor; [apply Hord |].
    rewrite Hc. apply in_or_app. right. left. reflexivity.
  - intros linkText startCh endCh bestMatch Hr. apply runQuickLink_linked in Hr.
    destruct Hr as [before [ps [pe [phrase [after [Hc [_ [_ [_ [-> ->]]]]]]]]]].
    eapply candidates_cover_cursor; [apply Hord |].
    rewrite Hc. apply in_or_app. right. left. reflexivity.
Qed.

Lemma visitedParisMatches_in_order (sentenceText : string) :
  matchesInOrder (visitedParisMatches sentenceText).
Proof.
  unfold matchesInOrder, visitedParisMatches.
  repeat (constructor; [| repeat (constructor; [simpl; lia |]); constructor]).
  constructor.
Defined.

Lemma replaced_range_covers_cursor_witness :
  onTrigger visitedParisMatches "" (indexFile None parisNote emptyIndex) "I visited Paris." 15
  = Some {| triggerStartCh := 10; triggerEndCh := 15; triggerQuery := "Paris" |}
  /\ 10 <= 15 <= 15.
Proof.
  assert (H : onTrigger visitedParisMatches "" (indexFile None parisNote emptyIndex)
                "I visited Paris." 15
              = Some {| triggerStartCh := 10; triggerEndCh := 15; triggerQuery := "Paris" |})
    by (vm_compute; reflexivity).
  split; [exact H |].
  exact (proj1 (replaced_range_covers_cursor visitedParisMatches ""
                  (indexFile None parisNote emptyIndex) "I visited Paris." 15
                  visitedParisMatches_in_order) _ H).
Defined.



Lemma getSuggestions_emptyIndex (query : string) : getSuggestions emptyIndex query = [].
Proof. unfold getSuggestions. destruct (isEmpty (normalizeText query)); reflexivity. Qed.

(** X23. With nothing indexed the suggestion path answers nothing and the
    immediate-link path links nothing, whatever the line, the cursor and
    the trigger key. *)
Theorem flows_on_empty_index (wordRegexMatches : string -> list RegExpMatch)
  (triggerKey line : string) (cursorCh : nat) :
  onTrigger wordRegexMatches triggerKey emptyIndex line cursorCh = None
  /\ forall linkText startCh endCh bestMatch,
       runQuickLink wordRegexMatches emptyIndex line cursorCh
       <> Linked linkText startCh endCh bestMatch.
Proof.
  split.
  - destruct (onTrigger wordRegexMatches triggerKey emptyIndex line cursorCh) as [info|] eqn:H;
      [| reflexivity].
    apply onTrigger_some in H. destruct H as [_ [_ [_ [_ [_ [_ [Hne _]]]]]]].
    exfalso. apply Hne. apply getSuggestions_emptyIndex.
  - intros linkText startCh endCh bestMatch H. apply runQuickLink_linked in H.
    destruct H as [_ [_ [_ [phrase [_ [_ [_ [Hm _]]]]]]]].
    unfold exactMatch in Hm. rewrite getSuggestions_emptyIndex in Hm. discriminate.
Qed.

(** X24. Both paths build the same link text for every entry and phrase:
    [[[target|phrase]]] for a title or a tag, [[[title#target|phrase]]] for
    a heading and [[[title#^target|phrase]]] for a block. *)
Theorem link_text_by_kind (item : IndexEntry) (phrase : string) :
  quickLinkText item phrase = selectSuggestionLinkText item phrase
  /\ selectSuggestionLinkText item phrase
     = match type item with
       | title | tag => wikiLink (target item) phrase
       | heading => wikiLink (noteTitle item ++ "#" ++ target item) phrase
       | block => wikiLink (noteTitle item ++ "#^" ++ target item) phrase
       end.
Proof.
  unfold quickLinkText, selectSuggestionLinkText, wikiLink.
  destruct (type item); split; try reflexivity;
    cbn [append]; rewrite ?string_app_assoc; reflexivity.
Qed.

(** ** Keys and display texts of headings and blocks *)



(** ** Index consistency under the operations *)









(** ** Debounce, continued *)







(** ** Searching for what was indexed *)

Lemma prefix_refl (s : string) : prefix s s = true.
Proof.
  induction s as [|c s IH]; simpl; [reflexivity |].
  destruct (ascii_dec c c); [assumption | congruence].
Qed.

Lemma existsb_sameTriple_In (e : IndexEntry) (l : list IndexEntry) :
  existsb (sameTriple e) l = true -> exists x, In x l /\ triple x = triple e.
Proof.
  intros H. apply existsb_exists in H. destruct H as [x [Hx Ht]].
  apply sameTriple_iff in Ht. exists x. auto.
Qed.

Lemma bucketOf_In (k : string) (index : Index) (x : IndexEntry) :
  In x (bucketOf k index) -> exists bucket, In (k, bucket) index /\ In x bucket.
Proof.
  unfold bucketOf. destruct (JsMap.get k index) as [es|] eqn:Hget; [| intros []].
  intros Hx. exists es. split; [apply get_In; assumption | assumption].
Qed.

(** X28. A markdown file that has been indexed is found by its title: when
    the title has a letter or digit and the two passes collect no more than
    100 entries, the suggestions for the title hold the file's title entry,
    with score 0. *)
Theorem indexed_title_is_suggested
  (metadata : option CachedMetadata) (file : TFile) (index : Index) :
  let index' := indexFile metadata file index in
  let nq := normalizeText (basename file) in
  extension file = "md" -> nq <> "" ->
  List.length (exactMatches nq index' ++ fuzzyMatches nq index') <= 100 ->
  exists e,
    In e (getSuggestions index' (basename file))
    /\ type e = title /\ notePath e = path file /\ target e = basename file
    /\ score e = Some 0%Q.
Proof.
  intros index' nq Hmd Hne Hlen.
  assert (Hfound : existsb (sameTriple (titleEntry file)) (bucketOf nq index') = true).
  { unfold index', nq. rewrite indexFile_as_insertions, (proj2 (String.eqb_eq _ _) Hmd).
    apply insertAll_finds. simpl. auto. }
  apply existsb_sameTriple_In in Hfound. destruct Hfound as [x [Hx Htx]].
  apply bucketOf_In in Hx. destruct Hx as [bucket [Hb Hxb]].
  assert (HE : In (withScore 0 x) (exactMatches nq index')).
  { apply exactMatches_in. exists nq, bucket, x.
    repeat split; try assumption. apply prefix_refl. }
  unfold getSuggestions. fold nq.
  destruct nq as [|c nq'] eqn:Hnq; [congruence |]. cbn [isEmpty]. rewrite <- Hnq in *.
  rewrite uniqueMatches_spec.
  destruct (prefix_part_then_fuzzy_part (exactMatches nq index') (fuzzyMatches nq index') 100)
    as [A [B [Heq [HA HB]]]].
  assert (Hcov : In (triple (withScore 0 x))
                   (map triple (keepFirstOccurrence []
                                  (exactMatches nq index' ++ fuzzyMatches nq index')))).
  { destruct (keepFirstOccurrence_covers
                (exactMatches nq index' ++ fuzzyMatches nq index') [] (withScore 0 x))
      as [[] | H]; [apply in_or_app; auto | exact H]. }
  assert (Hall : firstn 100 (keepFirstOccurrence []
                               (exactMatches nq index' ++ fuzzyMatches nq index'))
                 = keepFirstOccurrence []
                     (exactMatches nq index' ++ fuzzyMatches nq index')).
  { apply firstn_all2. etransitivity; [apply keepFirstOccurrence_length | exact Hlen]. }
  rewrite Hall in *.
  apply in_map_iff in Hcov. destruct Hcov as [e [Hte He]].
  exists e. split; [assumption |].
  rewrite triple_withScore, Htx in Hte. unfold triple in Hte. cbn in Hte.
  injection Hte as Ht Hp Hg.
  split; [assumption | split; [assumption | split; [assumption |]]].
  rewrite Heq in He. apply in_app_or in He. destruct He as [He | He].
  - apply HA, exactMatches_in in He.
    destruct He as [k [es [e0 [_ [_ [_ ->]]]]]]. reflexivity.
  - apply HB in He. destruct He as [_ Hn]. exfalso. apply Hn.
    apply in_map_iff. exists (withScore 0 x). split; [| assumption].
    rewrite triple_withScore, Htx. unfold triple. cbn. congruence.
Qed.

Lemma indexed_title_is_suggested_witness :
  exists e,
    In e (getSuggestions (indexFile None noteA travelIndex) "A")
    /\ type e = title /\ notePath e = "A.md" /\ target e = "A" /\ score e = Some 0%Q.
Proof.
  apply (indexed_title_is_suggested None noteA travelIndex).
  - reflexivity.
  - discriminate.
  - vm_compute. repeat constructor.
Defined.

(** ** The number of candidate phrases *)

Lemma NoDup_list_prod {A B : Type} (l : list A) (l' : list B) :
  NoDup l -> NoDup l' -> NoDup (list_prod l l').
Proof.
  intros Hl Hl'. induction Hl as [|a l Ha Hl IH]; simpl; [constructor |].
  apply NoDup_app.
  - clear -Hl'. induction Hl' as [|b l' Hb Hl' IH]; simpl; constructor; [| assumption].
    intros Hin. apply in_map_iff in Hin. destruct Hin as [y [[= ->] Hy]]. contradiction.
  - assumption.
  - intros [x y] Hin1 Hin2. apply in_map_iff in Hin1. destruct Hin1 as [y' [[= <- <-] _]].
    apply List.in_prod_iff in Hin2. tauto.
Qed.

(** X30. With [n] tokens and the cursor on token [c], the loops try exactly
    [(c + 1) * (n - c)] phrases: one for each start up to [c] and each end
    from [c]; that is at most [n * n], and none when [c] is not a token. *)
Theorem enumeratePhrases_count (n c : nat) :
  List.length (enumeratePhrases n c) = (if c <? n then (c + 1) * (n - c) else 0)
  /\ List.length (enumeratePhrases n c) <= n * n.
Proof.
  assert (Hin : forall sp, In sp (enumeratePhrases n c)
                           <-> fst sp <= c <= snd sp /\ snd sp < n).
  { intros sp. unfold enumeratePhrases. rewrite outer_loop_in. unfold spanLength. lia. }
  assert (Hnd : NoDup (enumeratePhrases n c)).
  { eapply StronglySorted_NoDup; [apply spanBefore_irrefl | apply outer_loop_sorted]. }
  assert (Hlen : List.length (enumeratePhrases n c)
                 = if c <? n then (c + 1) * (n - c) else 0).
  { destruct (Nat.ltb_spec c n) as [Hlt | Hge].
    - assert (Hperm : Permutation (enumeratePhrases n c)
                        (list_prod (seq 0 (c + 1)) (seq c (n - c)))).
      { apply NoDup_Permutation; [assumption | apply NoDup_list_prod; apply seq_NoDup |].
        intros [s e]. split; intros H.
        - apply Hin in H. cbn [fst snd] in H. apply List.in_prod_iff.
          rewrite !in_seq. lia.
        - apply List.in_prod_iff in H. rewrite !in_seq in H. apply Hin. cbn [fst snd]. lia. }
      apply Permutation_length in Hperm. rewrite Hperm.
      transitivity (List.length (seq 0 (c + 1)) * List.length (seq c (n - c)));
        [apply List.length_prod | rewrite !length_seq; reflexivity].
    - destruct (enumeratePhrases n c) as [|sp l]; [reflexivity |].
      exfalso. specialize (proj1 (Hin sp) (or_introl eq_refl)). lia. }
  split; [exact Hlen |].
  rewrite Hlen. destruct (Nat.ltb_spec c n); nia.
Qed.

(* ------------------------------------------------------------------------- *)
(** * The normalizer on UTF-16 text *)

Ltac to_arith :=
  unfold Utf16.isScalar, Utf16.isSurrogate, Utf16.isHighSurrogate,
    Utf16.isLowSurrogate, isCombiningDiacritical, between in *;
  rewrite ?andb_true_iff, ?andb_false_iff, ?negb_true_iff, ?negb_false_iff,
    ?andb_true_iff, ?andb_false_iff,
    ?N.leb_le, ?N.leb_gt, ?N.ltb_lt, ?N.ltb_ge, ?N.eqb_eq, ?N.eqb_neq in *.

(** ** Code units and code points *)

Lemma utf16_decode_cons (u : N) (rest : list N) :
  Utf16.isHighSurrogate u = false ->
  Utf16.decode (u :: rest) = u :: Utf16.decode rest.
Proof.
  intros H. cbn [Utf16.decode]. destruct rest as [|trail rest]; [reflexivity |].
  rewrite H. reflexivity.
Qed.

Lemma utf16_halves (c : N) :
  (0x10000 <= c)%N -> (c < 0x110000)%N ->
  let lead := (0xD800 + (c - 0x10000) / 0x400)%N in
  let trail := (0xDC00 + (c - 0x10000) mod 0x400)%N in
  Utf16.isHighSurrogate lead = true /\ Utf16.isLowSurrogate trail = true
  /\ Utf16.surrogatePair lead trail = c.
Proof.
  intros Hlo Hhi. cbv zeta. unfold Utf16.surrogatePair.
  assert (Hq : ((c - 0x10000) / 0x400 < 0x400)%N)
    by (apply N.Div0.div_lt_upper_bound; lia).
  assert (Hr : ((c - 0x10000) mod 0x400 < 0x400)%N) by (apply N.mod_lt; lia).
  pose proof (N.div_mod' (c - 0x10000) 0x400) as Hd.
  set (q := ((c - 0x10000) / 0x400)%N) in *.
  set (r := ((c - 0x10000) mod 0x400)%N) in *.
  split; [to_arith; lia | split; [to_arith; lia | lia]].
Qed.

Lemma utf16_decode_encode (cps : list N) :
  forallb Utf16.isScalar cps = true -> Utf16.decode (Utf16.encode cps) = cps.
Proof.
  induction cps as [|c cps IH]; [reflexivity |].
  cbn [forallb]. intros H. apply andb_true_iff in H. destruct H as [Hc Hcps].
  unfold Utf16.encode. cbn [flat_map]. fold (Utf16.encode cps).
  unfold Utf16.encodeCodePoint. destruct (N.ltb_spec c 0x10000) as [Hlt | Hge].
  - cbn [app]. rewrite utf16_decode_cons, IH by (assumption || (to_arith; lia)).
    reflexivity.
  - assert (Hhi : (c < 0x110000)%N) by (to_arith; lia).
    destruct (utf16_halves c Hge Hhi) as [H1 [H2 H3]].
    cbn [app Utf16.decode]. rewrite H1, H2. cbn [andb]. rewrite H3, IH by assumption.
    reflexivity.
Qed.

Lemma utf16_strip_encode (cps : list N) :
  Utf16.stripCombining (Utf16.encode cps)
  = Utf16.encode (filter (fun c => negb (isCombiningDiacritical c)) cps).
Proof.
  unfold Utf16.stripCombining.
  induction cps as [|c cps IH]; [reflexivity |].
  unfold Utf16.encode. cbn [flat_map filter]. fold (Utf16.encode cps).
  rewrite filter_app, IH. unfold Utf16.encodeCodePoint.
  destruct (N.ltb_spec c 0x10000) as [Hlt | Hge].
  - cbn [filter]. destruct (negb (isCombiningDiacritical c)); cbn [flat_map app].
    + fold (Utf16.encode (filter (fun c => negb (isCombiningDiacritical c)) cps)).
      rewrite (proj2 (N.ltb_lt c 0x10000) Hlt). reflexivity.
    + reflexivity.
  - assert (H0 : isCombiningDiacritical c = false) by (to_arith; lia).
    assert (H1 : isCombiningDiacritical (0xD800 + (c - 0x10000) / 0x400) = false)
      by (generalize ((c - 0x10000) / 0x400)%N; intros q; to_arith; lia).
    assert (H2 : isCombiningDiacritical (0xDC00 + (c - 0x10000) mod 0x400) = false)
      by (generalize ((c - 0x10000) mod 0x400)%N; intros r; to_arith; lia).
    cbn [filter]. rewrite H0, H1, H2. cbn [negb flat_map app].
    fold (Utf16.encode (filter (fun c => negb (isCombiningDiacritical c)) cps)).
    rewrite (proj2 (N.ltb_ge c 0x10000) Hge). reflexivity.
Qed.

(** ** The steps on code points *)

Section UnicodeFacts.

Variable ucd : Utf16.UnicodeData.

Lemma insertMark_In (x c : N) (before : list N) :
  In x (Utf16.insertMark ucd c before) <-> x = c \/ In x before.
Proof.
  induction before as [|p before IH]; cbn [Utf16.insertMark].
  - simpl. intuition.
  - destruct (_ && _); simpl; rewrite ?IH; intuition.
Qed.

Lemma canonicalOrder_In (x : N) (cps : list N) :
  In x (Utf16.canonicalOrder ucd cps) <-> In x cps.
Proof.
  unfold Utf16.canonicalOrder. rewrite <- in_rev.
  assert (H : forall before,
             In x (fold_left (fun before c => Utf16.insertMark ucd c before) cps before)
             <-> In x cps \/ In x before).
  { induction cps as [|c cps IH]; intros before; cbn [fold_left].
    - simpl. intuition.
    - rewrite IH, insertMark_In. simpl. intuition. }
  rewrite H. simpl. intuition.
Qed.

Lemma canonicalOrder_starters (cps : list N) :
  (forall c, In c cps -> Utf16.combiningClass ucd c = 0%N) ->
  Utf16.canonicalOrder ucd cps = cps.
Proof.
  intros H. unfold Utf16.canonicalOrder.
  assert (Hf : forall before,
             fold_left (fun before c => Utf16.insertMark ucd c before) cps before
             = rev cps ++ before).
  { induction cps as [|c cps IH]; intros before; cbn [fold_left]; [reflexivity |].
    rewrite IH by (intros d Hd; apply H; simpl; auto).
    assert (Hc : Utf16.insertMark ucd c before = c :: before).
    { destruct before as [|p before]; [reflexivity |].
      cbn [Utf16.insertMark]. rewrite (H c) by (simpl; auto). reflexivity. }
    rewrite Hc. simpl. rewrite <- app_assoc. reflexivity. }
  rewrite Hf, app_nil_r. apply rev_involutive.
Qed.

Lemma nfd_In (x : N) (cps : list N) :
  In x (Utf16.nfd ucd cps) -> exists y, In y cps /\ In x (Utf16.decomposition ucd y).
Proof.
  unfold Utf16.nfd, Utf16.decompose. rewrite canonicalOrder_In, in_flat_map. auto.
Qed.

Lemma lowerAt_lowered (before : list N) (c : N) (after : list N) (d : N) :
  In d (Utf16.lowerAt ucd before c after) -> In d (Utf16.lowered ucd c).
Proof.
  unfold Utf16.lowerAt, Utf16.lowered.
  destruct (c =? Utf16.capitalSigma)%N; [| auto].
  destruct (Utf16.finalSigma ucd before after); simpl; intuition.
Qed.

Lemma lowerFrom_In (d : N) (cps before : list N) :
  In d (Utf16.lowerFrom ucd before cps) ->
  exists x, In x cps /\ In d (Utf16.lowered ucd x).
Proof.
  revert before; induction cps as [|c cps IH]; intros before; cbn [Utf16.lowerFrom];
    [intros [] |].
  intros H. apply in_app_or in H. destruct H as [H | H].
  - exists c. split; [simpl; auto | eapply lowerAt_lowered; eassumption].
  - destruct (IH _ H) as [x [Hx Hd]]. exists x. simpl. auto.
Qed.

Lemma lowerFrom_settled (cps before : list N) :
  Forall (Utf16.settled ucd) cps -> Utf16.lowerFrom ucd before cps = cps.
Proof.
  intros H. revert before. induction H as [|c cps Hc _ IH]; intros before;
    cbn [Utf16.lowerFrom]; [reflexivity |].
  destruct Hc as [_ [_ [_ [_ [Hl [Hs _]]]]]].
  unfold Utf16.lowerAt. rewrite (proj2 (N.eqb_neq _ _) Hs), Hl, IH. reflexivity.
Qed.

Lemma normalizeCodePoints_fixed (cps : list N) :
  Forall (Utf16.settled ucd) cps -> Utf16.normalizeCodePoints ucd cps = cps.
Proof.
  intros H. pose proof (proj1 (Forall_forall _ _) H) as Hall.
  unfold Utf16.normalizeCodePoints, Utf16.nfd, Utf16.decompose.
  assert (Hd : flat_map (Utf16.decomposition ucd) cps = cps).
  { clear Hall. induction H as [|c cps Hc _ IH]; [reflexivity |].
    cbn [flat_map]. rewrite IH. destruct Hc as [_ [_ [-> _]]]. reflexivity. }
  rewrite Hd, canonicalOrder_starters by (intros c Hc; apply (Hall c Hc)).
  assert (Hm : filter (fun c => negb (isCombiningDiacritical c)) cps = cps).
  { apply forallb_filter_id. apply forallb_forall. intros c Hc.
    destruct (Hall c Hc) as [_ [-> _]]. reflexivity. }
  rewrite Hm, lowerFrom_settled by assumption.
  apply forallb_filter_id. apply forallb_forall. intros c Hc. apply (Hall c Hc).
Qed.

Hypothesis database : Utf16.coherent ucd.

Lemma sigmas_scalar (x d : N) :
  Utf16.isScalar x = true -> In d (Utf16.lowered ucd x) -> Utf16.isScalar d = true.
Proof.
  unfold Utf16.lowered. intros Hx.
  destruct (x =? Utf16.capitalSigma)%N.
  - intros [<- | [<- | []]]; reflexivity.
  - apply (Utf16.lowercase_scalar ucd database); assumption.
Qed.

Lemma stripped_nfd_scalar (cps : list N) :
  forallb Utf16.isScalar cps = true ->
  forallb Utf16.isScalar
    (filter (fun c => negb (isCombiningDiacritical c)) (Utf16.nfd ucd cps)) = true.
Proof.
  intros H. apply forallb_forall. intros x Hx. apply filter_In in Hx.
  destruct Hx as [Hx _]. apply nfd_In in Hx. destruct Hx as [y [Hy Hx]].
  apply (Utf16.decomposition_scalar ucd database y); [| assumption].
  apply (proj1 (forallb_forall _ _) H). assumption.
Qed.

Lemma lowerFrom_scalar (cps before : list N) :
  forallb Utf16.isScalar cps = true ->
  forallb Utf16.isScalar (Utf16.lowerFrom ucd before cps) = true.
Proof.
  intros H. apply forallb_forall. intros d Hd. apply lowerFrom_In in Hd.
  destruct Hd as [x [Hx Hd]]. apply (sigmas_scalar x); [| assumption].
  apply (proj1 (forallb_forall _ _) H). assumption.
Qed.

Lemma normalizeText_of_code_points (text : list N) :
  Utf16.wellFormed text = true ->
  Utf16.normalizeText ucd text
  = Utf16.encode (Utf16.normalizeCodePoints ucd (Utf16.decode text)).
Proof.
  unfold Utf16.wellFormed. intros H.
  unfold Utf16.normalizeText, Utf16.keepLettersAndNumbers, Utf16.toLowerCase,
    Utf16.normalizeNFD, Utf16.normalizeCodePoints.
  rewrite utf16_strip_encode.
  rewrite (utf16_decode_encode
             (filter (fun c => negb (isCombiningDiacritical c))
                (Utf16.nfd ucd (Utf16.decode text))))
    by (apply stripped_nfd_scalar; assumption).
  rewrite utf16_decode_encode
    by (apply lowerFrom_scalar; apply stripped_nfd_scalar; assumption).
  reflexivity.
Qed.

Lemma normalizeCodePoints_settled (cps : list N) :
  forallb Utf16.isScalar cps = true ->
  Forall (Utf16.settled ucd) (Utf16.normalizeCodePoints ucd cps).
Proof.
  intros H. apply Forall_forall. intros d Hd.
  unfold Utf16.normalizeCodePoints in Hd. apply filter_In in Hd.
  destruct Hd as [Hd Hln].
  assert (Hsc : Utf16.isScalar d = true).
  { apply (proj1 (forallb_forall _ _)
             (lowerFrom_scalar _ [] (stripped_nfd_scalar cps H))). assumption. }
  apply lowerFrom_In in Hd. destruct Hd as [x [Hx Hd]].
  apply filter_In in Hx. destruct Hx as [Hx Hm]. apply negb_true_iff in Hm.
  apply nfd_In in Hx. destruct Hx as [y [_ Hx]].
  destruct (Utf16.lowered_letters_settled ucd database y x d Hx Hm Hd Hln)
    as [H1 [H2 H3]].
  unfold Utf16.settled. repeat split; try assumption.
  - destruct (isCombiningDiacritical d) eqn:E; [| reflexivity].
    rewrite (Utf16.marks_not_letters ucd database d E) in Hln. discriminate Hln.
  - apply (Utf16.letters_are_starters ucd database). assumption.
Qed.

Lemma settled_scalar (cps : list N) :
  Forall (Utf16.settled ucd) cps -> forallb Utf16.isScalar cps = true.
Proof.
  intros H. apply forallb_forall. intros c Hc.
  apply (proj1 (Forall_forall _ _) H c Hc).
Qed.

End UnicodeFacts.

(** ** The database on some blocks *)

Lemma assoc_In (A : Type) (c : N) (table : list (N * A)) (v : A) :
  Utf16.assoc c table = Some v -> In (c, v) table.
Proof.
  induction table as [|[k w] table IH]; cbn [Utf16.assoc]; [discriminate |].
  destruct (N.eqb_spec k c) as [-> | Hne].
  - intros [= ->]. simpl. auto.
  - intros H. simpl. auto.
Qed.

Lemma assoc_unmapped (A : Type) (c : N) (table : list (N * A)) :
  ~ In c (map fst table) -> Utf16.assoc c table = None.
Proof.
  intros H. destruct (Utf16.assoc c table) as [v|] eqn:E; [| reflexivity].
  exfalso. apply H. apply assoc_In in E. apply in_map_iff. exists (c, v). auto.
Qed.

Lemma combiningDiacriticals_all (c : N) :
  isCombiningDiacritical c = true -> In c Utf16.combiningDiacriticals.
Proof.
  intros H. unfold Utf16.combiningDiacriticals. apply in_map_iff.
  exists (N.to_nat c). split; [apply N2Nat.id |].
  apply in_seq. to_arith. lia.
Qed.

Lemma excerpt_marks_not_letters (c : N) :
  isCombiningDiacritical c = true -> Utf16.letterOrNumber Utf16.excerpt c = false.
Proof.
  intros H. apply combiningDiacriticals_all in H.
  assert (Hall : forallb (fun c => negb (Utf16.letterOrNumber Utf16.excerpt c))
                   Utf16.combiningDiacriticals = true) by (vm_compute; reflexivity).
  apply negb_true_iff. apply (proj1 (forallb_forall _ _) Hall c H).
Qed.

Lemma excerpt_letters_are_starters (c : N) :
  Utf16.letterOrNumber Utf16.excerpt c = true ->
  Utf16.combiningClass Utf16.excerpt c = 0%N.
Proof.
  intros H. cbn [Utf16.combiningClass Utf16.excerpt].
  destruct (Utf16.assoc c Utf16.combiningClassTable) as [k|] eqn:E; [| reflexivity].
  apply assoc_In in E.
  assert (Hall : forallb (fun row => negb (Utf16.letterOrNumber Utf16.excerpt (fst row)))
                   Utf16.combiningClassTable = true) by (vm_compute; reflexivity).
  pose proof (proj1 (forallb_forall _ _) Hall _ E) as Hc. cbn [fst] in Hc.
  rewrite H in Hc. discriminate Hc.
Qed.

Lemma isSelf_eq (l : list N) (c : N) : Utf16.isSelf l c = true -> l = [c].
Proof.
  destruct l as [|x [|y l]]; cbn [Utf16.isSelf]; try discriminate.
  intros H. apply N.eqb_eq in H. now subst.
Qed.

Lemma excerpt_unmapped (y : N) :
  ~ In y Utf16.mapped ->
  Utf16.decomposition Utf16.excerpt y = [y]
  /\ Utf16.lowercase Utf16.excerpt y = [y]
  /\ Utf16.lowered Utf16.excerpt y = [y].
Proof.
  intros H. unfold Utf16.mapped in H.
  assert (H1 : Utf16.decomposition Utf16.excerpt y = [y]).
  { cbn [Utf16.decomposition Utf16.excerpt]. rewrite assoc_unmapped; [reflexivity |].
    intros Hin. apply H. apply in_or_app. auto. }
  assert (H2 : Utf16.lowercase Utf16.excerpt y = [y]).
  { cbn [Utf16.lowercase Utf16.excerpt]. rewrite assoc_unmapped; [reflexivity |].
    intros Hin. apply H. apply in_or_app. auto. }
  split; [assumption | split; [assumption |]].
  unfold Utf16.lowered. destruct (N.eqb_spec y Utf16.capitalSigma) as [-> | _];
    [| assumption].
  exfalso. apply H.
  assert (Hs : existsb (N.eqb Utf16.capitalSigma)
                 (map fst Utf16.decompositionTable ++ map fst Utf16.lowercaseTable) = true)
    by (vm_compute; reflexivity).
  apply existsb_exists in Hs. destruct Hs as [x [Hx Heq]].
  apply N.eqb_eq in Heq. now subst.
Qed.

Lemma excerpt_settledAfterLowering (y : N) :
  Utf16.settledAfterLowering Utf16.excerpt y = true.
Proof.
  destruct (in_dec N.eq_dec y Utf16.mapped) as [Hin | Hout].
  - assert (Hall : forallb (Utf16.settledAfterLowering Utf16.excerpt) Utf16.mapped = true)
      by (vm_compute; reflexivity).
    apply (proj1 (forallb_forall _ _) Hall y Hin).
  - destruct (excerpt_unmapped y Hout) as [H1 [H2 H3]].
    unfold Utf16.settledAfterLowering. rewrite H1. cbn [forallb]. rewrite H3.
    cbn [forallb]. rewrite H1, H2. cbn [Utf16.isSelf]. rewrite N.eqb_refl.
    assert (Hs : (y =? Utf16.capitalSigma)%N = false).
    { apply N.eqb_neq. intros ->. unfold Utf16.lowered in H3.
      rewrite N.eqb_refl in H3. discriminate H3. }
    rewrite Hs. cbn [negb andb]. rewrite !orb_true_r. reflexivity.
Qed.

Lemma excerpt_staysOther (y : N) : Utf16.staysOther Utf16.excerpt y = true.
Proof.
  destruct (in_dec N.eq_dec y Utf16.mapped) as [Hin | Hout].
  - assert (Hall : forallb (Utf16.staysOther Utf16.excerpt) Utf16.mapped = true)
      by (vm_compute; reflexivity).
    apply (proj1 (forallb_forall _ _) Hall y Hin).
  - destruct (excerpt_unmapped y Hout) as [H1 [H2 H3]].
    unfold Utf16.staysOther. rewrite H1. cbn [forallb]. rewrite H3. cbn [forallb].
    destruct (Utf16.letterOrNumber Utf16.excerpt y); cbn [negb orb andb];
      rewrite ?orb_true_r; reflexivity.
Qed.

Lemma excerpt_rows_scalar (table : list (N * list N)) (y x : N) :
  forallb (fun row => forallb Utf16.isScalar (snd row)) table = true ->
  Utf16.isScalar y = true ->
  In x (match Utf16.assoc y table with Some l => l | None => [y] end) ->
  Utf16.isScalar x = true.
Proof.
  intros Hall Hy. destruct (Utf16.assoc y table) as [l|] eqn:E.
  - apply assoc_In in E. pose proof (proj1 (forallb_forall _ _) Hall _ E) as Hl.
    cbn [snd] in Hl. apply (proj1 (forallb_forall _ _) Hl).
  - intros [<- | []]. assumption.
Qed.

Lemma excerpt_coherent : Utf16.coherent Utf16.excerpt.
Proof.
  constructor.
  - exact excerpt_marks_not_letters.
  - exact excerpt_letters_are_starters.
  - intros y x d Hx Hm Hd Hln.
    pose proof (excerpt_settledAfterLowering y) as H.
    unfold Utf16.settledAfterLowering in H.
    pose proof (proj1 (forallb_forall _ _) H x Hx) as H1. cbv beta in H1.
    rewrite Hm in H1. cbn [orb] in H1.
    pose proof (proj1 (forallb_forall _ _) H1 d Hd) as H2. cbv beta in H2.
    rewrite Hln in H2. cbn [negb orb] in H2.
    apply andb_true_iff in H2. destruct H2 as [H2 H3].
    apply andb_true_iff in H2. destruct H2 as [H2 H4].
    split; [apply isSelf_eq; assumption | split; [apply isSelf_eq; assumption |]].
    apply negb_true_iff in H3. apply N.eqb_neq. assumption.
  - intros y x. apply excerpt_rows_scalar. vm_compute; reflexivity.
  - intros y x. apply excerpt_rows_scalar. vm_compute; reflexivity.
Qed.

Lemma excerpt_othersStayOthers : Utf16.othersStayOthers Utf16.excerpt.
Proof.
  intros y x d Hy Hx Hm Hd.
  pose proof (excerpt_staysOther y) as H. unfold Utf16.staysOther in H.
  rewrite Hy in H. cbn [orb] in H.
  pose proof (proj1 (forallb_forall _ _) H x Hx) as H1. cbv beta in H1.
  rewrite Hm in H1. cbn [orb] in H1.
  apply negb_true_iff. apply (proj1 (forallb_forall _ _) H1 d Hd).
Qed.

(** ** Idempotence *)

(** C7 as stated fails.  In the string U+D804 U+0301 U+DC9A the two
    surrogates are unpaired, so no step but the removal of the combining
    mark changes it; the removal joins them into U+1109A, a letter, which
    is the key.  Normalized again, U+1109A decomposes into U+11099 U+110BA,
    and the mark U+110BA is removed: the key of the key is U+11099. *)
Lemma normalizeText_not_idempotent_on_split_pair :
  Utf16.normalizeText Utf16.excerpt Utf16.splitPair = [0xD804; 0xDC9A]%N
  /\ Utf16.normalizeText Utf16.excerpt [0xD804; 0xDC9A]%N = [0xD804; 0xDC99]%N
  /\ Utf16.normalizeText Utf16.excerpt
       (Utf16.normalizeText Utf16.excerpt Utf16.splitPair)
     <> Utf16.normalizeText Utf16.excerpt Utf16.splitPair.
Proof.
  split; [vm_compute; reflexivity | split; [vm_compute; reflexivity |]].
  vm_compute. discriminate.
Qed.

(** C7, amended.  For every string without unpaired surrogate, the key is
    again such a string and is its own key:
    [normalizeText (normalizeText s) = normalizeText s]; [normalizeText] is
    a total function (it returns a key for every string) and the key of the
    empty string is empty.  The database is any that has the facts of
    [coherent]. *)
Theorem normalizeText_idempotent_on_well_formed_text
  (ucd : Utf16.UnicodeData) (database : Utf16.coherent ucd) :
  (forall text,
      Utf16.wellFormed text = true ->
      Utf16.normalizeText ucd (Utf16.normalizeText ucd text)
      = Utf16.normalizeText ucd text
      /\ Utf16.wellFormed (Utf16.normalizeText ucd text) = true)
  /\ Utf16.normalizeText ucd [] = [].
Proof.
  split; [| reflexivity]. intros text H.
  pose proof (normalizeCodePoints_settled ucd database (Utf16.decode text) H) as Hs.
  pose proof (settled_scalar ucd _ Hs) as Hsc.
  rewrite (normalizeText_of_code_points ucd database text H).
  assert (Hw : Utf16.wellFormed
                 (Utf16.encode (Utf16.normalizeCodePoints ucd (Utf16.decode text))) = true).
  { unfold Utf16.wellFormed. rewrite utf16_decode_encode; assumption. }
  split; [| assumption].
  rewrite (normalizeText_of_code_points ucd database _ Hw).
  rewrite utf16_decode_encode by assumption.
  rewrite normalizeCodePoints_fixed by assumption. reflexivity.
Qed.

Lemma normalizeText_idempotent_on_well_formed_text_witness :
  Utf16.wellFormed Utf16.sampleText = true
  /\ Utf16.normalizeText Utf16.excerpt Utf16.sampleText = Utf16.sampleKey
  /\ Utf16.normalizeText Utf16.excerpt
       (Utf16.normalizeText Utf16.excerpt Utf16.sampleText)
     = Utf16.normalizeText Utf16.excerpt Utf16.sampleText.
Proof.
  split; [reflexivity | split; [vm_compute; reflexivity |]].
  apply (proj1 (normalizeText_idempotent_on_well_formed_text Utf16.excerpt
                  excerpt_coherent)).
  reflexivity.
Defined.

(** ** Keys *)

(** X1. The key of a text without unpaired surrogate is made of letters and
    numbers that no step of the normalizer changes: none is a combining
    diacritical mark, has a decomposition, a combining class above zero or
    a lowercase mapping, none is the capital sigma or a surrogate. *)
Theorem normalizeText_key_settled
  (ucd : Utf16.UnicodeData) (database : Utf16.coherent ucd) (text : list N) :
  Utf16.wellFormed text = true ->
  Forall (Utf16.settled ucd) (Utf16.decode (Utf16.normalizeText ucd text)).
Proof.
  intros H.
  pose proof (normalizeCodePoints_settled ucd database (Utf16.decode text) H) as Hs.
  rewrite (normalizeText_of_code_points ucd database text H).
  rewrite utf16_decode_encode by (apply (settled_scalar ucd); assumption).
  assumption.
Qed.

Lemma normalizeText_key_settled_witness :
  Utf16.wellFormed Utf16.sampleText = true
  /\ Forall (Utf16.settled Utf16.excerpt)
       (Utf16.decode (Utf16.normalizeText Utf16.excerpt Utf16.sampleText)).
Proof.
  split; [reflexivity |].
  apply (normalizeText_key_settled Utf16.excerpt excerpt_coherent). reflexivity.
Defined.

(** X3. A text without unpaired surrogate and without letter or number has
    the empty key, when the database keeps what is neither letter nor
    number so through decomposition and lowercasing. *)
Theorem normalizeText_without_letters
  (ucd : Utf16.UnicodeData) (database : Utf16.coherent ucd)
  (others : Utf16.othersStayOthers ucd) (text : list N) :
  Utf16.wellFormed text = true ->
  (forall c, In c (Utf16.decode text) -> Utf16.letterOrNumber ucd c = false) ->
  Utf16.normalizeText ucd text = [].
Proof.
  intros H Hno. rewrite (normalizeText_of_code_points ucd database text H).
  assert (Hk : Utf16.normalizeCodePoints ucd (Utf16.decode text) = []).
  { unfold Utf16.normalizeCodePoints.
    destruct (filter _ _) as [|d l] eqn:E; [reflexivity |].
    assert (Hd : In d (d :: l)) by (simpl; auto). rewrite <- E in Hd.
    apply filter_In in Hd. destruct Hd as [Hd Hln].
    apply lowerFrom_In in Hd. destruct Hd as [x [Hx Hd]].
    apply filter_In in Hx. destruct Hx as [Hx Hm]. apply negb_true_iff in Hm.
    apply nfd_In in Hx. destruct Hx as [y [Hy Hx]].
    rewrite (others y x d (Hno y Hy) Hx Hm Hd) in Hln. discriminate Hln. }
  rewrite Hk. reflexivity.
Qed.

Lemma normalizeText_without_letters_witness :
  Utf16.normalizeText Utf16.excerpt (codeUnits "?! - ...") = [].
Proof.
  apply (normalizeText_without_letters Utf16.excerpt excerpt_coherent
           excerpt_othersStayOthers).
  - reflexivity.
  - assert (H : forallb (fun c => negb (Utf16.letterOrNumber Utf16.excerpt c))
                  (Utf16.decode (codeUnits "?! - ...")) = true) by (vm_compute; reflexivity).
    intros c Hc. apply negb_true_iff. apply (proj1 (forallb_forall _ _) H c Hc).
Defined.

(** ** The range U+0000 to U+00FF *)

Section CanonicalOrderOfStarters.

Variable ucd : Utf16.UnicodeData.

Lemma insertMark_starters (c : N) (before : list N) :
  filter (isStarter ucd) (Utf16.insertMark ucd c before)
  = if isStarter ucd c then c :: filter (isStarter ucd) before
    else filter (isStarter ucd) before.
Proof.
  induction before as [|p before IH]; cbn [Utf16.insertMark]; [reflexivity |].
  destruct ((0 <? Utf16.combiningClass ucd c)
            && (Utf16.combiningClass ucd c <? Utf16.combiningClass ucd p))%N eqn:E.
  - apply andb_true_iff in E. destruct E as [E _]. apply N.ltb_lt in E.
    assert (Hc : isStarter ucd c = false) by (unfold isStarter; apply N.eqb_neq; lia).
    cbn [filter]. rewrite IH, Hc. reflexivity.
  - reflexivity.
Qed.

Lemma canonicalOrder_starters_kept (cps : list N) :
  filter (isStarter ucd) (Utf16.canonicalOrder ucd cps) = filter (isStarter ucd) cps.
Proof.
  unfold Utf16.canonicalOrder.
  assert (H : forall before,
             filter (isStarter ucd)
               (fold_left (fun before c => Utf16.insertMark ucd c before) cps before)
             = rev (filter (isStarter ucd) cps) ++ filter (isStarter ucd) before).
  { induction cps as [|c cps IH]; intros before; cbn [fold_left]; [reflexivity |].
    rewrite IH, insertMark_starters. cbn [filter].
    destruct (isStarter ucd c); [| reflexivity].
    cbn [rev]. rewrite <- app_assoc. reflexivity. }
  assert (Hr : forall l, filter (isStarter ucd) (rev l) = rev (filter (isStarter ucd) l)).
  { induction l as [|x l IHl]; [reflexivity |].
    cbn [rev filter]. rewrite filter_app, IHl. cbn [filter].
    destruct (isStarter ucd x); [reflexivity | apply app_nil_r]. }
  rewrite Hr, H. cbn [filter]. rewrite app_nil_r. apply rev_involutive.
Qed.

Lemma lowerFrom_without_sigma (cps before : list N) :
  (forall c, In c cps -> c <> Utf16.capitalSigma) ->
  Utf16.lowerFrom ucd before cps = flat_map (Utf16.lowercase ucd) cps.
Proof.
  revert before; induction cps as [|c cps IH]; intros before H; [reflexivity |].
  cbn [Utf16.lowerFrom flat_map]. unfold Utf16.lowerAt.
  rewrite (proj2 (N.eqb_neq _ _) (H c (or_introl eq_refl))).
  rewrite IH by (intros d Hd; apply H; simpl; auto). reflexivity.
Qed.

End CanonicalOrderOfStarters.

Lemma allAscii_all (c : ascii) : In c allAscii.
Proof.
  unfold allAscii. apply in_map_iff. exists (nat_of_ascii c).
  split; [apply ascii_nat_embedding |].
  apply in_seq. pose proof (nat_ascii_bounded c). lia.
Qed.

Lemma codeUnits_app (s t : string) :
  codeUnits (s ++ t) = codeUnits s ++ codeUnits t.
Proof.
  unfold codeUnits. induction s as [|c s IH]; [reflexivity |].
  simpl. f_equal. exact IH.
Qed.

Lemma codeUnits_small (s : string) (u : N) : In u (codeUnits s) -> (u < 0x100)%N.
Proof.
  unfold codeUnits. intros H. apply in_map_iff in H. destruct H as [c [<- _]].
  assert (Hall : forallb (fun c => (code c <? 0x100)%N) allAscii = true)
    by (vm_compute; reflexivity).
  apply N.ltb_lt. apply (proj1 (forallb_forall _ _) Hall c (allAscii_all c)).
Qed.

Lemma decode_small (units : list N) :
  (forall u, In u units -> (u < 0xD800)%N) -> Utf16.decode units = units.
Proof.
  induction units as [|u units IH]; intros H; [reflexivity |].
  rewrite utf16_decode_cons.
  - rewrite IH by (intros v Hv; apply H; simpl; auto). reflexivity.
  - pose proof (H u (or_introl eq_refl)). to_arith. lia.
Qed.

Lemma encode_small (cps : list N) :
  (forall c, In c cps -> (c < 0x10000)%N) -> Utf16.encode cps = cps.
Proof.
  induction cps as [|c cps IH]; intros H; [reflexivity |].
  unfold Utf16.encode. cbn [flat_map]. fold (Utf16.encode cps).
  unfold Utf16.encodeCodePoint.
  rewrite (proj2 (N.ltb_lt _ _) (H c (or_introl eq_refl))).
  rewrite IH by (intros d Hd; apply H; simpl; auto). reflexivity.
Qed.

(** One character: the database gives what the tables of [Text] give. *)
Lemma keyOfCodePoint_normalizeChar (c : ascii) :
  keyOfCodePoint Utf16.excerpt (code c) = codeUnits (normalizeChar c)
  /\ forallb
       (fun x =>
          (Utf16.combiningClass Utf16.excerpt x =? 0)%N
          && negb (x =? Utf16.capitalSigma)%N && (x <? 0x100)%N)
       (filter (fun x => negb (isCombiningDiacritical x))
          (Utf16.decomposition Utf16.excerpt (code c))) = true
  /\ forallb
       (fun x =>
          Bool.eqb (negb (isCombiningDiacritical x))
            (Utf16.combiningClass Utf16.excerpt x =? 0)%N)
       (Utf16.decomposition Utf16.excerpt (code c)) = true.
Proof.
  assert (Hall :
    forallb
      (fun c =>
         (if list_eq_dec N.eq_dec (keyOfCodePoint Utf16.excerpt (code c))
               (codeUnits (normalizeChar c)) then true else false)
         && forallb
              (fun x =>
                 (Utf16.combiningClass Utf16.excerpt x =? 0)%N
                 && negb (x =? Utf16.capitalSigma)%N && (x <? 0x100)%N)
              (filter (fun x => negb (isCombiningDiacritical x))
                 (Utf16.decomposition Utf16.excerpt (code c)))
         && forallb
              (fun x =>
                 Bool.eqb (negb (isCombiningDiacritical x))
                   (Utf16.combiningClass Utf16.excerpt x =? 0)%N)
              (Utf16.decomposition Utf16.excerpt (code c)))
      allAscii = true) by (vm_compute; reflexivity).
  pose proof (proj1 (forallb_forall _ _) Hall c (allAscii_all c)) as H. cbv beta in H.
  apply andb_true_iff in H. destruct H as [H H3].
  apply andb_true_iff in H. destruct H as [H1 H2].
  destruct (list_eq_dec N.eq_dec _ _) as [E | _]; [| discriminate H1].
  auto.
Qed.

Lemma filter_flat_map_N (p : N -> bool) (f : N -> list N) (l : list N) :
  filter p (flat_map f l) = flat_map (fun x => filter p (f x)) l.
Proof.
  induction l as [|x l IH]; [reflexivity |].
  cbn [flat_map]. rewrite filter_app, IH. reflexivity.
Qed.

Lemma flat_map_flat_map_N (f g : N -> list N) (l : list N) :
  flat_map f (flat_map g l) = flat_map (fun x => flat_map f (g x)) l.
Proof.
  induction l as [|x l IH]; [reflexivity |].
  cbn [flat_map]. rewrite flat_map_app, IH. reflexivity.
Qed.

Lemma normalizeCodePoints_latin1 (s : string) :
  Utf16.normalizeCodePoints Utf16.excerpt (codeUnits s)
  = flat_map (keyOfCodePoint Utf16.excerpt) (codeUnits s).
Proof.
  unfold Utf16.normalizeCodePoints, Utf16.nfd, Utf16.decompose.
  set (D := flat_map (Utf16.decomposition Utf16.excerpt) (codeUnits s)).
  assert (HD : forall x, In x D ->
             negb (isCombiningDiacritical x) = isStarter Utf16.excerpt x).
  { intros x Hx. unfold D in Hx. apply in_flat_map in Hx. destruct Hx as [u [Hu Hx]].
    unfold codeUnits in Hu. apply in_map_iff in Hu. destruct Hu as [c [<- _]].
    destruct (keyOfCodePoint_normalizeChar c) as [_ [_ H3]].
    pose proof (proj1 (forallb_forall _ _) H3 x Hx) as H. cbv beta in H.
    apply Bool.eqb_prop in H. exact H. }
  assert (Ha : filter (fun c => negb (isCombiningDiacritical c))
                 (Utf16.canonicalOrder Utf16.excerpt D)
               = filter (fun c => negb (isCombiningDiacritical c)) D).
  { rewrite (filter_ext_in _ (isStarter Utf16.excerpt))
      by (intros x Hx; apply HD; apply canonicalOrder_In in Hx; exact Hx).
    rewrite canonicalOrder_starters_kept. symmetry.
    apply filter_ext_in. exact HD. }
  rewrite Ha. unfold D. rewrite filter_flat_map_N.
  set (S := flat_map _ (codeUnits s)).
  assert (HS : forall x, In x S -> x <> Utf16.capitalSigma).
  { intros x Hx. unfold S in Hx. apply in_flat_map in Hx. destruct Hx as [u [Hu Hx]].
    unfold codeUnits in Hu. apply in_map_iff in Hu. destruct Hu as [c [<- _]].
    destruct (keyOfCodePoint_normalizeChar c) as [_ [H2 _]].
    pose proof (proj1 (forallb_forall _ _) H2 x Hx) as H. cbv beta in H.
    apply andb_true_iff in H. destruct H as [H _].
    apply andb_true_iff in H. destruct H as [_ H].
    apply negb_true_iff in H. apply N.eqb_neq. exact H. }
  rewrite (lowerFrom_without_sigma Utf16.excerpt S [] HS).
  rewrite filter_flat_map_N. unfold S. rewrite flat_map_flat_map_N. reflexivity.
Qed.

Lemma keys_latin1 (s : string) :
  flat_map (keyOfCodePoint Utf16.excerpt) (codeUnits s) = codeUnits (normalizeText s).
Proof.
  induction s as [|c s IH]; [reflexivity |].
  rewrite normalizeText_cons, codeUnits_app, <- IH.
  change (codeUnits (String c s)) with (code c :: codeUnits s). cbn [flat_map].
  rewrite (proj1 (keyOfCodePoint_normalizeChar c)). reflexivity.
Qed.

Lemma codeUnits_wellFormed (s : string) : Utf16.wellFormed (codeUnits s) = true.
Proof.
  unfold Utf16.wellFormed.
  rewrite decode_small
    by (intros u Hu; pose proof (codeUnits_small s u Hu); lia).
  apply forallb_forall. intros u Hu. pose proof (codeUnits_small s u Hu).
  to_arith. lia.
Qed.

Lemma lowercase_latin1 (c : ascii) :
  Utf16.lowercase Utf16.excerpt (code c) = [code (lowerChar c)].
Proof.
  assert (Hall :
    forallb
      (fun c => Utf16.isSelf (Utf16.lowercase Utf16.excerpt (code c)) (code (lowerChar c)))
      allAscii = true) by (vm_compute; reflexivity).
  apply isSelf_eq. apply (proj1 (forallb_forall _ _) Hall c (allAscii_all c)).
Qed.

Lemma toLowerCase_latin1 (s : string) :
  Utf16.toLowerCase Utf16.excerpt (codeUnits s) = codeUnits (toLowerCase s).
Proof.
  unfold Utf16.toLowerCase.
  rewrite decode_small
    by (intros u Hu; pose proof (codeUnits_small s u Hu); lia).
  rewrite lowerFrom_without_sigma
    by (intros c Hc; pose proof (codeUnits_small s c Hc);
        unfold Utf16.capitalSigma; lia).
  assert (H : flat_map (Utf16.lowercase Utf16.excerpt) (codeUnits s)
              = codeUnits (toLowerCase s)).
  { unfold codeUnits, toLowerCase. induction s as [|c s IH]; [reflexivity |].
    cbn [list_ascii_of_string map flat_map smap]. rewrite IH, lowercase_latin1.
    reflexivity. }
  rewrite H. apply encode_small.
  intros c Hc. pose proof (codeUnits_small _ c Hc). lia.
Qed.

(** X2. On a text of code units U+0000 to U+00FF the normalizer works
    character by character: [normalizeText], which decomposes, strips,
    lowercases and filters each character with the tables of that range,
    gives the key that the steps on UTF-16 text give with the database; and
    so does [toLowerCase], which maps each character, for the lowercase
    text. *)
Theorem normalizeText_on_latin1 (s : string) :
  Utf16.normalizeText Utf16.excerpt (codeUnits s) = codeUnits (normalizeText s)
  /\ Utf16.toLowerCase Utf16.excerpt (codeUnits s) = codeUnits (toLowerCase s).
Proof.
  split; [| apply toLowerCase_latin1].
  rewrite (normalizeText_of_code_points Utf16.excerpt excerpt_coherent)
    by apply codeUnits_wellFormed.
  rewrite decode_small
    by (intros u Hu; pose proof (codeUnits_small s u Hu); lia).
  rewrite normalizeCodePoints_latin1, keys_latin1.
  apply encode_small. intros c Hc. pose proof (codeUnits_small _ c Hc). lia.
Qed.

(* ------------------------------------------------------------------------- *)
(** * Indexing with the frontmatter as the cache holds it *)

Lemma indexTags_texts (file : TFile) (tags : list string) (index : Index) :
  Untyped.indexTags file (map Untyped.Text tags) index
  = (fold_left
       (fun idx t => let cleanTag := trim t in addToIndex cleanTag (tagEntry file cleanTag) idx)
       tags index,
     Untyped.Returned).
Proof.
  revert index; induction tags as [|t tags IH]; intros index; [reflexivity |].
  cbn [map Untyped.indexTags fold_left]. cbv zeta. apply IH.
Qed.

Lemma indexTags_all_text (file : TFile) (items : list Untyped.FrontmatterValue)
  (index : Index) :
  forallb isText items = true ->
  Untyped.indexTags file items index
  = Untyped.indexTags file (map Untyped.Text (flat_map textOf items)) index.
Proof.
  revert index; induction items as [|[t | b] items IH]; intros index H;
    [reflexivity | | discriminate H].
  cbn [flat_map textOf app map Untyped.indexTags]. cbv zeta. apply IH. exact H.
Qed.

Lemma indexTags_throws (file : TFile) (items : list Untyped.FrontmatterValue)
  (index : Index) :
  forallb isText items = false ->
  Untyped.indexTags file items index
  = (insertAll (map (fun t => (trim t, tagEntry file (trim t))) (textsBefore items)) index,
     Untyped.Threw).
Proof.
  revert index; induction items as [|[t | b] items IH]; intros index H;
    [discriminate H | | reflexivity].
  cbn [Untyped.indexTags textsBefore map]. cbv zeta. rewrite IH by exact H.
  reflexivity.
Qed.

Lemma indexFile_of_typed (m : CachedMetadata) (file : TFile) (index : Index) :
  Untyped.indexFile (Some (untyped m)) file index
  = (indexFile (Some m) file index, Untyped.Returned).
Proof.
  unfold Untyped.indexFile, indexFile, tagList, untyped.
  cbn [Untyped.frontmatterTags Untyped.headings Untyped.sections].
  destruct (negb (String.eqb (extension file) "md")); [reflexivity |]. cbv zeta.
  destruct (frontmatterTags m) as [[l | s]|]; cbn [option_map untypedTags].
  - rewrite indexTags_texts. reflexivity.
  - destruct (isEmpty s); [reflexivity |]. rewrite indexTags_texts. reflexivity.
  - reflexivity.
Qed.

Lemma indexFile_returns (metadata : option Untyped.CachedMetadata) (file : TFile)
  (index : Index) :
  throwsOn metadata file = false ->
  Untyped.indexFile metadata file index
  = (indexFile (option_map typed metadata) file index, Untyped.Returned).
Proof.
  unfold throwsOn, Untyped.indexFile, indexFile.
  destruct (String.eqb (extension file) "md"); cbn [negb andb]; [| reflexivity].
  destruct metadata as [m|]; [| reflexivity]. cbn [option_map]. cbv zeta.
  unfold tagsThrow, tagList, typed. cbn [frontmatterTags headings sections].
  destruct (Untyped.frontmatterTags m) as [[items | [s | truthy]]|];
    cbn [typedTags]; intros H.
  - apply negb_false_iff in H.
    rewrite (indexTags_all_text file items _ H), indexTags_texts. reflexivity.
  - destruct (isEmpty s); [reflexivity |]. rewrite indexTags_texts. reflexivity.
  - rewrite H. reflexivity.
  - reflexivity.
Qed.

Lemma indexFile_throws (m : Untyped.CachedMetadata) (file : TFile) (index : Index) :
  throwsOn (Some m) file = true ->
  Untyped.indexFile (Some m) file index
  = (insertAll (entriesBeforeThrow m file) index, Untyped.Threw).
Proof.
  unfold throwsOn, Untyped.indexFile, entriesBeforeThrow, tagsThrow, tagsBeforeThrow.
  destruct (String.eqb (extension file) "md"); cbn [negb andb]; [| discriminate].
  cbv zeta.
  change (insertAll ((basename file, titleEntry file) :: ?l) index)
    with (insertAll l (addToIndex (basename file) (titleEntry file) index)).
  destruct (Untyped.frontmatterTags m) as [[items | [s | truthy]]|]; intros H;
    try discriminate H.
  - apply negb_true_iff in H. rewrite (indexTags_throws file items _ H). reflexivity.
  - rewrite H. reflexivity.
Qed.

(** X14. [indexFile] on the metadata as the cache holds it.  A file that is
    not markdown is not indexed.  For a markdown file the title is inserted
    in every case.  When the tags are absent, falsy, text, or an array of
    text, the call returns with the index that [indexFile] gives on the
    tags read as text.  When the tags are another truthy value, or an array
    with an item that is not text, the call throws: the index then holds
    the title and the tags in front of that item, and none of the later
    tags, the headings and the blocks of the file has been inserted. *)
Theorem indexFile_completion
  (metadata : option Untyped.CachedMetadata) (file : TFile) (index : Index) :
  (extension file <> "md" ->
   Untyped.indexFile metadata file index = (index, Untyped.Returned))
  /\ (extension file = "md" ->
      existsb (sameTriple (titleEntry file))
        (bucketOf (normalizeText (basename file))
           (fst (Untyped.indexFile metadata file index))) = true)
  /\ (throwsOn metadata file = false ->
      Untyped.indexFile metadata file index
      = (indexFile (option_map typed metadata) file index, Untyped.Returned))
  /\ (throwsOn metadata file = true ->
      exists m,
        metadata = Some m
        /\ Untyped.indexFile metadata file index
           = (insertAll (entriesBeforeThrow m file) index, Untyped.Threw))
  /\ (forall m,
         metadata = Some (untyped m) ->
         Untyped.indexFile metadata file index
         = (indexFile (Some m) file index, Untyped.Returned)).
Proof.
  split; [| split; [| split; [| split]]].
  - intros Hne. apply String.eqb_neq in Hne. unfold Untyped.indexFile.
    rewrite Hne. reflexivity.
  - intros Hmd. destruct (throwsOn metadata file) eqn:E.
    + destruct metadata as [m|];
        [| unfold throwsOn in E; rewrite andb_false_r in E; discriminate E].
      rewrite (indexFile_throws m file index E). cbn [fst].
      apply insertAll_finds. unfold entriesBeforeThrow. simpl. auto.
    + rewrite (indexFile_returns metadata file index E). cbn [fst].
      rewrite indexFile_as_insertions, (proj2 (String.eqb_eq _ _) Hmd).
      apply insertAll_finds. simpl. auto.
  - apply indexFile_returns.
  - intros E. destruct metadata as [m|];
      [| unfold throwsOn in E; rewrite andb_false_r in E; discriminate E].
    exists m. split; [reflexivity | apply indexFile_throws; exact E].
  - intros m ->. apply indexFile_of_typed.
Qed.

Lemma indexFile_completion_witness :
  Untyped.indexFile (Some yearTagged) parisNote emptyIndex
  = (insertAll [("Paris", titleEntry parisNote); ("travel", tagEntry parisNote "travel")]
       emptyIndex,
     Untyped.Threw).
Proof.
  destruct (proj1 (proj2 (proj2 (proj2
              (indexFile_completion (Some yearTagged) parisNote emptyIndex)))) eq_refl)
    as [m [Hm H]].
  injection Hm as <-. exact H.
Defined.

(** ** Full rebuild *)









